(** * GeneSequencing: Needleman-Wunsch alignment, unrestricted and banded

    A shallow embedding of [GeneSequencing.py] and the verification of its
    specification.  The Python class is modelled function by function:

    - Python integers are [Z]; a matrix cell holds an integer or [math.inf]
      and is a [num];
    - Python strings are lists of characters ([ascii], which holds the bases
      A, C, G, T and the gap marker), lists are lists, and indexing follows
      Python: a negative index counts from the end and an index out of range
      raises [IndexError];
    - the [for] loops run over [range]s, the [while] loops take fuel;
    - a computation is a [result]: a value, [IndexError], or [OutOfFuel] when
      a [while] loop was given too few iterations. *)

From Stdlib Require Import ZArith List Ascii String Bool Arith Lia.
Import ListNotations.
Open Scope Z_scope.

(** ** Numbers: Python [int] or [math.inf] *)

Inductive num : Type :=
| Int (z : Z)
| Inf.

Definition nadd (a b : num) : num :=
  match a, b with
  | Int x, Int y => Int (x + y)
  | _, _ => Inf
  end.

Definition nltb (a b : num) : bool :=
  match a, b with
  | Int x, Int y => x <? y
  | Int _, Inf => true
  | Inf, _ => false
  end.

Definition neqb (a b : num) : bool :=
  match a, b with
  | Int x, Int y => x =? y
  | Inf, Inf => true
  | _, _ => false
  end.

(** Python's [min] keeps the first of its arguments that no later one beats. *)
Definition min2 (a b : num) : num := if nltb b a then b else a.
Definition min3 (a b c : num) : num := min2 (min2 a b) c.

(** ** Results of a computation that may raise *)

Inductive result (A : Type) : Type :=
| Ok (a : A)
| IndexError
| OutOfFuel.

Arguments Ok {A} a.
Arguments IndexError {A}.
Arguments OutOfFuel {A}.

Definition bind {A B : Type} (m : result A) (k : A -> result B) : result B :=
  match m with
  | Ok a => k a
  | IndexError => IndexError
  | OutOfFuel => OutOfFuel
  end.

Notation "x <- m ;; k" := (bind m (fun x => k))
  (at level 61, m at next level, right associativity).

(** ** Python sequences *)

Definition len {A : Type} (l : list A) : Z := Z.of_nat (List.length l).

(** The position an index denotes in a sequence of length [n], if any. *)
Definition norm_index (n k : Z) : option nat :=
  if (0 <=? k) && (k <? n) then Some (Z.to_nat k)
  else if (k <? 0) && (- n <=? k) then Some (Z.to_nat (n + k))
  else None.

(** [l[k]] *)
Definition getitem {A : Type} (l : list A) (k : Z) : result A :=
  match norm_index (len l) k with
  | Some p => match nth_error l p with Some x => Ok x | None => IndexError end
  | None => IndexError
  end.

(** [l[:k]] *)
Definition slice_to {A : Type} (l : list A) (k : Z) : list A :=
  if 0 <=? k then firstn (Z.to_nat k) l else firstn (Z.to_nat (len l + k)) l.

(** [range(lo, hi)] *)
Definition range (lo hi : Z) : list Z :=
  map (fun k => lo + Z.of_nat k) (seq 0 (Z.to_nat (hi - lo))).

Fixpoint for_loop {S : Type} (idx : list Z) (body : Z -> S -> result S) (s : S)
  : result S :=
  match idx with
  | [] => Ok s
  | i :: rest => s' <- body i s ;; for_loop rest body s'
  end.

(** ** Matrices: lists of rows, rows grown by [append] *)

Definition matrix : Type := list (list num).

Fixpoint set_nth {A : Type} (l : list A) (p : nat) (x : A) : list A :=
  match l, p with
  | [], _ => []
  | _ :: t, O => x :: t
  | h :: t, S p' => h :: set_nth t p' x
  end.

(** [M[i][j]] *)
Definition get2 (M : matrix) (i j : Z) : result num :=
  r <- getitem M i ;; getitem r j.

(** [M[i].append(x)] *)
Definition append_cell (M : matrix) (i : Z) (x : num) : result matrix :=
  match norm_index (len M) i with
  | Some p =>
      match nth_error M p with
      | Some r => Ok (set_nth M p (r ++ [x]))
      | None => IndexError
      end
  | None => IndexError
  end.

(** ** The constants of the module *)

Definition MAXINDELS : Z := 3.
Definition MATCH : Z := -3.
Definition INDEL : Z := 5.
Definition SUB : Z := 1.

(** ** The class: its two attributes, set by [align] *)

Record GeneSequencing : Type := {
  banded : bool;
  MaxCharactersToAlign : Z
}.

Definition str : Type := list ascii.

Definition diff (i j : ascii) : Z :=
  if Ascii.eqb i j then MATCH else SUB.

(** *** [getEditDistanceUnrestricted] *)

Definition unrestricted_init (len1 : Z) : matrix * matrix :=
  fold_left (fun EP i => (fst EP ++ [[Int (5 * i)]], snd EP ++ [[Int 0]]))
            (range 0 len1) ([], []).

Definition unrestricted_row0 (j : Z) (EP : matrix * matrix)
  : result (matrix * matrix) :=
  E <- append_cell (fst EP) 0 (Int (5 * j)) ;;
  P <- append_cell (snd EP) 0 (Int 1) ;;
  Ok (E, P).

Definition unrestricted_cell (seq1 seq2 : str) (i j : Z) (EP : matrix * matrix)
  : result (matrix * matrix) :=
  a <- getitem seq1 (i - 1) ;;
  b <- getitem seq2 (j - 1) ;;
  d <- get2 (fst EP) (i - 1) (j - 1) ;;
  l <- get2 (fst EP) i (j - 1) ;;
  u <- get2 (fst EP) (i - 1) j ;;
  let e := min3 (nadd (Int (diff a b)) d) (nadd (Int INDEL) l)
                (nadd (Int INDEL) u) in
  E <- append_cell (fst EP) i e ;;
  l' <- get2 E i (j - 1) ;;
  if neqb e (nadd (Int INDEL) l') then
    P <- append_cell (snd EP) i (Int 1) ;; Ok (E, P)
  else
    u' <- get2 E (i - 1) j ;;
    if neqb e (nadd (Int INDEL) u') then
      P <- append_cell (snd EP) i (Int 2) ;; Ok (E, P)
    else
      P <- append_cell (snd EP) i (Int 0) ;; Ok (E, P).

Definition unrestricted_tables (self : GeneSequencing) (seq1 seq2 : str)
  : result (matrix * matrix) :=
  let len1 := Z.min (len seq1) (MaxCharactersToAlign self) + 1 in
  let len2 := Z.min (len seq2) (MaxCharactersToAlign self) + 1 in
  EP <- for_loop (range 1 len2) unrestricted_row0 (unrestricted_init len1) ;;
  for_loop (range 1 len1)
           (fun i => for_loop (range 1 len2) (unrestricted_cell seq1 seq2 i)) EP.

Definition getEditDistanceUnrestricted (self : GeneSequencing) (seq1 seq2 : str)
  : result (num * matrix) :=
  let len1 := Z.min (len seq1) (MaxCharactersToAlign self) + 1 in
  let len2 := Z.min (len seq2) (MaxCharactersToAlign self) + 1 in
  EP <- unrestricted_tables self seq1 seq2 ;;
  e <- get2 (fst EP) (len1 - 1) (len2 - 1) ;;
  Ok (e, snd EP).

(** *** [getEditDistanceBanded] *)

(** The body of the inner loop: cell [(i, j)] of the band. *)
Definition banded_cell (seq1 seq2 : str) (len2 : Z) (i j : Z)
  (EP : matrix * matrix) : result (matrix * matrix) :=
  let E := fst EP in
  let P := snd EP in
  if (len seq2 >=? i + j - MAXINDELS) && (i + j - MAXINDELS >=? 0) then
    if i =? 0 then
      E <- append_cell E i (Int (5 * (j - MAXINDELS))) ;;
      P <- append_cell P i (Int 1) ;;
      Ok (E, P)
    else
      eP <-
        (if j =? len2 - 1 then
           a <- getitem seq1 (i - 1) ;;
           b <- getitem seq2 (i + j - MAXINDELS - 1) ;;
           d <- get2 E (i - 1) j ;;
           l <- get2 E i (j - 1) ;;
           let e := min2 (nadd (Int (diff a b)) d) (nadd (Int INDEL) l) in
           l' <- get2 E i (j - 1) ;;
           if neqb e (nadd (Int INDEL) l') then
             P <- append_cell P i (Int 1) ;; Ok (e, P)
           else
             P <- append_cell P i (Int 0) ;; Ok (e, P)
         else if j =? 0 then
           a <- getitem seq1 (i - 1) ;;
           b <- getitem seq2 (i + j - MAXINDELS - 1) ;;
           d <- get2 E (i - 1) j ;;
           u <- get2 E (i - 1) (j + 1) ;;
           let e := min2 (nadd (Int (diff a b)) d) (nadd (Int INDEL) u) in
           u' <- get2 E (i - 1) (j + 1) ;;
           if neqb e (nadd (Int INDEL) u') then
             P <- append_cell P i (Int 2) ;; Ok (e, P)
           else
             P <- append_cell P i (Int 0) ;; Ok (e, P)
         else
           a <- getitem seq1 (i - 1) ;;
           b <- getitem seq2 (i + j - MAXINDELS - 1) ;;
           d <- get2 E (i - 1) j ;;
           l <- get2 E i (j - 1) ;;
           u <- get2 E (i - 1) (j + 1) ;;
           let e := min3 (nadd (Int (diff a b)) d) (nadd (Int INDEL) l)
                         (nadd (Int INDEL) u) in
           l' <- get2 E i (j - 1) ;;
           if neqb e (nadd (Int INDEL) l') then
             P <- append_cell P i (Int 1) ;; Ok (e, P)
           else
             u' <- get2 E (i - 1) (j + 1) ;;
             if neqb e (nadd (Int INDEL) u') then
               P <- append_cell P i (Int 2) ;; Ok (e, P)
             else
               P <- append_cell P i (Int 0) ;; Ok (e, P)) ;;
      E <- append_cell E i (fst eP) ;;
      Ok (E, snd eP)
  else
    E <- append_cell E i Inf ;;
    P <- append_cell P i Inf ;;
    Ok (E, P).

Definition banded_row (seq1 seq2 : str) (len2 : Z) (i : Z)
  (EP : matrix * matrix) : result (matrix * matrix) :=
  for_loop (range 0 len2) (banded_cell seq1 seq2 len2 i)
           (fst EP ++ [[]], snd EP ++ [[]]).

(** The tables after the double loop; [seq1] and [seq2] are already cut. *)
Definition banded_tables (seq1 seq2 : str) : result (matrix * matrix) :=
  let len1 := len seq1 + 1 in
  let len2 := 2 * MAXINDELS + 1 in
  for_loop (range 0 len1) (banded_row seq1 seq2 len2) ([], []).

(** [while ret == math.inf: ret_j -= 1; ret = E[len1 - 1][ret_j]] *)
Fixpoint banded_scan (fuel : nat) (E : matrix) (row ret_j : Z) (ret : num)
  : result (Z * num) :=
  if neqb ret Inf then
    match fuel with
    | O => OutOfFuel
    | S fuel' =>
        ret' <- get2 E row (ret_j - 1) ;;
        banded_scan fuel' E row (ret_j - 1) ret'
    end
  else Ok (ret_j, ret).

Definition getEditDistanceBanded (fuel : nat) (self : GeneSequencing)
  (seq1 seq2 : str) : result (num * matrix) :=
  let seq1 := slice_to seq1 (MaxCharactersToAlign self) in
  let seq2 := slice_to seq2 (MaxCharactersToAlign self) in
  let len1 := len seq1 + 1 in
  let len2 := 2 * MAXINDELS + 1 in
  if Z.abs (len seq1 - len seq2) >? MAXINDELS then Ok (Inf, [])
  else
    EP <- banded_tables seq1 seq2 ;;
    let ret_j := len2 - 1 in
    ret <- get2 (fst EP) (len1 - 1) ret_j ;;
    jr <- banded_scan fuel (fst EP) (len1 - 1) ret_j ret ;;
    Ok (snd jr, snd EP).

Definition getEditDistance (fuel : nat) (self : GeneSequencing)
  (seq1 seq2 : str) : result (num * matrix) :=
  if banded self then getEditDistanceBanded fuel self seq1 seq2
  else getEditDistanceUnrestricted self seq1 seq2.

(** *** The traceback *)

Definition gap : ascii := "-"%char.

(** The loop of [alignedUnrestricted], before the cut to 100 characters. *)
Fixpoint alignedUnrestricted_loop (fuel : nat) (seq1 seq2 : str) (P : matrix)
  (i j : Z) (seq1_aligned seq2_aligned : str) : result (str * str) :=
  if (i >? 0) || (j >? 0) then
    match fuel with
    | O => OutOfFuel
    | S fuel' =>
        t <- get2 P i j ;;
        if neqb t (Int 2) then
          a <- getitem seq1 (i - 1) ;;
          alignedUnrestricted_loop fuel' seq1 seq2 P (i - 1) j
            (a :: seq1_aligned) (gap :: seq2_aligned)
        else
          t' <- get2 P i j ;;
          if neqb t' (Int 0) then
            a <- getitem seq1 (i - 1) ;;
            b <- getitem seq2 (j - 1) ;;
            alignedUnrestricted_loop fuel' seq1 seq2 P (i - 1) (j - 1)
              (a :: seq1_aligned) (b :: seq2_aligned)
          else
            b <- getitem seq2 (j - 1) ;;
            alignedUnrestricted_loop fuel' seq1 seq2 P i (j - 1)
              (gap :: seq1_aligned) (b :: seq2_aligned)
    end
  else Ok (seq1_aligned, seq2_aligned).

Definition alignedUnrestricted_full (fuel : nat) (seq1 seq2 : str) (P : matrix)
  : result (str * str) :=
  let i := len P - 1 in
  r <- getitem P i ;;
  let j := len r - 1 in
  alignedUnrestricted_loop fuel seq1 seq2 P i j [] [].

Definition first100 (xy : str * str) : str * str :=
  (slice_to (fst xy) 100, slice_to (snd xy) 100).

Definition alignedUnrestricted (fuel : nat) (seq1 seq2 : str) (P : matrix)
  : result (str * str) :=
  xy <- alignedUnrestricted_full fuel seq1 seq2 P ;;
  Ok (first100 xy).

(** [while P[i][j] == math.inf: j -= 1] *)
Fixpoint alignedBanded_start (fuel : nat) (P : matrix) (i j : Z) : result Z :=
  t <- get2 P i j ;;
  if neqb t Inf then
    match fuel with
    | O => OutOfFuel
    | S fuel' => alignedBanded_start fuel' P i (j - 1)
    end
  else Ok j.

(** The second loop of [alignedBanded], before the cut to 100 characters. *)
Fixpoint alignedBanded_loop (fuel : nat) (seq1 seq2 : str) (P : matrix)
  (i j : Z) (seq1_aligned seq2_aligned : str) : result (str * str) :=
  if negb ((i =? 0) && (j =? MAXINDELS)) then
    match fuel with
    | O => OutOfFuel
    | S fuel' =>
        t <- get2 P i j ;;
        if neqb t (Int 2) then
          a <- getitem seq1 (i - 1) ;;
          alignedBanded_loop fuel' seq1 seq2 P (i - 1) (j + 1)
            (a :: seq1_aligned) (gap :: seq2_aligned)
        else
          t' <- get2 P i j ;;
          if neqb t' (Int 0) then
            a <- getitem seq1 (i - 1) ;;
            b <- getitem seq2 (i + j - MAXINDELS - 1) ;;
            alignedBanded_loop fuel' seq1 seq2 P (i - 1) j
              (a :: seq1_aligned) (b :: seq2_aligned)
          else
            b <- getitem seq2 (i + j - MAXINDELS - 1) ;;
            alignedBanded_loop fuel' seq1 seq2 P i (j - 1)
              (gap :: seq1_aligned) (b :: seq2_aligned)
    end
  else Ok (seq1_aligned, seq2_aligned).

Definition alignedBanded_full (fuel : nat) (seq1 seq2 : str) (P : matrix)
  : result (str * str) :=
  let i := len P - 1 in
  r <- getitem P i ;;
  j <- alignedBanded_start fuel P i (len r - 1) ;;
  alignedBanded_loop fuel seq1 seq2 P i j [] [].

Definition alignedBanded (fuel : nat) (seq1 seq2 : str) (P : matrix)
  : result (str * str) :=
  xy <- alignedBanded_full fuel seq1 seq2 P ;;
  Ok (first100 xy).

Definition no_alignment : str := list_ascii_of_string "No Alignment Possible".

Definition aligned (fuel : nat) (self : GeneSequencing) (seq1 seq2 : str)
  (P : matrix) : result (str * str) :=
  match P with
  | [] => Ok (no_alignment, no_alignment)
  | _ :: _ =>
      if banded self then alignedBanded fuel seq1 seq2 P
      else alignedUnrestricted fuel seq1 seq2 P
  end.

(** *** [align]: the dictionary it returns, as a record *)

Record alignment : Type := {
  align_cost : num;
  seqi_first100 : str;
  seqj_first100 : str
}.

Definition align (fuel : nat) (seq1 seq2 : str) (banded : bool)
  (align_length : Z) : result alignment :=
  let self := {| banded := banded; MaxCharactersToAlign := align_length |} in
  sP <- getEditDistance fuel self seq1 seq2 ;;
  xy <- aligned fuel self seq1 seq2 (snd sP) ;;
  Ok {| align_cost := fst sP; seqi_first100 := fst xy; seqj_first100 := snd xy |}.

(** * Closed forms used in the proofs *)

(** A matrix whose row [i] holds [f i 0 .. f i (w i - 1)]: the shape of [E]
    and [P] at every point of the builders, which only ever append. *)
Definition mk (f : nat -> nat -> num) (rows : nat) (w : nat -> nat) : matrix :=
  map (fun i => map (f i) (seq 0 (w i))) (seq 0 rows).

(** The width function after one [append] to row [i]. *)
Definition bump (w : nat -> nat) (i : nat) : nat -> nat :=
  fun k => if Nat.eqb k i then S (w k) else w k.

(** ** The dynamic program of the specification

    [E[0][j] = 5*j], [E[i][0] = 5*i] and, for [i, j >= 1],
    [E[i][j] = min (diff(seq1[i-1], seq2[j-1]) + E[i-1][j-1],
                    5 + E[i][j-1], 5 + E[i-1][j])]. *)

Definition char_at (sq : str) (k : nat) : ascii := nth k sq Ascii.zero.

Fixpoint E_spec (seq1 seq2 : str) (i j : nat) {struct i} : Z :=
  match i with
  | O => 5 * Z.of_nat j
  | S i' =>
      (fix row (j : nat) : Z :=
         match j with
         | O => 5 * Z.of_nat (S i')
         | S j' =>
             Z.min (Z.min (diff (char_at seq1 i') (char_at seq2 j')
                           + E_spec seq1 seq2 i' j')
                          (5 + row j'))
                   (5 + E_spec seq1 seq2 i' (S j'))
         end) j
  end.

(** The back-pointer the unrestricted builder stores in each cell. *)
Definition P_unrestricted (seq1 seq2 : str) (i j : nat) : Z :=
  match i, j with
  | _, O => 0
  | O, S _ => 1
  | S i', S j' =>
      if E_spec seq1 seq2 i j =? 5 + E_spec seq1 seq2 i j' then 1
      else if E_spec seq1 seq2 i j =? 5 + E_spec seq1 seq2 i' j then 2
      else 0
  end.

(** Row widths while the unrestricted builder fills cell [(i, j)]: the rows
    above are complete, row [i] has [j] cells, the rows below have one. *)
Definition wU (m i j : nat) : nat -> nat :=
  fun a => if Nat.ltb a i then S m else if Nat.eqb a i then j else 1%nat.

Definition EU (seq1 seq2 : str) (n : nat) (w : nat -> nat) : matrix :=
  mk (fun a b => Int (E_spec seq1 seq2 a b)) (S n) w.

Definition PU (seq1 seq2 : str) (n : nat) (w : nat -> nat) : matrix :=
  mk (fun a b => Int (P_unrestricted seq1 seq2 a b)) (S n) w.

Definition stU (seq1 seq2 : str) (n m i j : nat) : matrix * matrix :=
  (EU seq1 seq2 n (wU m i j), PU seq1 seq2 n (wU m i j)).

(** The unrestricted tables when the loops end: every row complete. *)
Definition fullU (seq1 seq2 : str) (n m : nat) : matrix * matrix :=
  stU seq1 seq2 n m n (S m).

(** ** Alignments and their cost

    An alignment is a list of columns; a column pairs a character of each
    sequence, or pairs a character of one sequence with a gap. *)

Inductive column : Type :=
| Pair (a b : ascii)
| Del (a : ascii)
| Ins (b : ascii).

(** The characters of the first sequence that an alignment holds, in order. *)
Definition top (al : list column) : str :=
  flat_map (fun c => match c with
                     | Pair a _ => [a]
                     | Del a => [a]
                     | Ins _ => []
                     end) al.

(** The characters of the second sequence that an alignment holds. *)
Definition bottom (al : list column) : str :=
  flat_map (fun c => match c with
                     | Pair _ b => [b]
                     | Del _ => []
                     | Ins b => [b]
                     end) al.

Definition column_cost (c : column) : Z :=
  match c with
  | Pair a b => diff a b
  | Del _ => INDEL
  | Ins _ => INDEL
  end.

Definition alignment_cost (al : list column) : Z :=
  fold_right (fun c acc => column_cost c + acc) 0 al.

(** [al] aligns [x] with [y]. *)
Definition aligns (al : list column) (x y : str) : Prop :=
  top al = x /\ bottom al = y.

(** [c] is the least cost of an alignment of [x] with [y]. *)
Definition minimum_cost (x y : str) (c : Z) : Prop :=
  (forall al, aligns al x y -> c <= alignment_cost al) /\
  (exists al, aligns al x y /\ alignment_cost al = c).

(** ** The banded tables, cell by cell

    Band cell [(i, j)] stands for column [i + j - MAXINDELS] of the full
    matrix; [in_band] is the test the builder makes before it fills a cell. *)

Definition in_band (seq2 : str) (i j : nat) : bool :=
  (len seq2 >=? Z.of_nat i + Z.of_nat j - MAXINDELS)
  && (Z.of_nat i + Z.of_nat j - MAXINDELS >=? 0).

(** [l[k]] when it is defined. *)
Definition item_or {A : Type} (d : A) (l : list A) (k : Z) : A :=
  match getitem l k with
  | Ok x => x
  | _ => d
  end.

(** [diff(seq1[i - 1], seq2[i + j - MAXINDELS - 1])] at row [i = S i']. *)
Definition band_diff (seq1 seq2 : str) (i' j : nat) : Z :=
  diff (char_at seq1 i')
       (item_or Ascii.zero seq2 (Z.of_nat (S i') + Z.of_nat j - MAXINDELS - 1)).

Fixpoint E_banded (seq1 seq2 : str) (i j : nat) {struct i} : num :=
  match i with
  | O => if in_band seq2 0 j then Int (5 * (Z.of_nat j - MAXINDELS)) else Inf
  | S i' =>
      (fix row (j : nat) : num :=
         if in_band seq2 (S i') j then
           match j with
           | O =>
               min2 (nadd (Int (band_diff seq1 seq2 i' 0))
                          (E_banded seq1 seq2 i' 0))
                    (nadd (Int INDEL) (E_banded seq1 seq2 i' 1))
           | S j' =>
               if Nat.eqb j 6 then
                 min2 (nadd (Int (band_diff seq1 seq2 i' j))
                            (E_banded seq1 seq2 i' j))
                      (nadd (Int INDEL) (row j'))
               else
                 min3 (nadd (Int (band_diff seq1 seq2 i' j))
                            (E_banded seq1 seq2 i' j))
                      (nadd (Int INDEL) (row j'))
                      (nadd (Int INDEL) (E_banded seq1 seq2 i' (S j)))
           end
         else Inf) j
  end.

Definition P_banded (seq1 seq2 : str) (i j : nat) : num :=
  if in_band seq2 i j then
    match i with
    | O => Int 1
    | S i' =>
        let e := E_banded seq1 seq2 i j in
        match j with
        | O =>
            if neqb e (nadd (Int INDEL) (E_banded seq1 seq2 i' 1)) then Int 2
            else Int 0
        | S j' =>
            if Nat.eqb j 6 then
              if neqb e (nadd (Int INDEL) (E_banded seq1 seq2 i j')) then Int 1
              else Int 0
            else
              if neqb e (nadd (Int INDEL) (E_banded seq1 seq2 i j')) then Int 1
              else if neqb e (nadd (Int INDEL) (E_banded seq1 seq2 i' (S j)))
                   then Int 2
              else Int 0
        end
    end
  else Inf.

(** Row widths while the banded builder fills cell [(i, j)]. *)
Definition wB (i j : nat) : nat -> nat :=
  fun a => if Nat.ltb a i then 7%nat else j.

Definition EB (seq1 seq2 : str) (rows : nat) (w : nat -> nat) : matrix :=
  mk (E_banded seq1 seq2) rows w.

Definition PB (seq1 seq2 : str) (rows : nat) (w : nat -> nat) : matrix :=
  mk (P_banded seq1 seq2) rows w.

Definition stB (seq1 seq2 : str) (i j : nat) : matrix * matrix :=
  (EB seq1 seq2 (S i) (wB i j), PB seq1 seq2 (S i) (wB i j)).

(** The banded tables with [rows] complete rows. *)
Definition fullB (seq1 seq2 : str) (rows : nat) : matrix * matrix :=
  (EB seq1 seq2 rows (fun _ => 7%nat), PB seq1 seq2 rows (fun _ => 7%nat)).

(** The band column of row [n] that stands for column [m] of the full
    matrix. *)
Definition last_col (n m : nat) : nat := (m + 3 - n)%nat.

(** The two printed rows of an alignment, a gap shown as ["-"]. *)
Definition row1 (al : list column) : str :=
  map (fun c => match c with Pair a _ => a | Del a => a | Ins _ => gap end) al.

Definition row2 (al : list column) : str :=
  map (fun c => match c with Pair _ b => b | Del _ => gap | Ins b => b end) al.

(** An aligned string with its gap markers removed. *)
Definition remove_gaps (x : str) : str :=
  filter (fun c => negb (Ascii.eqb c gap)) x.

(** The sequence contains no ["-"] of its own. *)
Definition gap_free (x : str) : Prop :=
  forallb (fun c => negb (Ascii.eqb c gap)) x = true.

(** ** The tie-break of the builders

    The tag of the first of left (1), up (2) and diagonal (0) whose candidate
    equals the cost [e] of the cell. *)
Definition first_of_left_up_diagonal (e left up diag : num) : option num :=
  if neqb e left then Some (Int 1)
  else if neqb e up then Some (Int 2)
  else if neqb e diag then Some (Int 0)
  else None.

(** The candidate [INDEL + E[r][c]] of a band cell, or [math.inf] when band
    column [c] does not exist and the builder takes no such candidate. *)
Definition band_candidate (E : matrix) (r c : Z) (v : num) : Prop :=
  if (0 <=? c) && (c <=? 2 * MAXINDELS) then
    exists w, get2 E r c = Ok w /\ v = nadd (Int INDEL) w
  else v = Inf.

(** The number of characters of [sq] that take part when the cap is [L]. *)
Definition cut (sq : str) (L : Z) : nat := Z.to_nat (Z.min (len sq) L).

(** The tables the unrestricted builder returns under the cap [L]. *)
Definition E_full (seq1 seq2 : str) (L : Z) : matrix :=
  EU seq1 seq2 (cut seq1 L) (fun _ => S (cut seq2 L)).

Definition P_full (seq1 seq2 : str) (L : Z) : matrix :=
  PU seq1 seq2 (cut seq1 L) (fun _ => S (cut seq2 L)).

(** ** The path of the unrestricted traceback

    [meets_column0 fuel P i j] follows the back-pointers of [P] from cell
    [(i, j)] the way [alignedUnrestricted] does and tells whether the walk
    stands on a cell of column 0 in a row [i > 0], or cannot be followed to
    its end with this fuel. *)
Fixpoint meets_column0 (fuel : nat) (P : matrix) (i j : Z) : bool :=
  if (i >? 0) || (j >? 0) then
    if j =? 0 then true
    else
      match fuel with
      | O => true
      | S fuel' =>
          match get2 P i j with
          | Ok t =>
              if neqb t (Int 2) then meets_column0 fuel' P (i - 1) j
              else if neqb t (Int 0) then meets_column0 fuel' P (i - 1) (j - 1)
              else meets_column0 fuel' P i (j - 1)
          | _ => true
          end
      end
  else false.

Definition unrestricted_meets_column0 (fuel : nat) (seq1 seq2 : str) (L : Z)
  : bool :=
  match getEditDistanceUnrestricted
          {| banded := false; MaxCharactersToAlign := L |} seq1 seq2 with
  | Ok (_, P) =>
      match getitem P (len P - 1) with
      | Ok r => meets_column0 fuel P (len P - 1) (len r - 1)
      | _ => true
      end
  | _ => true
  end.

(** ** The costs and the dynamic program as the specification words them

    "match = -3, substitution = +1, insertion/deletion = +5"; the
    definitions below are written from those words, with the numbers
    themselves, and are compared with the code's [diff], [INDEL] and
    tables in the theorems. *)

(** "[diff] returns -3 when the two characters are equal and +1
    otherwise." *)
Definition diff_claimed (a b : ascii) : Z :=
  if Ascii.eqb a b then -3 else 1.

(** "[E[0][j] = 5*j], [E[i][0] = 5*i], and [E[i][j] =
    min(diff(seq1[i-1], seq2[j-1]) + E[i-1][j-1], 5 + E[i][j-1],
    5 + E[i-1][j])] for [i >= 1], [j >= 1]." *)
Fixpoint E_claimed (seq1 seq2 : str) (i j : nat) {struct i} : Z :=
  match i with
  | O => 5 * Z.of_nat j
  | S i' =>
      (fix row (j : nat) : Z :=
         match j with
         | O => 5 * Z.of_nat (S i')
         | S j' =>
             Z.min (Z.min (diff_claimed (char_at seq1 i') (char_at seq2 j')
                           + E_claimed seq1 seq2 i' j')
                          (5 + row j'))
                   (5 + E_claimed seq1 seq2 i' (S j'))
         end) j
  end.

(** The cost of one column of an alignment: a pair of equal characters is
    a match, a pair of different characters a substitution, a character
    against a gap an insertion or a deletion. *)
Definition column_cost_claimed (c : column) : Z :=
  match c with
  | Pair a b => if Ascii.eqb a b then -3 else 1
  | Del _ => 5
  | Ins _ => 5
  end.

Definition total_cost_claimed (al : list column) : Z :=
  fold_right (fun c acc => column_cost_claimed c + acc) 0 al.

(** [c] is the minimum total edit cost over all alignments of [x] with
    [y] under the costs of the specification. *)
Definition minimum_cost_claimed (x y : str) (c : Z) : Prop :=
  (forall al, aligns al x y -> c <= total_cost_claimed al) /\
  (exists al, aligns al x y /\ total_cost_claimed al = c).
(** * Lemmas on sequences, loops and matrices *)

Lemma norm_index_nat (n : Z) (p : nat) :
  Z.of_nat p < n -> norm_index n (Z.of_nat p) = Some p.
Proof.
  intros H. unfold norm_index.
  replace (0 <=? Z.of_nat p) with true by (symmetry; apply Z.leb_le; lia).
  replace (Z.of_nat p <? n) with true by (symmetry; apply Z.ltb_lt; lia).
  simpl. now rewrite Nat2Z.id.
Qed.

Lemma norm_index_neg (n k : Z) :
  k < 0 -> - n <= k -> norm_index n k = Some (Z.to_nat (n + k)).
Proof.
  intros H1 H2. unfold norm_index.
  replace (0 <=? k) with false by (symmetry; apply Z.leb_gt; lia).
  replace (k <? 0) with true by (symmetry; apply Z.ltb_lt; lia).
  replace (- n <=? k) with true by (symmetry; apply Z.leb_le; lia).
  reflexivity.
Qed.

Lemma norm_index_out (n k : Z) :
  k < - n \/ n <= k -> norm_index n k = None.
Proof.
  intros H. unfold norm_index.
  destruct (0 <=? k) eqn:H0; destruct (k <? n) eqn:H1;
    destruct (k <? 0) eqn:H2; destruct (- n <=? k) eqn:H3; simpl; try reflexivity;
    rewrite ?Z.leb_le, ?Z.ltb_lt, ?Z.leb_gt, ?Z.ltb_ge in *; lia.
Qed.

Lemma getitem_nth {A : Type} (l : list A) (p : nat) (x : A) :
  nth_error l p = Some x -> getitem l (Z.of_nat p) = Ok x.
Proof.
  intros H. unfold getitem, len.
  assert (p < List.length l)%nat by (apply nth_error_Some; congruence).
  rewrite norm_index_nat by lia. now rewrite H.
Qed.

Lemma getitem_nth_default {A : Type} (l : list A) (p : nat) (d : A) :
  (p < List.length l)%nat -> getitem l (Z.of_nat p) = Ok (nth p l d).
Proof.
  intros H. apply getitem_nth. now apply nth_error_nth'.
Qed.

Lemma getitem_defined {A : Type} (l : list A) (k : Z) :
  - len l <= k < len l -> exists x, getitem l k = Ok x.
Proof.
  intros H. unfold getitem, len in *.
  destruct (Z.ltb_spec k 0).
  - rewrite norm_index_neg by lia.
    destruct (nth_error l (Z.to_nat (Z.of_nat (List.length l) + k))) eqn:E.
    + now exists a.
    + apply nth_error_None in E. lia.
  - replace k with (Z.of_nat (Z.to_nat k)) by lia.
    rewrite norm_index_nat by lia.
    destruct (nth_error l (Z.to_nat k)) eqn:E.
    + now exists a.
    + apply nth_error_None in E. lia.
Qed.

Lemma getitem_out {A : Type} (l : list A) (k : Z) :
  k < - len l \/ len l <= k -> getitem l k = IndexError.
Proof.
  intros H. unfold getitem. now rewrite norm_index_out.
Qed.

Lemma slice_to_firstn {A : Type} (l : list A) (k : Z) :
  0 <= k -> slice_to l k = firstn (Z.to_nat k) l.
Proof.
  intros H. unfold slice_to.
  now replace (0 <=? k) with true by (symmetry; apply Z.leb_le; lia).
Qed.

Lemma len_slice_to {A : Type} (l : list A) (k : Z) :
  0 <= k -> len (slice_to l k) = Z.min (len l) k.
Proof.
  intros H. rewrite slice_to_firstn by assumption.
  unfold len. rewrite length_firstn. lia.
Qed.

(** A loop whose successive states are known in advance. *)
Lemma for_loop_trace {S : Type} (body : Z -> S -> result S) (st : nat -> S)
  (g : nat -> Z) (cnt : nat) : forall a : nat,
  (forall k, (a <= k < a + cnt)%nat -> body (g k) (st k) = Ok (st (Datatypes.S k))) ->
  for_loop (map g (seq a cnt)) body (st a) = Ok (st (a + cnt)%nat).
Proof.
  induction cnt as [|cnt IH]; intros a H; simpl.
  - now rewrite Nat.add_0_r.
  - rewrite H by lia. simpl. rewrite IH.
    + f_equal. f_equal. lia.
    + intros k Hk. apply H. lia.
Qed.

Lemma range_from (lo hi : Z) (cnt : nat) :
  hi - lo = Z.of_nat cnt ->
  range lo hi = map (fun k => lo + Z.of_nat k) (seq 0 cnt).
Proof.
  intros H. unfold range. rewrite H. now rewrite Nat2Z.id.
Qed.

Lemma length_mk f rows w : List.length (mk f rows w) = rows.
Proof. unfold mk. now rewrite length_map, length_seq. Qed.

Lemma nth_error_mk f rows w i :
  (i < rows)%nat -> nth_error (mk f rows w) i = Some (map (f i) (seq 0 (w i))).
Proof.
  intros H. unfold mk. rewrite nth_error_map.
  rewrite nth_error_seq. destruct (Nat.ltb_spec i rows); [|lia]. reflexivity.
Qed.

Lemma getitem_mk f rows w i :
  (i < rows)%nat ->
  getitem (mk f rows w) (Z.of_nat i) = Ok (map (f i) (seq 0 (w i))).
Proof. intros H. apply getitem_nth. now apply nth_error_mk. Qed.

Lemma get2_mk f rows w i j :
  (i < rows)%nat -> (j < w i)%nat ->
  get2 (mk f rows w) (Z.of_nat i) (Z.of_nat j) = Ok (f i j).
Proof.
  intros Hi Hj. unfold get2. rewrite getitem_mk by assumption. simpl.
  apply getitem_nth. rewrite nth_error_map, nth_error_seq.
  destruct (Nat.ltb_spec j (w i)); [|lia]. reflexivity.
Qed.

Lemma mk_ext f rows w w' :
  (forall i, (i < rows)%nat -> w i = w' i) -> mk f rows w = mk f rows w'.
Proof.
  intros H. unfold mk. apply map_ext_in. intros i Hi.
  apply in_seq in Hi. rewrite H by lia. reflexivity.
Qed.

Lemma set_nth_map_seq {A : Type} (g h : nat -> A) (p cnt : nat) : forall a,
  (p < cnt)%nat ->
  (forall k, k <> (a + p)%nat -> h k = g k) ->
  set_nth (map g (seq a cnt)) p (h (a + p)%nat) = map h (seq a cnt).
Proof.
  revert p. induction cnt as [|cnt IH]; intros p a Hp H; [lia|].
  destruct p as [|p]; simpl.
  - rewrite Nat.add_0_r. f_equal. apply map_ext_in. intros k Hk.
    apply in_seq in Hk. symmetry. apply H. lia.
  - rewrite (H a) by lia. f_equal.
    replace (a + S p)%nat with (S a + p)%nat by lia.
    apply IH; [lia|]. intros k Hk. apply H. lia.
Qed.

Lemma append_cell_mk f rows w i :
  (i < rows)%nat ->
  append_cell (mk f rows w) (Z.of_nat i) (f i (w i)) = Ok (mk f rows (bump w i)).
Proof.
  intros Hi. unfold append_cell, len. rewrite length_mk.
  rewrite norm_index_nat by lia. rewrite nth_error_mk by assumption.
  cbv beta iota. apply (f_equal Ok). unfold mk.
  rewrite <- (set_nth_map_seq (fun k => map (f k) (seq 0 (w k)))
                (fun k => map (f k) (seq 0 (bump w i k))) i rows 0%nat).
  - simpl. unfold bump. rewrite Nat.eqb_refl, seq_S, map_app. reflexivity.
  - assumption.
  - intros k Hk. unfold bump. simpl in Hk.
    destruct (Nat.eqb_spec k i); [contradiction|reflexivity].
Qed.

Lemma mk_snoc f rows w :
  w rows = 0%nat -> mk f rows w ++ [[]] = mk f (S rows) w.
Proof.
  intros H. unfold mk. rewrite seq_S, map_app. simpl. now rewrite H.
Qed.

(** * The unrestricted builder computes the dynamic program *)

Lemma min2_Int (x y : Z) : min2 (Int x) (Int y) = Int (Z.min x y).
Proof.
  unfold min2, nltb. destruct (Z.ltb_spec y x).
  - now rewrite Z.min_r by lia.
  - now rewrite Z.min_l by lia.
Qed.

Lemma min3_Int (x y z : Z) :
  min3 (Int x) (Int y) (Int z) = Int (Z.min (Z.min x y) z).
Proof. unfold min3. now rewrite !min2_Int. Qed.

Lemma E_spec_0 seq1 seq2 j : E_spec seq1 seq2 0 j = 5 * Z.of_nat j.
Proof. reflexivity. Qed.

Lemma E_spec_col0 seq1 seq2 i : E_spec seq1 seq2 i 0 = 5 * Z.of_nat i.
Proof. destruct i; reflexivity. Qed.

Lemma E_spec_step seq1 seq2 i j :
  E_spec seq1 seq2 (S i) (S j) =
  Z.min (Z.min (diff (char_at seq1 i) (char_at seq2 j) + E_spec seq1 seq2 i j)
               (5 + E_spec seq1 seq2 (S i) j))
        (5 + E_spec seq1 seq2 i (S j)).
Proof. reflexivity. Qed.

Arguments E_spec : simpl never.

Lemma wU_above m i j a : (a < i)%nat -> wU m i j a = S m.
Proof. intros H. unfold wU. destruct (Nat.ltb_spec a i); [reflexivity|lia]. Qed.

Lemma wU_at m i j : wU m i j i = j.
Proof. unfold wU. rewrite Nat.ltb_irrefl, Nat.eqb_refl. reflexivity. Qed.

Lemma wU_below m i j a : (i < a)%nat -> wU m i j a = 1%nat.
Proof.
  intros H. unfold wU. destruct (Nat.ltb_spec a i); [lia|].
  destruct (Nat.eqb_spec a i); [lia|reflexivity].
Qed.

Lemma wU_bump m i j a : bump (wU m i j) i a = wU m i (S j) a.
Proof.
  unfold bump, wU. destruct (Nat.eqb_spec a i).
  - subst. now rewrite Nat.ltb_irrefl.
  - reflexivity.
Qed.

Lemma wU_next_row m i a : wU m i (S m) a = wU m (S i) 1 a.
Proof.
  unfold wU. destruct (Nat.ltb_spec a i), (Nat.ltb_spec a (S i)),
    (Nat.eqb_spec a i), (Nat.eqb_spec a (S i)); try reflexivity; lia.
Qed.

Ltac wU_solve :=
  try lia;
  first [ rewrite wU_at; lia
        | rewrite wU_above by lia; lia
        | rewrite wU_below by lia; lia ].

Section Unrestricted.

Variables seq1 seq2 : str.
Variables n m : nat.

Local Abbreviation E := (E_spec seq1 seq2).
Local Abbreviation T := (P_unrestricted seq1 seq2).

Lemma append_EU w w' i x :
  (i <= n)%nat -> x = Int (E i (w i)) -> (forall a, w' a = bump w i a) ->
  append_cell (EU seq1 seq2 n w) (Z.of_nat i) x = Ok (EU seq1 seq2 n w').
Proof.
  intros Hi -> Hw. unfold EU.
  rewrite (append_cell_mk (fun a b => Int (E_spec seq1 seq2 a b))) by lia.
  f_equal. apply mk_ext. intros a _. now rewrite Hw.
Qed.

Lemma append_PU w w' i x :
  (i <= n)%nat -> x = Int (T i (w i)) -> (forall a, w' a = bump w i a) ->
  append_cell (PU seq1 seq2 n w) (Z.of_nat i) x = Ok (PU seq1 seq2 n w').
Proof.
  intros Hi -> Hw. unfold PU.
  rewrite (append_cell_mk (fun a b => Int (P_unrestricted seq1 seq2 a b))) by lia.
  f_equal. apply mk_ext. intros a _. now rewrite Hw.
Qed.

Lemma get2_EU w i j :
  (i <= n)%nat -> (j < w i)%nat ->
  get2 (EU seq1 seq2 n w) (Z.of_nat i) (Z.of_nat j) = Ok (Int (E i j)).
Proof. intros. unfold EU. now rewrite get2_mk by lia. Qed.

Lemma get2_PU w i j :
  (i <= n)%nat -> (j < w i)%nat ->
  get2 (PU seq1 seq2 n w) (Z.of_nat i) (Z.of_nat j) = Ok (Int (T i j)).
Proof. intros. unfold PU. now rewrite get2_mk by lia. Qed.

Lemma unrestricted_init_closed :
  unrestricted_init (Z.of_nat (S n)) = stU seq1 seq2 n m 0 1.
Proof.
  unfold unrestricted_init, stU, EU, PU.
  rewrite (range_from 0 (Z.of_nat (S n)) (S n)) by lia.
  assert (G : forall k,
    fold_left (fun EP i => (fst EP ++ [[Int (5 * i)]], snd EP ++ [[Int 0]]))
      (map (fun k => 0 + Z.of_nat k) (seq 0 k)) ([], []) =
    (mk (fun a b => Int (E_spec seq1 seq2 a b)) k (fun _ => 1%nat),
     mk (fun a b => Int (P_unrestricted seq1 seq2 a b)) k (fun _ => 1%nat))).
  { induction k as [|k IH]; [reflexivity|].
    rewrite seq_S, map_app, fold_left_app, IH. simpl.
    unfold mk. rewrite !seq_S, !map_app. simpl.
    rewrite E_spec_col0. destruct k; reflexivity. }
  rewrite G. f_equal; apply mk_ext; intros a Ha; unfold wU; simpl;
    destruct a; reflexivity.
Qed.

Lemma unrestricted_row0_step j :
  unrestricted_row0 (Z.of_nat (S j)) (stU seq1 seq2 n m 0 (S j)) =
  Ok (stU seq1 seq2 n m 0 (S (S j))).
Proof.
  unfold unrestricted_row0, stU. cbn [fst snd].
  rewrite append_EU with (w' := wU m 0 (S (S j))) (i := 0%nat); cbn [bind].
  - rewrite append_PU with (w' := wU m 0 (S (S j))) (i := 0%nat); cbn [bind].
    + reflexivity.
    + lia.
    + reflexivity.
    + intros a. now rewrite wU_bump.
  - lia.
  - rewrite wU_at.  now rewrite E_spec_0.
  - intros a. now rewrite wU_bump.
Qed.

Hypothesis Hn : (n <= List.length seq1)%nat.
Hypothesis Hm : (m <= List.length seq2)%nat.

Lemma unrestricted_cell_step i j :
  (i < n)%nat -> (j < m)%nat ->
  unrestricted_cell seq1 seq2 (Z.of_nat (S i)) (Z.of_nat (S j))
    (stU seq1 seq2 n m (S i) (S j)) =
  Ok (stU seq1 seq2 n m (S i) (S (S j))).
Proof.
  intros Hi Hj. unfold unrestricted_cell, stU. cbn [fst snd].
  replace (Z.of_nat (S i) - 1) with (Z.of_nat i) by lia.
  replace (Z.of_nat (S j) - 1) with (Z.of_nat j) by lia.
  rewrite (getitem_nth_default seq1 i Ascii.zero) by lia. cbn [bind].
  rewrite (getitem_nth_default seq2 j Ascii.zero) by lia. cbn [bind].
  rewrite get2_EU by wU_solve. cbn [bind].
  rewrite get2_EU by wU_solve. cbn [bind].
  rewrite get2_EU by wU_solve. cbn [bind].
  cbn [nadd]. rewrite min3_Int. unfold INDEL.
  fold (char_at seq1 i) (char_at seq2 j).  rewrite <- E_spec_step.
  rewrite append_EU with (w' := wU m (S i) (S (S j))) (i := S i); cbn [bind];
    [ | lia | now rewrite wU_at | intros a; now rewrite wU_bump ].
  rewrite get2_EU by wU_solve. cbn [bind nadd neqb].
  assert (HT : T (S i) (S j) =
    if E_spec seq1 seq2 (S i) (S j) =? 5 + E_spec seq1 seq2 (S i) j then 1
    else if E_spec seq1 seq2 (S i) (S j) =? 5 + E_spec seq1 seq2 i (S j) then 2
    else 0) by reflexivity.
  destruct (E_spec seq1 seq2 (S i) (S j) =? 5 + E_spec seq1 seq2 (S i) j).
  - rewrite append_PU with (w' := wU m (S i) (S (S j))) (i := S i); cbn [bind];
      [ reflexivity | lia | now rewrite wU_at, HT
      | intros a; now rewrite wU_bump ].
  - rewrite get2_EU by wU_solve. cbn [bind nadd neqb].
    destruct (E_spec seq1 seq2 (S i) (S j) =? 5 + E_spec seq1 seq2 i (S j)).
    + rewrite append_PU with (w' := wU m (S i) (S (S j))) (i := S i); cbn [bind];
        [ reflexivity | lia | now rewrite wU_at, HT
        | intros a; now rewrite wU_bump ].
    + rewrite append_PU with (w' := wU m (S i) (S (S j))) (i := S i); cbn [bind];
        [ reflexivity | lia | now rewrite wU_at, HT
        | intros a; now rewrite wU_bump ].
Qed.

Lemma stU_next_row i :
  stU seq1 seq2 n m i (S m) = stU seq1 seq2 n m (S i) 1.
Proof.
  unfold stU, EU, PU. f_equal; apply mk_ext; intros a _; apply wU_next_row.
Qed.

Lemma unrestricted_row_closed i :
  (i < n)%nat ->
  for_loop (range 1 (Z.of_nat m + 1))
           (unrestricted_cell seq1 seq2 (1 + Z.of_nat i))
           (stU seq1 seq2 n m i (S m)) =
  Ok (stU seq1 seq2 n m (S i) (S m)).
Proof.
  intros Hi. rewrite stU_next_row.
  rewrite (range_from 1 (Z.of_nat m + 1) m) by lia.
  rewrite (for_loop_trace _ (fun k => stU seq1 seq2 n m (S i) (S k))
             (fun k => 1 + Z.of_nat k) m 0).
  - reflexivity.
  - intros k Hk.
    replace (1 + Z.of_nat i) with (Z.of_nat (S i)) by lia.
    replace (1 + Z.of_nat k) with (Z.of_nat (S k)) by lia.
    apply unrestricted_cell_step; lia.
Qed.

Lemma unrestricted_loops_closed :
  (EP <- for_loop (range 1 (Z.of_nat m + 1)) unrestricted_row0
           (unrestricted_init (Z.of_nat n + 1)) ;;
   for_loop (range 1 (Z.of_nat n + 1))
     (fun i => for_loop (range 1 (Z.of_nat m + 1))
                 (unrestricted_cell seq1 seq2 i)) EP) = Ok (fullU seq1 seq2 n m).
Proof.
  replace (Z.of_nat n + 1) with (Z.of_nat (S n)) by lia.
  rewrite unrestricted_init_closed.
  rewrite (range_from 1 (Z.of_nat m + 1) m) by lia.
  rewrite (for_loop_trace _ (fun k => stU seq1 seq2 n m 0 (S k))
             (fun k => 1 + Z.of_nat k) m 0).
  2:{ intros k Hk. replace (1 + Z.of_nat k) with (Z.of_nat (S k)) by lia.
      apply unrestricted_row0_step. }
  cbn [bind]. simpl (0 + m)%nat.
  rewrite (range_from 1 (Z.of_nat (S n)) n) by lia.
  rewrite (for_loop_trace _ (fun k => stU seq1 seq2 n m k (S m))
             (fun k => 1 + Z.of_nat k) n 0).
  - reflexivity.
  - intros k Hk.
    rewrite <- (range_from 1 (Z.of_nat m + 1) m) by lia.
    apply unrestricted_row_closed. lia.
Qed.

End Unrestricted.

(** * The dynamic program is the minimum over all alignments *)

Lemma top_app al1 al2 : top (al1 ++ al2) = top al1 ++ top al2.
Proof. unfold top. apply flat_map_app. Qed.

Lemma bottom_app al1 al2 : bottom (al1 ++ al2) = bottom al1 ++ bottom al2.
Proof. unfold bottom. apply flat_map_app. Qed.

Lemma alignment_cost_app al1 al2 :
  alignment_cost (al1 ++ al2) = alignment_cost al1 + alignment_cost al2.
Proof.
  unfold alignment_cost. induction al1 as [|c al1 IH]; simpl; [reflexivity|].
  rewrite IH. lia.
Qed.

Lemma firstn_S_snoc (l : str) (i : nat) :
  (i < List.length l)%nat -> firstn (S i) l = firstn i l ++ [char_at l i].
Proof.
  revert i. induction l as [|a l IH]; intros i H; simpl in H; [lia|].
  destruct i as [|i]; [reflexivity|].
  change (firstn (S (S i)) (a :: l)) with (a :: firstn (S i) l).
  rewrite IH by lia. reflexivity.
Qed.

Lemma char_at_firstn (l : str) n i :
  (i < n)%nat -> char_at (firstn n l) i = char_at l i.
Proof.
  intros H. unfold char_at. rewrite nth_firstn.
  destruct (Nat.ltb_spec i n); [reflexivity|lia].
Qed.

Lemma getitem_firstn (l : str) n i :
  (i < n)%nat -> (n <= List.length l)%nat ->
  getitem (firstn n l) (Z.of_nat i) = getitem l (Z.of_nat i).
Proof.
  intros Hi Hn.
  rewrite (getitem_nth_default (firstn n l) i Ascii.zero)
    by (rewrite length_firstn; lia).
  rewrite (getitem_nth_default l i Ascii.zero) by lia.
  fold (char_at (firstn n l) i). now rewrite char_at_firstn.
Qed.

Lemma snoc_firstn_inv (l pre : str) (a : ascii) (i : nat) :
  (i <= List.length l)%nat -> pre ++ [a] = firstn i l ->
  exists i', i = S i' /\ pre = firstn i' l /\ a = char_at l i'.
Proof.
  intros Hi H. destruct i as [|i'].
  - simpl in H. destruct pre; discriminate.
  - exists i'. rewrite firstn_S_snoc in H by lia.
    apply app_inj_tail in H. destruct H. auto.
Qed.

Section Optimal.

Variables seq1 seq2 : str.
Local Abbreviation E := (E_spec seq1 seq2).

Lemma E_spec_le_diag i j :
  E (S i) (S j) <= diff (char_at seq1 i) (char_at seq2 j) + E i j.
Proof. rewrite E_spec_step. lia. Qed.

Lemma E_spec_le_left i j : E i (S j) <= 5 + E i j.
Proof.
  destruct i as [|i].
  - rewrite !E_spec_0. lia.
  - rewrite E_spec_step. lia.
Qed.

Lemma E_spec_le_up i j : E (S i) j <= 5 + E i j.
Proof.
  destruct j as [|j].
  - rewrite !E_spec_col0. lia.
  - rewrite E_spec_step. lia.
Qed.

Lemma E_spec_lower_bound al : forall i j,
  (i <= List.length seq1)%nat -> (j <= List.length seq2)%nat ->
  top al = firstn i seq1 -> bottom al = firstn j seq2 ->
  E i j <= alignment_cost al.
Proof.
  induction al as [|c al IH] using rev_ind; intros i j Hi Hj Ht Hb.
  - destruct i; [|simpl in Ht; destruct seq1; [simpl in Hi; lia|discriminate]].
    destruct j; [|simpl in Hb; destruct seq2; [simpl in Hj; lia|discriminate]].
    rewrite E_spec_0. simpl. lia.
  - rewrite top_app in Ht. rewrite bottom_app in Hb.
    rewrite alignment_cost_app.
    destruct c as [a b|a|b]; simpl in Ht, Hb; simpl alignment_cost;
      rewrite ?app_nil_r in *.
    + apply snoc_firstn_inv in Ht; [|assumption].
      apply snoc_firstn_inv in Hb; [|assumption].
      destruct Ht as (i' & -> & Ht & ->). destruct Hb as (j' & -> & Hb & ->).
      specialize (IH i' j' ltac:(lia) ltac:(lia) Ht Hb).
      pose proof (E_spec_le_diag i' j'). lia.
    + apply snoc_firstn_inv in Ht; [|assumption].
      destruct Ht as (i' & -> & Ht & ->).
      specialize (IH i' j ltac:(lia) ltac:(lia) Ht Hb).
      pose proof (E_spec_le_up i' j). unfold INDEL. lia.
    + apply snoc_firstn_inv in Hb; [|assumption].
      destruct Hb as (j' & -> & Hb & ->).
      specialize (IH i j' ltac:(lia) ltac:(lia) Ht Hb).
      pose proof (E_spec_le_left i j'). unfold INDEL. lia.
Qed.

Lemma E_spec_attained : forall i j,
  (i <= List.length seq1)%nat -> (j <= List.length seq2)%nat ->
  exists al, top al = firstn i seq1 /\ bottom al = firstn j seq2 /\
             alignment_cost al = E i j.
Proof.
  assert (Hdel : forall i j al, (i < List.length seq1)%nat ->
            top al = firstn i seq1 -> bottom al = firstn j seq2 ->
            top (al ++ [Del (char_at seq1 i)]) = firstn (S i) seq1 /\
            bottom (al ++ [Del (char_at seq1 i)]) = firstn j seq2 /\
            alignment_cost (al ++ [Del (char_at seq1 i)]) = alignment_cost al + 5).
  { intros i j al Hi Ht Hb.
    rewrite top_app, bottom_app, alignment_cost_app, Ht, Hb, firstn_S_snoc by lia.
    simpl. rewrite app_nil_r. unfold INDEL. repeat split; lia. }
  assert (Hins : forall i j al, (j < List.length seq2)%nat ->
            top al = firstn i seq1 -> bottom al = firstn j seq2 ->
            top (al ++ [Ins (char_at seq2 j)]) = firstn i seq1 /\
            bottom (al ++ [Ins (char_at seq2 j)]) = firstn (S j) seq2 /\
            alignment_cost (al ++ [Ins (char_at seq2 j)]) = alignment_cost al + 5).
  { intros i j al Hj Ht Hb.
    rewrite top_app, bottom_app, alignment_cost_app, Ht, Hb, firstn_S_snoc by lia.
    simpl. rewrite app_nil_r. unfold INDEL. repeat split; lia. }
  assert (Hpair : forall i j al, (i < List.length seq1)%nat ->
            (j < List.length seq2)%nat ->
            top al = firstn i seq1 -> bottom al = firstn j seq2 ->
            top (al ++ [Pair (char_at seq1 i) (char_at seq2 j)]) = firstn (S i) seq1 /\
            bottom (al ++ [Pair (char_at seq1 i) (char_at seq2 j)]) = firstn (S j) seq2 /\
            alignment_cost (al ++ [Pair (char_at seq1 i) (char_at seq2 j)]) =
              alignment_cost al + diff (char_at seq1 i) (char_at seq2 j)).
  { intros i j al Hi Hj Ht Hb.
    rewrite top_app, bottom_app, alignment_cost_app, Ht, Hb.
    rewrite !firstn_S_snoc by lia. simpl. repeat split; lia. }
  induction i as [|i IHi].
  - induction j as [|j IHj]; intros Hi Hj.
    + exists []. rewrite E_spec_0. repeat split.
    + destruct IHj as (al & Ht & Hb & Hc); [lia|lia|].
      exists (al ++ [Ins (char_at seq2 j)]).
      destruct (Hins 0%nat j al ltac:(lia) Ht Hb) as (H1 & H2 & H3).
      repeat split; try assumption. rewrite H3, Hc, !E_spec_0. lia.
  - induction j as [|j IHj]; intros Hi Hj.
    + destruct (IHi 0%nat) as (al & Ht & Hb & Hc); [lia|lia|].
      exists (al ++ [Del (char_at seq1 i)]).
      destruct (Hdel i 0%nat al ltac:(lia) Ht Hb) as (H1 & H2 & H3).
      repeat split; try assumption. rewrite H3, Hc, !E_spec_col0. lia.
    + rewrite E_spec_step.
      destruct (Z.min_spec (diff (char_at seq1 i) (char_at seq2 j) + E i j)
                           (5 + E (S i) j)) as [[_ M1]|[_ M1]];
      destruct (Z.min_spec (Z.min (diff (char_at seq1 i) (char_at seq2 j) + E i j)
                                  (5 + E (S i) j))
                           (5 + E i (S j))) as [[_ M2]|[_ M2]];
      rewrite M2; rewrite ?M1.
      * destruct (IHi j) as (al & Ht & Hb & Hc); [lia|lia|].
        exists (al ++ [Pair (char_at seq1 i) (char_at seq2 j)]).
        destruct (Hpair i j al ltac:(lia) ltac:(lia) Ht Hb) as (H1 & H2 & H3).
        repeat split; try assumption. lia.
      * destruct (IHi (S j)) as (al & Ht & Hb & Hc); [lia|lia|].
        exists (al ++ [Del (char_at seq1 i)]).
        destruct (Hdel i (S j) al ltac:(lia) Ht Hb) as (H1 & H2 & H3).
        repeat split; try assumption. lia.
      * destruct IHj as (al & Ht & Hb & Hc); [lia|lia|].
        exists (al ++ [Ins (char_at seq2 j)]).
        destruct (Hins (S i) j al ltac:(lia) Ht Hb) as (H1 & H2 & H3).
        repeat split; try assumption. lia.
      * destruct (IHi (S j)) as (al & Ht & Hb & Hc); [lia|lia|].
        exists (al ++ [Del (char_at seq1 i)]).
        destruct (Hdel i (S j) al ltac:(lia) Ht Hb) as (H1 & H2 & H3).
        repeat split; try assumption. lia.
Qed.

Lemma E_spec_minimum i j :
  (i <= List.length seq1)%nat -> (j <= List.length seq2)%nat ->
  minimum_cost (firstn i seq1) (firstn j seq2) (E i j).
Proof.
  intros Hi Hj. split.
  - intros al [Ht Hb]. now apply E_spec_lower_bound.
  - destruct (E_spec_attained i j Hi Hj) as (al & Ht & Hb & Hc).
    exists al. repeat split; assumption.
Qed.

End Optimal.

(** * The banded builder, cell by cell *)

Lemma E_banded_0 seq1 seq2 j :
  E_banded seq1 seq2 0 j =
  if in_band seq2 0 j then Int (5 * (Z.of_nat j - MAXINDELS)) else Inf.
Proof. reflexivity. Qed.

Lemma E_banded_S0 seq1 seq2 i :
  E_banded seq1 seq2 (S i) 0 =
  if in_band seq2 (S i) 0 then
    min2 (nadd (Int (band_diff seq1 seq2 i 0)) (E_banded seq1 seq2 i 0))
         (nadd (Int INDEL) (E_banded seq1 seq2 i 1))
  else Inf.
Proof. reflexivity. Qed.

Lemma E_banded_SS seq1 seq2 i j :
  E_banded seq1 seq2 (S i) (S j) =
  if in_band seq2 (S i) (S j) then
    if Nat.eqb (S j) 6 then
      min2 (nadd (Int (band_diff seq1 seq2 i (S j))) (E_banded seq1 seq2 i (S j)))
           (nadd (Int INDEL) (E_banded seq1 seq2 (S i) j))
    else
      min3 (nadd (Int (band_diff seq1 seq2 i (S j))) (E_banded seq1 seq2 i (S j)))
           (nadd (Int INDEL) (E_banded seq1 seq2 (S i) j))
           (nadd (Int INDEL) (E_banded seq1 seq2 i (S (S j))))
  else Inf.
Proof. reflexivity. Qed.

Arguments E_banded : simpl never.

Lemma wB_above i j a : (a < i)%nat -> wB i j a = 7%nat.
Proof. intros H. unfold wB. destruct (Nat.ltb_spec a i); [reflexivity|lia]. Qed.

Lemma wB_at i j : wB i j i = j.
Proof. unfold wB. now rewrite Nat.ltb_irrefl. Qed.

Lemma wB_bump i j a : (a <= i)%nat -> bump (wB i j) i a = wB i (S j) a.
Proof.
  intros H. unfold bump, wB. destruct (Nat.eqb_spec a i).
  - subst. now rewrite Nat.ltb_irrefl.
  - destruct (Nat.ltb_spec a i); [reflexivity|lia].
Qed.

Lemma getitem_item_or {A : Type} (d : A) (l : list A) (k : Z) :
  - len l <= k < len l -> getitem l k = Ok (item_or d l k).
Proof.
  intros H. destruct (getitem_defined l k H) as [x Hx].
  unfold item_or. now rewrite Hx.
Qed.

Ltac wB_solve :=
  try lia;
  first [ rewrite wB_at; lia | rewrite wB_above by lia; lia ].

Ltac zeqb_true x y :=
  replace (x =? y) with true by (symmetry; apply Z.eqb_eq; lia).
Ltac zeqb_false x y :=
  replace (x =? y) with false by (symmetry; apply Z.eqb_neq; lia).

Section Banded.

Variables seq1 seq2 : str.

Local Abbreviation BE := (E_banded seq1 seq2).
Local Abbreviation BT := (P_banded seq1 seq2).

Lemma in_band_iff i j :
  in_band seq2 i j = true <->
  0 <= Z.of_nat i + Z.of_nat j - 3 <= len seq2.
Proof.
  unfold in_band, MAXINDELS. rewrite andb_true_iff, !Z.geb_le. lia.
Qed.

Lemma append_EB rows w w' i x :
  (i < rows)%nat -> x = BE i (w i) ->
  (forall a, (a < rows)%nat -> w' a = bump w i a) ->
  append_cell (EB seq1 seq2 rows w) (Z.of_nat i) x = Ok (EB seq1 seq2 rows w').
Proof.
  intros Hi -> Hw. unfold EB. rewrite append_cell_mk by lia.
  f_equal. apply mk_ext. intros a Ha. now rewrite Hw.
Qed.

Lemma append_PB rows w w' i x :
  (i < rows)%nat -> x = BT i (w i) ->
  (forall a, (a < rows)%nat -> w' a = bump w i a) ->
  append_cell (PB seq1 seq2 rows w) (Z.of_nat i) x = Ok (PB seq1 seq2 rows w').
Proof.
  intros Hi -> Hw. unfold PB. rewrite append_cell_mk by lia.
  f_equal. apply mk_ext. intros a Ha. now rewrite Hw.
Qed.

Lemma get2_EB rows w i j :
  (i < rows)%nat -> (j < w i)%nat ->
  get2 (EB seq1 seq2 rows w) (Z.of_nat i) (Z.of_nat j) = Ok (BE i j).
Proof. intros. unfold EB. now rewrite get2_mk by lia. Qed.

Lemma get2_PB rows w i j :
  (i < rows)%nat -> (j < w i)%nat ->
  get2 (PB seq1 seq2 rows w) (Z.of_nat i) (Z.of_nat j) = Ok (BT i j).
Proof. intros. unfold PB. now rewrite get2_mk by lia. Qed.

Lemma append_stB i j e t :
  e = BE i j -> t = BT i j ->
  (E' <- append_cell (EB seq1 seq2 (S i) (wB i j)) (Z.of_nat i) e ;;
   P' <- append_cell (PB seq1 seq2 (S i) (wB i j)) (Z.of_nat i) t ;;
   Ok (E', P')) = Ok (stB seq1 seq2 i (S j)).
Proof.
  intros -> ->.
  rewrite append_EB with (w' := wB i (S j)); cbn [bind];
    [ | lia | now rewrite wB_at | intros a Ha; rewrite wB_bump; [reflexivity|lia] ].
  rewrite append_PB with (w' := wB i (S j)); cbn [bind];
    [ reflexivity | lia | now rewrite wB_at
    | intros a Ha; rewrite wB_bump; [reflexivity|lia] ].
Qed.

Lemma append_stB' i j e t :
  e = BE i j -> t = BT i j ->
  (eP <- (P' <- append_cell (PB seq1 seq2 (S i) (wB i j)) (Z.of_nat i) t ;;
          Ok (e, P')) ;;
   E' <- append_cell (EB seq1 seq2 (S i) (wB i j)) (Z.of_nat i) (fst eP) ;;
   Ok (E', snd eP)) = Ok (stB seq1 seq2 i (S j)).
Proof.
  intros -> ->.
  rewrite append_PB with (w' := wB i (S j)); cbn [bind fst snd];
    [ | lia | now rewrite wB_at | intros a Ha; rewrite wB_bump; [reflexivity|lia] ].
  rewrite append_EB with (w' := wB i (S j)); cbn [bind];
    [ reflexivity | lia | now rewrite wB_at
    | intros a Ha; rewrite wB_bump; [reflexivity|lia] ].
Qed.

Hypothesis Hne : (0 < List.length seq2)%nat.

Lemma banded_cell_step i j :
  (i <= List.length seq1)%nat -> (j < 7)%nat ->
  banded_cell seq1 seq2 7 (Z.of_nat i) (Z.of_nat j) (stB seq1 seq2 i j) =
  Ok (stB seq1 seq2 i (S j)).
Proof.
  intros Hi Hj. unfold banded_cell, stB. cbn [fst snd].
  change ((len seq2 >=? Z.of_nat i + Z.of_nat j - MAXINDELS)
          && (Z.of_nat i + Z.of_nat j - MAXINDELS >=? 0))
    with (in_band seq2 i j).
  destruct (in_band seq2 i j) eqn:V.
  - destruct i as [|i'].
    + change (Z.of_nat 0 =? 0) with true. cbv iota.
      apply append_stB.
      * now rewrite E_banded_0, V.
      * unfold P_banded. now rewrite V.
    + zeqb_false (Z.of_nat (S i')) 0.
      pose proof (proj1 (in_band_iff (S i') j) V) as Vr. unfold len in Vr.
      replace (Z.of_nat (S i') - 1) with (Z.of_nat i') by lia.
      rewrite (getitem_nth_default seq1 i' Ascii.zero) by lia.
      rewrite (getitem_item_or Ascii.zero seq2) by (unfold len, MAXINDELS; lia).
      cbn [bind]. fold (char_at seq1 i'). fold (band_diff seq1 seq2 i' j).
      destruct j as [|j'].
      * zeqb_false (Z.of_nat 0) (7 - 1). change (Z.of_nat 0 =? 0) with true.
        cbv iota. change (Z.of_nat 0 + 1) with (Z.of_nat 1).
        rewrite !get2_EB by wB_solve. cbn [bind].
        pose proof (E_banded_S0 seq1 seq2 i') as HE. rewrite V in HE.
        rewrite <- HE.
        assert (HT : BT (S i') 0 =
          if neqb (BE (S i') 0) (nadd (Int INDEL) (BE i' 1)) then Int 2 else Int 0).
        { unfold P_banded. now rewrite V. }
        destruct (neqb (BE (S i') 0) (nadd (Int INDEL) (BE i' 1)));
          apply append_stB'; auto.
      * replace (Z.of_nat (S j') - 1) with (Z.of_nat j') by lia.
        replace (Z.of_nat (S j') + 1) with (Z.of_nat (S (S j'))) by lia.
        pose proof (E_banded_SS seq1 seq2 i' j') as HE. rewrite V in HE.
        assert (HT : BT (S i') (S j') =
          if Nat.eqb (S j') 6 then
            if neqb (BE (S i') (S j')) (nadd (Int INDEL) (BE (S i') j'))
            then Int 1 else Int 0
          else
            if neqb (BE (S i') (S j')) (nadd (Int INDEL) (BE (S i') j'))
            then Int 1
            else if neqb (BE (S i') (S j')) (nadd (Int INDEL) (BE i' (S (S j'))))
            then Int 2 else Int 0).
        { unfold P_banded. now rewrite V. }
        destruct (Nat.eqb_spec (S j') 6) as [J|J].
        -- zeqb_true (Z.of_nat (S j')) (7 - 1).
           rewrite !get2_EB by wB_solve. cbn [bind]. rewrite <- HE.
           destruct (neqb (BE (S i') (S j')) (nadd (Int INDEL) (BE (S i') j')));
             apply append_stB'; auto.
        -- zeqb_false (Z.of_nat (S j')) (7 - 1).
           zeqb_false (Z.of_nat (S j')) 0.
           rewrite !get2_EB by wB_solve. cbn [bind]. rewrite <- HE.
           destruct (neqb (BE (S i') (S j')) (nadd (Int INDEL) (BE (S i') j'))).
           ++ apply append_stB'; auto.
           ++ cbn [bind].
              destruct (neqb (BE (S i') (S j'))
                             (nadd (Int INDEL) (BE i' (S (S j')))));
                apply append_stB'; auto.
  - apply append_stB.
    + destruct i as [|i']; [now rewrite E_banded_0, V|].
      destruct j as [|j']; [now rewrite E_banded_S0, V|now rewrite E_banded_SS, V].
    + unfold P_banded. now rewrite V.
Qed.

Lemma banded_row_closed i :
  (i <= List.length seq1)%nat ->
  banded_row seq1 seq2 7 (Z.of_nat i) (fullB seq1 seq2 i) =
  Ok (fullB seq1 seq2 (S i)).
Proof.
  intros Hi. unfold banded_row, fullB. cbn [fst snd].
  assert (G : forall f, mk f i (fun _ => 7%nat) ++ [[]] = mk f (S i) (wB i 0)).
  { intros f. rewrite <- mk_snoc by apply wB_at. f_equal.
    apply mk_ext. intros a Ha. now rewrite wB_above. }
  unfold EB, PB. rewrite !G. fold (EB seq1 seq2 (S i) (wB i 0)).
  fold (PB seq1 seq2 (S i) (wB i 0)). fold (stB seq1 seq2 i 0).
  rewrite (range_from 0 7 7) by reflexivity.
  rewrite (for_loop_trace _ (fun k => stB seq1 seq2 i k)
             (fun k => 0 + Z.of_nat k) 7 0).
  - f_equal. unfold stB. f_equal; apply mk_ext; intros a Ha; unfold wB;
      destruct (Nat.ltb_spec a i); reflexivity.
  - intros k Hk. apply banded_cell_step; lia.
Qed.

Lemma banded_tables_closed :
  banded_tables seq1 seq2 = Ok (fullB seq1 seq2 (S (List.length seq1))).
Proof.
  unfold banded_tables.
  change (2 * MAXINDELS + 1) with 7.
  rewrite (range_from 0 (len seq1 + 1) (S (List.length seq1)))
    by (unfold len; lia).
  rewrite (for_loop_trace _ (fullB seq1 seq2) (fun k => 0 + Z.of_nat k)
             (S (List.length seq1)) 0).
  - reflexivity.
  - intros k Hk. apply banded_row_closed. lia.
Qed.

(** *** Cells inside the band are finite, cells outside are [math.inf] *)

Lemma E_banded_outside i j : in_band seq2 i j = false -> BE i j = Inf.
Proof.
  clear Hne. intros V. destruct i as [|i]; [now rewrite E_banded_0, V|].
  destruct j as [|j]; [now rewrite E_banded_S0, V|now rewrite E_banded_SS, V].
Qed.

Lemma min2_finite_l x b : exists z, min2 (Int x) b = Int z.
Proof.
  destruct b as [y|]; [rewrite min2_Int; eauto|exists x; reflexivity].
Qed.

Lemma min2_finite_r a y : exists z, min2 a (Int y) = Int z.
Proof.
  destruct a as [x|]; [rewrite min2_Int; eauto|exists y; reflexivity].
Qed.

Lemma E_banded_inside : forall i j,
  (j < 7)%nat -> in_band seq2 i j = true -> exists z, BE i j = Int z.
Proof.
  clear Hne. induction i as [|i IH]; intros j Hj V.
  - rewrite E_banded_0, V. eauto.
  - pose proof (proj1 (in_band_iff (S i) j) V) as Vr.
    destruct j as [|j].
    + rewrite E_banded_S0, V.
      destruct (IH 1%nat) as [u Hu]; [lia|apply in_band_iff; lia|].
      rewrite Hu. cbn [nadd]. apply min2_finite_r.
    + rewrite E_banded_SS, V.
      destruct (Nat.eqb_spec (S j) 6) as [J|J].
      * destruct (IH (S j)) as [d Hd]; [lia|apply in_band_iff; lia|].
        rewrite Hd. cbn [nadd]. apply min2_finite_l.
      * destruct (IH (S (S j))) as [u Hu]; [lia|apply in_band_iff; lia|].
        rewrite Hu. cbn [nadd]. unfold min3. apply min2_finite_r.
Qed.

Lemma P_banded_outside i j : in_band seq2 i j = false -> BT i j = Inf.
Proof. intros V. unfold P_banded. now rewrite V. Qed.

(** *** What a back-pointer inside the band points to *)

Lemma in_band_of_finite i j z : BE i j = Int z -> in_band seq2 i j = true.
Proof.
  clear Hne. intros H. destruct (in_band seq2 i j) eqn:V; [reflexivity|].
  rewrite E_banded_outside in H by assumption. discriminate.
Qed.

Lemma neqb_Int_true z x : neqb (Int z) x = true -> x = Int z.
Proof.
  destruct x as [y|]; simpl; [|discriminate].
  intros H. apply Z.eqb_eq in H. now subst.
Qed.

Lemma nadd_Int_inv a b z : nadd a b = Int z -> exists y, b = Int y.
Proof. destruct a, b; simpl; intros H; try discriminate. eauto. Qed.

Lemma neqb_refl x : neqb x x = true.
Proof. destruct x; simpl; [apply Z.eqb_refl|reflexivity]. Qed.

Lemma min2_pick a b z :
  min2 a b = Int z -> neqb (Int z) b = false -> a = Int z.
Proof.
  unfold min2. destruct (nltb b a); intros H Hb; [|assumption].
  subst b. now rewrite neqb_refl in Hb.
Qed.

Lemma min3_pick a b c z :
  min3 a b c = Int z -> neqb (Int z) b = false -> neqb (Int z) c = false ->
  a = Int z.
Proof.
  unfold min3. intros H Hb Hc.
  apply min2_pick with (b := b); [|assumption].
  now apply min2_pick with (b := c).
Qed.

Lemma P_banded_tag i j :
  (j < 7)%nat -> in_band seq2 (S i) j = true ->
  (BT (S i) j = Int 1 /\ exists j', j = S j' /\ in_band seq2 (S i) j' = true) \/
  (BT (S i) j = Int 2 /\ (j < 6)%nat /\ in_band seq2 i (S j) = true) \/
  (BT (S i) j = Int 0 /\ in_band seq2 i j = true).
Proof.
  clear Hne. intros Hj V. destruct (E_banded_inside (S i) j Hj V) as [z Hz].
  unfold P_banded. rewrite V. cbv zeta. rewrite Hz.
  destruct j as [|j].
  - rewrite E_banded_S0, V in Hz.
    destruct (neqb (Int z) (nadd (Int INDEL) (BE i 1))) eqn:C.
    + right; left. apply neqb_Int_true in C. apply nadd_Int_inv in C.
      destruct C as [y Hy]. repeat split; [lia|]. eapply in_band_of_finite; eauto.
    + right; right. apply min2_pick in Hz; [|assumption].
      apply nadd_Int_inv in Hz. destruct Hz as [y Hy].
      split; [reflexivity|]. eapply in_band_of_finite; eauto.
  - rewrite E_banded_SS, V in Hz.
    destruct (Nat.eqb (S j) 6) eqn:J.
    + destruct (neqb (Int z) (nadd (Int INDEL) (BE (S i) j))) eqn:C.
      * left. apply neqb_Int_true in C. apply nadd_Int_inv in C.
        destruct C as [y Hy]. split; [reflexivity|]. exists j.
        split; [reflexivity|]. eapply in_band_of_finite; eauto.
      * right; right. apply min2_pick in Hz; [|assumption].
        apply nadd_Int_inv in Hz. destruct Hz as [y Hy].
        split; [reflexivity|]. eapply in_band_of_finite; eauto.
    + apply Nat.eqb_neq in J.
      destruct (neqb (Int z) (nadd (Int INDEL) (BE (S i) j))) eqn:C.
      * left. apply neqb_Int_true in C. apply nadd_Int_inv in C.
        destruct C as [y Hy]. split; [reflexivity|]. exists j.
        split; [reflexivity|]. eapply in_band_of_finite; eauto.
      * destruct (neqb (Int z) (nadd (Int INDEL) (BE i (S (S j))))) eqn:C2.
        -- right; left. apply neqb_Int_true in C2. apply nadd_Int_inv in C2.
           destruct C2 as [y Hy]. repeat split; [lia|].
           eapply in_band_of_finite; eauto.
        -- right; right. apply min3_pick in Hz; [|assumption|assumption].
           apply nadd_Int_inv in Hz. destruct Hz as [y Hy].
           split; [reflexivity|]. eapply in_band_of_finite; eauto.
Qed.

Lemma P_banded_row0 j : in_band seq2 0 j = true -> BT 0 j = Int 1.
Proof. intros V. unfold P_banded. now rewrite V. Qed.

Lemma P_banded_inside i j :
  (j < 7)%nat -> in_band seq2 i j = true -> exists t, BT i j = Int t.
Proof.
  clear Hne. intros Hj V. destruct i as [|i].
  - exists 1. now apply P_banded_row0.
  - destruct (P_banded_tag i j Hj V) as [(Tg & _)|[(Tg & _)|(Tg & _)]];
      rewrite Tg; eauto.
Qed.

End Banded.

(** * The banded traceback *)

Lemma row1_snoc al c a1 :
  row1 (al ++ [c]) ++ a1 =
  row1 al ++ (match c with Pair a _ => a | Del a => a | Ins _ => gap end) :: a1.
Proof. unfold row1. rewrite map_app, <- app_assoc. reflexivity. Qed.

Lemma row2_snoc al c a2 :
  row2 (al ++ [c]) ++ a2 =
  row2 al ++ (match c with Pair _ b => b | Del _ => gap | Ins b => b end) :: a2.
Proof. unfold row2. rewrite map_app, <- app_assoc. reflexivity. Qed.

Lemma top_snoc_Pair al a b : top (al ++ [Pair a b]) = top al ++ [a].
Proof. now rewrite top_app. Qed.

Lemma top_snoc_Del al a : top (al ++ [Del a]) = top al ++ [a].
Proof. now rewrite top_app. Qed.

Lemma top_snoc_Ins al b : top (al ++ [Ins b]) = top al.
Proof. rewrite top_app. apply app_nil_r. Qed.

Lemma bottom_snoc_Pair al a b : bottom (al ++ [Pair a b]) = bottom al ++ [b].
Proof. now rewrite bottom_app. Qed.

Lemma bottom_snoc_Del al a : bottom (al ++ [Del a]) = bottom al.
Proof. rewrite bottom_app. apply app_nil_r. Qed.

Lemma bottom_snoc_Ins al b : bottom (al ++ [Ins b]) = bottom al ++ [b].
Proof. now rewrite bottom_app. Qed.

Lemma alignedBanded_loop_eq fuel seq1 seq2 P i j a1 a2 :
  alignedBanded_loop fuel seq1 seq2 P i j a1 a2 =
  if negb ((i =? 0) && (j =? MAXINDELS)) then
    match fuel with
    | O => OutOfFuel
    | S fuel' =>
        t <- get2 P i j ;;
        if neqb t (Int 2) then
          a <- getitem seq1 (i - 1) ;;
          alignedBanded_loop fuel' seq1 seq2 P (i - 1) (j + 1)
            (a :: a1) (gap :: a2)
        else
          t' <- get2 P i j ;;
          if neqb t' (Int 0) then
            a <- getitem seq1 (i - 1) ;;
            b <- getitem seq2 (i + j - MAXINDELS - 1) ;;
            alignedBanded_loop fuel' seq1 seq2 P (i - 1) j (a :: a1) (b :: a2)
          else
            b <- getitem seq2 (i + j - MAXINDELS - 1) ;;
            alignedBanded_loop fuel' seq1 seq2 P i (j - 1) (gap :: a1) (b :: a2)
    end
  else Ok (a1, a2).
Proof. destruct fuel; reflexivity. Qed.

Section BandOfPrefix.

Variable seq2 : str.
Variable m : nat.
Hypothesis Hm : (m <= List.length seq2)%nat.

Lemma len_firstn_le : len (firstn m seq2) = Z.of_nat m.
Proof. unfold len. rewrite length_firstn. lia. Qed.

Lemma in_band_y i j :
  in_band (firstn m seq2) i j = true <->
  0 <= Z.of_nat i + Z.of_nat j - 3 <= Z.of_nat m.
Proof. rewrite in_band_iff, len_firstn_le. tauto. Qed.

End BandOfPrefix.

Section TracebackBanded.

Variables seq1 seq2 : str.
Variables n m : nat.
Hypothesis Hn : (n <= List.length seq1)%nat.
Hypothesis Hm : (m <= List.length seq2)%nat.
Hypothesis Hm0 : (0 < m)%nat.

Local Abbreviation x := (firstn n seq1).
Local Abbreviation y := (firstn m seq2).
Local Abbreviation P := (PB x y (S n) (fun _ => 7%nat)).

Lemma alignedBanded_loop_correct : forall fuel i j a1 a2,
  (i <= n)%nat -> (j < 7)%nat -> in_band y i j = true ->
  (2 * i + j <= fuel + 3)%nat ->
  exists al,
    alignedBanded_loop fuel seq1 seq2 P (Z.of_nat i) (Z.of_nat j) a1 a2 =
      Ok (row1 al ++ a1, row2 al ++ a2) /\
    top al = firstn i seq1 /\
    bottom al = firstn (i + j - 3) seq2.
Proof.
  induction fuel as [|fuel IH]; intros i j a1 a2 Hi Hj V Hf;
    pose proof (proj1 (in_band_y seq2 m Hm i j) V) as Vr;
    rewrite alignedBanded_loop_eq; unfold MAXINDELS.
  - assert (i = 0%nat) by lia. assert (j = 3%nat) by lia. subst.
    exists []. repeat split.
  - destruct (Nat.eq_dec i 0) as [I0|I0];
      [destruct (Nat.eq_dec j 3) as [J3|J3]|].
    + subst. exists []. repeat split.
    + subst i. zeqb_false (Z.of_nat j) 3. cbn [andb negb].
      change (Z.of_nat 0 =? 0) with true. cbn [andb negb].
      rewrite get2_PB by lia. cbn [bind].
      rewrite (P_banded_row0 x y j V). cbn [neqb Z.eqb].
      destruct j as [|j']; [lia|].
      replace (Z.of_nat 0 + Z.of_nat (S j') - 3 - 1)
        with (Z.of_nat (j' - 3)) by lia.
      rewrite (getitem_nth_default seq2 (j' - 3) Ascii.zero) by lia.
      cbn [bind]. fold (char_at seq2 (j' - 3)).
      replace (Z.of_nat (S j') - 1) with (Z.of_nat j') by lia.
      destruct (IH 0%nat j' (gap :: a1) (char_at seq2 (j' - 3) :: a2))
        as (al & Hal & Ht & Hb); [lia|lia|apply (in_band_y seq2 m Hm); lia|lia|].
      exists (al ++ [Ins (char_at seq2 (j' - 3))]).
      rewrite row1_snoc, row2_snoc, top_snoc_Ins, bottom_snoc_Ins.
      split; [exact Hal|]. split; [exact Ht|].
      rewrite Hb. replace (0 + S j' - 3)%nat with (S (j' - 3)) by lia.
      replace (0 + j' - 3)%nat with (j' - 3)%nat by lia.
      rewrite firstn_S_snoc by lia. reflexivity.
    + destruct i as [|i']; [contradiction|].
      zeqb_false (Z.of_nat (S i')) 0. cbn [andb negb].
      rewrite get2_PB by lia. cbn [bind].
      replace (Z.of_nat (S i') - 1) with (Z.of_nat i') by lia.
      rewrite (getitem_nth_default seq1 i' Ascii.zero) by lia.
      fold (char_at seq1 i').
      destruct (P_banded_tag x y i' j Hj V)
        as [(Tg & j' & -> & V')|[(Tg & J & V')|(Tg & V')]]; rewrite Tg;
        cbn [neqb Z.eqb bind];
        pose proof (proj1 (in_band_y seq2 m Hm _ _) V') as Vr'.
      * replace (Z.of_nat (S i') + Z.of_nat (S j') - 3 - 1)
          with (Z.of_nat (S i' + j' - 3)) by lia.
        rewrite (getitem_nth_default seq2 (S i' + j' - 3) Ascii.zero) by lia.
        cbn [bind]. fold (char_at seq2 (S i' + j' - 3)).
        replace (Z.of_nat (S j') - 1) with (Z.of_nat j') by lia.
        destruct (IH (S i') j' (gap :: a1) (char_at seq2 (S i' + j' - 3) :: a2))
          as (al & Hal & Ht & Hb); [lia|lia|assumption|lia|].
        exists (al ++ [Ins (char_at seq2 (S i' + j' - 3))]).
        rewrite row1_snoc, row2_snoc, top_snoc_Ins, bottom_snoc_Ins.
        split; [exact Hal|]. split; [exact Ht|].
        rewrite Hb.
        replace (S i' + S j' - 3)%nat with (S (S i' + j' - 3)) by lia.
        rewrite firstn_S_snoc by lia. reflexivity.
      * replace (Z.of_nat j + 1) with (Z.of_nat (S j)) by lia.
        destruct (IH i' (S j) (char_at seq1 i' :: a1) (gap :: a2))
          as (al & Hal & Ht & Hb); [lia|lia|assumption|lia|].
        exists (al ++ [Del (char_at seq1 i')]).
        rewrite row1_snoc, row2_snoc, top_snoc_Del, bottom_snoc_Del.
        split; [exact Hal|]. split.
        -- rewrite Ht, firstn_S_snoc by lia. reflexivity.
        -- rewrite Hb. f_equal. lia.
      * replace (Z.of_nat (S i') + Z.of_nat j - 3 - 1)
          with (Z.of_nat (i' + j - 3)) by lia.
        rewrite (getitem_nth_default seq2 (i' + j - 3) Ascii.zero) by lia.
        cbn [bind]. fold (char_at seq2 (i' + j - 3)).
        destruct (IH i' j (char_at seq1 i' :: a1) (char_at seq2 (i' + j - 3) :: a2))
          as (al & Hal & Ht & Hb); [lia|lia|assumption|lia|].
        exists (al ++ [Pair (char_at seq1 i') (char_at seq2 (i' + j - 3))]).
        rewrite row1_snoc, row2_snoc, top_snoc_Pair, bottom_snoc_Pair.
        split; [exact Hal|]. split.
        -- rewrite Ht, firstn_S_snoc by lia. reflexivity.
        -- rewrite Hb. replace (S i' + j - 3)%nat with (S (i' + j - 3)) by lia.
           rewrite firstn_S_snoc by lia. reflexivity.
Qed.

(** The traceback reads its two sequences inside the band only: it cannot
    tell them from their prefixes. *)
Lemma alignedBanded_loop_prefixes : forall fuel i j a1 a2,
  (i <= n)%nat -> (j < 7)%nat -> in_band y i j = true ->
  alignedBanded_loop fuel seq1 seq2 P (Z.of_nat i) (Z.of_nat j) a1 a2 =
  alignedBanded_loop fuel x y P (Z.of_nat i) (Z.of_nat j) a1 a2.
Proof.
  induction fuel as [|fuel IH]; intros i j a1 a2 Hi Hj V;
    pose proof (proj1 (in_band_y seq2 m Hm i j) V) as Vr;
    rewrite (alignedBanded_loop_eq _ seq1 seq2), (alignedBanded_loop_eq _ x y);
    [reflexivity|].
  destruct (negb ((Z.of_nat i =? 0) && (Z.of_nat j =? MAXINDELS))) eqn:C;
    [|reflexivity].
  rewrite get2_PB by lia. cbn [bind].
  destruct i as [|i'].
  - rewrite (P_banded_row0 x y j V). cbn [neqb Z.eqb].
    assert (j <> 3%nat).
    { intros ->. simpl in C. discriminate. }
    destruct j as [|j']; [lia|]. unfold MAXINDELS.
    replace (Z.of_nat 0 + Z.of_nat (S j') - 3 - 1)
      with (Z.of_nat (j' - 3)) by lia.
    rewrite getitem_firstn by lia.
    rewrite (getitem_nth_default seq2 (j' - 3) Ascii.zero) by lia. cbn [bind].
    replace (Z.of_nat (S j') - 1) with (Z.of_nat j') by lia.
    apply IH; [lia|lia|apply (in_band_y seq2 m Hm); lia].
  - replace (Z.of_nat (S i') - 1) with (Z.of_nat i') by lia.
    rewrite (getitem_firstn seq1) by lia.
    rewrite (getitem_nth_default seq1 i' Ascii.zero) by lia.
    destruct (P_banded_tag x y i' j Hj V)
      as [(Tg & j' & -> & V')|[(Tg & J & V')|(Tg & V')]]; rewrite Tg;
      cbn [neqb Z.eqb bind]; unfold MAXINDELS;
      pose proof (proj1 (in_band_y seq2 m Hm _ _) V') as Vr'.
    + replace (Z.of_nat (S i') + Z.of_nat (S j') - 3 - 1)
        with (Z.of_nat (S i' + j' - 3)) by lia.
      rewrite getitem_firstn by lia.
      rewrite (getitem_nth_default seq2 (S i' + j' - 3) Ascii.zero) by lia.
      cbn [bind]. replace (Z.of_nat (S j') - 1) with (Z.of_nat j') by lia.
      apply IH; [lia|lia|assumption].
    + replace (Z.of_nat j + 1) with (Z.of_nat (S j)) by lia.
      apply IH; [lia|lia|assumption].
    + replace (Z.of_nat (S i') + Z.of_nat j - 3 - 1)
        with (Z.of_nat (i' + j - 3)) by lia.
      rewrite getitem_firstn by lia.
      rewrite (getitem_nth_default seq2 (i' + j - 3) Ascii.zero) by lia.
      cbn [bind]. apply IH; [lia|lia|assumption].
Qed.

End TracebackBanded.

(** * The banded mode, end to end *)

Lemma cut_le sq L : (cut sq L <= List.length sq)%nat.
Proof. unfold cut, len. lia. Qed.

Lemma cut_Z sq L : 0 <= L -> Z.of_nat (cut sq L) = Z.min (len sq) L.
Proof. intros H. unfold cut, len. lia. Qed.

Lemma slice_to_cut (sq : str) L : 0 <= L -> slice_to sq L = firstn (cut sq L) sq.
Proof.
  intros H. rewrite slice_to_firstn by assumption. unfold cut, len.
  destruct (Z.le_ge_cases L (Z.of_nat (List.length sq))).
  - now rewrite Z.min_r by lia.
  - rewrite Z.min_l by lia. rewrite Nat2Z.id.
    rewrite !firstn_all2 by lia. reflexivity.
Qed.

Lemma len_slice_cut (sq : str) L : 0 <= L -> len (slice_to sq L) = Z.of_nat (cut sq L).
Proof. intros H. rewrite len_slice_to, cut_Z by assumption. reflexivity. Qed.

Lemma banded_scan_eq fuel E row ret_j ret :
  banded_scan fuel E row ret_j ret =
  if neqb ret Inf then
    match fuel with
    | O => OutOfFuel
    | S fuel' =>
        ret' <- get2 E row (ret_j - 1) ;;
        banded_scan fuel' E row (ret_j - 1) ret'
    end
  else Ok (ret_j, ret).
Proof. destruct fuel; reflexivity. Qed.

Lemma alignedBanded_start_eq fuel P i j :
  alignedBanded_start fuel P i j =
  t <- get2 P i j ;;
  if neqb t Inf then
    match fuel with
    | O => OutOfFuel
    | S fuel' => alignedBanded_start fuel' P i (j - 1)
    end
  else Ok j.
Proof. destruct fuel; reflexivity. Qed.

Section BandedTop.

Variables seq1 seq2 : str.
Variables n m : nat.
Hypothesis Hn : (n <= List.length seq1)%nat.
Hypothesis Hm : (m <= List.length seq2)%nat.
Hypothesis Hm0 : (0 < m)%nat.
Hypothesis Hfeasible : (n <= m + 3)%nat /\ (m <= n + 3)%nat.

Local Abbreviation x := (firstn n seq1).
Local Abbreviation y := (firstn m seq2).
Local Abbreviation E := (EB x y (S n) (fun _ => 7%nat)).
Local Abbreviation P := (PB x y (S n) (fun _ => 7%nat)).

Lemma in_band_xy i j :
  in_band y i j = true <-> 0 <= Z.of_nat i + Z.of_nat j - 3 <= Z.of_nat m.
Proof. apply (in_band_y seq2 m Hm). Qed.


Lemma last_col_bound : (last_col n m <= 6)%nat.
Proof. unfold last_col. lia. Qed.

Lemma last_col_in_band : in_band y n (last_col n m) = true.
Proof. apply in_band_xy; unfold last_col; lia. Qed.

Lemma right_of_last_col j : (last_col n m < j)%nat -> in_band y n j = false.
Proof.
  intros H. destruct (in_band y n j) eqn:V; [|reflexivity].
  apply in_band_xy in V; unfold last_col in *; lia.
Qed.

Lemma last_col_finite : exists z, E_banded x y n (last_col n m) = Int z.
Proof.
  apply E_banded_inside; [pose proof last_col_bound; lia|].
  apply last_col_in_band.
Qed.

Lemma P_last_col_tag :
  exists t, P_banded x y n (last_col n m) = Int t.
Proof.
  apply P_banded_inside; [pose proof last_col_bound; lia|].
  apply last_col_in_band.
Qed.

Lemma banded_scan_closed : forall k fuel,
  (k <= fuel)%nat -> (last_col n m + k <= 6)%nat ->
  banded_scan fuel E (Z.of_nat n) (Z.of_nat (last_col n m + k))
    (E_banded x y n (last_col n m + k)) =
  Ok (Z.of_nat (last_col n m), E_banded x y n (last_col n m)).
Proof.
  induction k as [|k IH]; intros fuel Hf Hk; rewrite banded_scan_eq.
  - rewrite Nat.add_0_r. destruct last_col_finite as [z ->]. reflexivity.
  - rewrite (E_banded_outside x y n (last_col n m + S k))
      by (apply right_of_last_col; lia).
    cbn [neqb]. destruct fuel as [|fuel]; [lia|].
    replace (Z.of_nat (last_col n m + S k) - 1) with (Z.of_nat (last_col n m + k)) by lia.
    rewrite get2_EB by lia. cbn [bind]. apply IH; lia.
Qed.

Lemma alignedBanded_start_closed : forall k fuel,
  (k <= fuel)%nat -> (last_col n m + k <= 6)%nat ->
  alignedBanded_start fuel P (Z.of_nat n) (Z.of_nat (last_col n m + k)) =
  Ok (Z.of_nat (last_col n m)).
Proof.
  induction k as [|k IH]; intros fuel Hf Hk; rewrite alignedBanded_start_eq.
  - rewrite Nat.add_0_r. pose proof last_col_bound.
    rewrite get2_PB by lia. cbn [bind].
    destruct P_last_col_tag as [t ->]. reflexivity.
  - rewrite get2_PB by lia. cbn [bind].
    rewrite (P_banded_outside x y n (last_col n m + S k))
      by (apply right_of_last_col; lia).
    cbn [neqb]. destruct fuel as [|fuel]; [lia|].
    replace (Z.of_nat (last_col n m + S k) - 1) with (Z.of_nat (last_col n m + k)) by lia.
    apply IH; lia.
Qed.

Lemma length_x : List.length x = n.
Proof. rewrite length_firstn. lia. Qed.

Lemma banded_tables_xy : banded_tables x y = Ok (E, P).
Proof.
  rewrite banded_tables_closed by (rewrite length_firstn; lia).
  unfold fullB. now rewrite length_x.
Qed.

Lemma len_P_last : len P - 1 = Z.of_nat n.
Proof. unfold PB, len. rewrite length_mk. lia. Qed.

Lemma getitem_P_last :
  getitem P (Z.of_nat n) = Ok (map (P_banded x y n) (seq 0 7)).
Proof. unfold PB. now rewrite getitem_mk by lia. Qed.

Lemma alignedBanded_full_start fuel :
  (6 <= fuel)%nat ->
  alignedBanded_full fuel seq1 seq2 P =
  alignedBanded_loop fuel seq1 seq2 P (Z.of_nat n) (Z.of_nat (last_col n m)) [] [].
Proof.
  intros Hf. unfold alignedBanded_full.
  rewrite len_P_last, getitem_P_last. cbn [bind].
  pose proof last_col_bound as B.
  replace (len (map (P_banded x y n) (seq 0 7)) - 1)
    with (Z.of_nat (last_col n m + (6 - last_col n m))).
  2:{ unfold len. rewrite length_map, length_seq. lia. }
  rewrite alignedBanded_start_closed by lia. reflexivity.
Qed.

Lemma alignedBanded_full_closed fuel :
  (2 * n + 6 <= fuel)%nat ->
  exists al,
    alignedBanded_full fuel seq1 seq2 P = Ok (row1 al, row2 al) /\
    aligns al x y.
Proof.
  intros Hf. rewrite alignedBanded_full_start by lia.
  pose proof last_col_bound as B.
  destruct (alignedBanded_loop_correct seq1 seq2 n m Hn Hm Hm0
              fuel n (last_col n m) [] [])
    as (al & Hal & Ht & Hb);
    [lia|lia|apply last_col_in_band|unfold last_col; lia|].
  exists al. rewrite !app_nil_r in Hal. split; [exact Hal|].
  split; [exact Ht|]. rewrite Hb. f_equal. unfold last_col. lia.
Qed.

Lemma len_E_last : len E - 1 = Z.of_nat n.
Proof. unfold EB, len. rewrite length_mk. lia. Qed.

Lemma E_right_of_last_col j :
  (last_col n m < j <= 6)%nat -> get2 E (Z.of_nat n) (Z.of_nat j) = Ok Inf.
Proof.
  intros Hj. rewrite get2_EB by lia.
  now rewrite E_banded_outside by (apply right_of_last_col; lia).
Qed.

Lemma P_right_of_last_col j :
  (last_col n m < j <= 6)%nat -> get2 P (Z.of_nat n) (Z.of_nat j) = Ok Inf.
Proof.
  intros Hj. rewrite get2_PB by lia.
  now rewrite P_banded_outside by (apply right_of_last_col; lia).
Qed.

Lemma banded_cost_closed fuel :
  (6 <= fuel)%nat ->
  (ret <- get2 E (len x + 1 - 1) (2 * MAXINDELS + 1 - 1) ;;
   jr <- banded_scan fuel E (len x + 1 - 1) (2 * MAXINDELS + 1 - 1) ret ;;
   Ok (snd jr, P)) = Ok (E_banded x y n (last_col n m), P).
Proof.
  intros Hf. unfold len. rewrite length_x.
  replace (Z.of_nat n + 1 - 1) with (Z.of_nat n) by lia.
  pose proof last_col_bound as B.
  replace (2 * MAXINDELS + 1 - 1) with (Z.of_nat (last_col n m + (6 - last_col n m)))
    by (unfold MAXINDELS; lia).
  rewrite get2_EB by lia. cbn [bind].
  rewrite banded_scan_closed by lia. reflexivity.
Qed.

End BandedTop.

Lemma mk_nonempty f rows w : mk f (S rows) w <> [].
Proof. unfold mk. simpl. discriminate. Qed.

Lemma aligned_nonempty fuel self seq1 seq2 P :
  P <> [] ->
  aligned fuel self seq1 seq2 P =
  if banded self then alignedBanded fuel seq1 seq2 P
  else alignedUnrestricted fuel seq1 seq2 P.
Proof. intros H. destruct P; [contradiction|reflexivity]. Qed.

Section BandedAlign.

Variables seq1 seq2 : str.
Variable L : Z.
Hypothesis HL : 0 <= L.

Local Abbreviation n := (cut seq1 L).
Local Abbreviation m := (cut seq2 L).
Local Abbreviation x := (slice_to seq1 L).
Local Abbreviation y := (slice_to seq2 L).

Hypothesis Hm0 : (0 < m)%nat.
Hypothesis Hfeasible : Z.abs (len x - len y) <= MAXINDELS.

Lemma feasible_nat : (n <= m + 3)%nat /\ (m <= n + 3)%nat.
Proof.
  rewrite !len_slice_cut in Hfeasible by assumption.
  unfold MAXINDELS in Hfeasible. lia.
Qed.

Lemma getEditDistanceBanded_closed fuel self :
  MaxCharactersToAlign self = L -> (6 <= fuel)%nat ->
  getEditDistanceBanded fuel self seq1 seq2 =
  Ok (E_banded x y n (last_col n m), PB x y (S n) (fun _ => 7%nat)).
Proof.
  intros HS Hf. unfold getEditDistanceBanded. rewrite HS.
  replace (Z.abs (len x - len y) >? MAXINDELS) with false
    by (symmetry; rewrite Z.gtb_ltb; apply Z.ltb_ge; assumption).
  rewrite !slice_to_cut by assumption.
  pose proof feasible_nat as F.
  rewrite banded_tables_xy by (auto using cut_le).
  cbn [bind fst snd].
  apply banded_cost_closed; auto using cut_le.
Qed.

Lemma align_banded_closed fuel :
  (2 * n + 6 <= fuel)%nat ->
  exists z al,
    align fuel seq1 seq2 true L =
      Ok {| align_cost := Int z;
            seqi_first100 := slice_to (row1 al) 100;
            seqj_first100 := slice_to (row2 al) 100 |} /\
    E_banded x y n (last_col n m) = Int z /\
    aligns al x y.
Proof.
  intros Hf. unfold align, getEditDistance. cbn [banded].
  rewrite getEditDistanceBanded_closed by (try reflexivity; lia).
  cbn [bind fst snd]. pose proof feasible_nat as F.
  rewrite !slice_to_cut by assumption.
  assert (Hfin : exists z,
            E_banded (firstn n seq1) (firstn m seq2) n (last_col n m) = Int z)
    by (apply last_col_finite; auto using cut_le).
  destruct Hfin as [z Hz].
  assert (Htb : exists al,
            alignedBanded_full fuel seq1 seq2
              (PB (firstn n seq1) (firstn m seq2) (S n) (fun _ => 7%nat)) =
              Ok (row1 al, row2 al) /\
            aligns al (firstn n seq1) (firstn m seq2))
    by (apply alignedBanded_full_closed; auto using cut_le).
  destruct Htb as (al & Hal & Halg).
  exists z, al. rewrite Hz.
  split; [|split; [reflexivity|exact Halg]].
  rewrite aligned_nonempty by apply mk_nonempty. cbn [banded].
  unfold alignedBanded. rewrite Hal. reflexivity.
Qed.

(** [align] in banded mode, written with the cut sequences only. *)
Lemma align_banded_normal fuel :
  (6 <= fuel)%nat ->
  align fuel seq1 seq2 true L =
  (xy <- alignedBanded_loop fuel x y (PB x y (S (List.length x)) (fun _ => 7%nat))
           (Z.of_nat (List.length x))
           (Z.of_nat (last_col (List.length x) (List.length y))) [] [] ;;
   Ok {| align_cost :=
           E_banded x y (List.length x)
             (last_col (List.length x) (List.length y));
         seqi_first100 := slice_to (fst xy) 100;
         seqj_first100 := slice_to (snd xy) 100 |}).
Proof.
  intros Hf. unfold align, getEditDistance. cbn [banded].
  rewrite getEditDistanceBanded_closed by (try reflexivity; lia).
  cbn [bind fst snd]. pose proof feasible_nat as F.
  rewrite !slice_to_cut by assumption.
  pose proof (cut_le seq1 L) as Hn. pose proof (cut_le seq2 L) as Hm.
  rewrite !length_firstn, !Nat.min_l by assumption.
  rewrite aligned_nonempty by apply mk_nonempty. cbn [banded].
  unfold alignedBanded.
  rewrite alignedBanded_full_start by assumption.
  rewrite alignedBanded_loop_prefixes;
    [ | first [ assumption | lia | unfold last_col; lia
              | apply last_col_in_band with (seq1 := seq1); assumption ] .. ].
  destruct (alignedBanded_loop fuel (firstn n seq1) (firstn m seq2)
              (PB (firstn n seq1) (firstn m seq2) (S n) (fun _ => 7%nat))
              (Z.of_nat n) (Z.of_nat (last_col n m)) [] []); reflexivity.
Qed.

End BandedAlign.

(** * The unrestricted mode, end to end *)

Section UnrestrictedTop.

Variables seq1 seq2 : str.
Variable L : Z.
Hypothesis HL : 0 <= L.

Local Abbreviation n := (cut seq1 L).
Local Abbreviation m := (cut seq2 L).


Lemma fullU_full : fullU seq1 seq2 n m = (E_full seq1 seq2 L, P_full seq1 seq2 L).
Proof.
  unfold fullU, stU, E_full, P_full, EU, PU.
  f_equal; apply mk_ext; intros a Ha; unfold wU;
    destruct (Nat.ltb_spec a n); [reflexivity| |reflexivity|];
    (replace a with n by lia); now rewrite Nat.eqb_refl.
Qed.

Lemma unrestricted_tables_closed self :
  MaxCharactersToAlign self = L ->
  unrestricted_tables self seq1 seq2 = Ok (E_full seq1 seq2 L, P_full seq1 seq2 L).
Proof.
  intros HS. unfold unrestricted_tables. rewrite HS.
  rewrite <- !cut_Z by assumption.
  rewrite unrestricted_loops_closed by apply cut_le.
  now rewrite fullU_full.
Qed.

Lemma getEditDistanceUnrestricted_closed self :
  MaxCharactersToAlign self = L ->
  getEditDistanceUnrestricted self seq1 seq2 =
  Ok (Int (E_spec seq1 seq2 n m), P_full seq1 seq2 L).
Proof.
  intros HS. unfold getEditDistanceUnrestricted.
  rewrite unrestricted_tables_closed by assumption. cbn [bind fst snd].
  rewrite HS. rewrite <- !cut_Z by assumption.
  replace (Z.of_nat n + 1 - 1) with (Z.of_nat n) by lia.
  replace (Z.of_nat m + 1 - 1) with (Z.of_nat m) by lia.
  unfold E_full. rewrite get2_EU by lia. reflexivity.
Qed.

Lemma get2_P_full i j :
  (i <= n)%nat -> (j <= m)%nat ->
  get2 (P_full seq1 seq2 L) (Z.of_nat i) (Z.of_nat j) =
  Ok (Int (P_unrestricted seq1 seq2 i j)).
Proof. intros Hi Hj. unfold P_full. rewrite get2_PU by lia. reflexivity. Qed.

Lemma get2_E_full i j :
  (i <= n)%nat -> (j <= m)%nat ->
  get2 (E_full seq1 seq2 L) (Z.of_nat i) (Z.of_nat j) =
  Ok (Int (E_spec seq1 seq2 i j)).
Proof. intros Hi Hj. unfold E_full. rewrite get2_EU by lia. reflexivity. Qed.

Lemma len_P_full : len (P_full seq1 seq2 L) - 1 = Z.of_nat n.
Proof. unfold P_full, PU, len. rewrite length_mk. lia. Qed.

Lemma getitem_P_full_last :
  exists r,
    getitem (P_full seq1 seq2 L) (Z.of_nat n) = Ok r /\ len r - 1 = Z.of_nat m.
Proof.
  unfold P_full, PU. rewrite getitem_mk by lia.
  eexists. split; [reflexivity|].
  unfold len. rewrite length_map, length_seq. lia.
Qed.

End UnrestrictedTop.

(** * The unrestricted traceback *)

Lemma alignedUnrestricted_loop_eq fuel seq1 seq2 P i j a1 a2 :
  alignedUnrestricted_loop fuel seq1 seq2 P i j a1 a2 =
  if (i >? 0) || (j >? 0) then
    match fuel with
    | O => OutOfFuel
    | S fuel' =>
        t <- get2 P i j ;;
        if neqb t (Int 2) then
          a <- getitem seq1 (i - 1) ;;
          alignedUnrestricted_loop fuel' seq1 seq2 P (i - 1) j
            (a :: a1) (gap :: a2)
        else
          t' <- get2 P i j ;;
          if neqb t' (Int 0) then
            a <- getitem seq1 (i - 1) ;;
            b <- getitem seq2 (j - 1) ;;
            alignedUnrestricted_loop fuel' seq1 seq2 P (i - 1) (j - 1)
              (a :: a1) (b :: a2)
          else
            b <- getitem seq2 (j - 1) ;;
            alignedUnrestricted_loop fuel' seq1 seq2 P i (j - 1)
              (gap :: a1) (b :: a2)
    end
  else Ok (a1, a2).
Proof. destruct fuel; reflexivity. Qed.

Lemma meets_column0_eq fuel P i j :
  meets_column0 fuel P i j =
  if (i >? 0) || (j >? 0) then
    if j =? 0 then true
    else
      match fuel with
      | O => true
      | S fuel' =>
          match get2 P i j with
          | Ok t =>
              if neqb t (Int 2) then meets_column0 fuel' P (i - 1) j
              else if neqb t (Int 0) then meets_column0 fuel' P (i - 1) (j - 1)
              else meets_column0 fuel' P i (j - 1)
          | _ => true
          end
      end
  else false.
Proof. destruct fuel; reflexivity. Qed.

Ltac zgtb_true x :=
  replace (x >? 0) with true by (symmetry; rewrite Z.gtb_ltb; apply Z.ltb_lt; lia).

Section TracebackUnrestricted.

Variables seq1 seq2 : str.
Variable L : Z.
Hypothesis HL : 0 <= L.

Local Abbreviation n := (cut seq1 L).
Local Abbreviation m := (cut seq2 L).
Local Abbreviation P := (P_full seq1 seq2 L).
Local Abbreviation T := (P_unrestricted seq1 seq2).

Lemma alignedUnrestricted_loop_correct : forall fuel i j a1 a2,
  (i <= n)%nat -> (j <= m)%nat ->
  meets_column0 fuel P (Z.of_nat i) (Z.of_nat j) = false ->
  exists al,
    alignedUnrestricted_loop fuel seq1 seq2 P (Z.of_nat i) (Z.of_nat j) a1 a2 =
      Ok (row1 al ++ a1, row2 al ++ a2) /\
    top al = firstn i seq1 /\
    bottom al = firstn j seq2.
Proof.
  pose proof (cut_le seq1 L) as Hn. pose proof (cut_le seq2 L) as Hm.
  induction fuel as [|fuel IH]; intros i j a1 a2 Hi Hj;
    rewrite alignedUnrestricted_loop_eq, meets_column0_eq;
    (destruct j as [|j'];
     [ destruct i as [|i'];
       [ intros _; exists []; repeat split
       | zgtb_true (Z.of_nat (S i')); cbn [orb]; discriminate ]
     | zgtb_true (Z.of_nat (S j')); rewrite orb_true_r;
       zeqb_false (Z.of_nat (S j')) 0 ]); [discriminate|].
  rewrite get2_P_full by lia. cbn [bind].
  replace (Z.of_nat (S j') - 1) with (Z.of_nat j') by lia.
  rewrite (getitem_nth_default seq2 j' Ascii.zero) by lia.
  fold (char_at seq2 j').
  destruct i as [|i'].
  - change (T 0 (S j')) with 1. cbn [neqb Z.eqb bind]. intros Hmeet.
    destruct (IH 0%nat j' (gap :: a1) (char_at seq2 j' :: a2))
      as (al & Hal & Ht & Hb); [lia|lia|assumption|].
    exists (al ++ [Ins (char_at seq2 j')]).
    rewrite row1_snoc, row2_snoc, top_snoc_Ins, bottom_snoc_Ins.
    split; [exact Hal|]. split; [exact Ht|].
    rewrite Hb, firstn_S_snoc by lia. reflexivity.
  - replace (Z.of_nat (S i') - 1) with (Z.of_nat i') by lia.
    rewrite (getitem_nth_default seq1 i' Ascii.zero) by lia.
    fold (char_at seq1 i').
    change (T (S i') (S j')) with
      (if E_spec seq1 seq2 (S i') (S j') =? 5 + E_spec seq1 seq2 (S i') j' then 1
       else if E_spec seq1 seq2 (S i') (S j') =? 5 + E_spec seq1 seq2 i' (S j')
            then 2 else 0).
    destruct (E_spec seq1 seq2 (S i') (S j') =? 5 + E_spec seq1 seq2 (S i') j');
      [|destruct (E_spec seq1 seq2 (S i') (S j') =? 5 + E_spec seq1 seq2 i' (S j'))];
      cbn [neqb Z.eqb bind]; intros Hmeet.
    + destruct (IH (S i') j' (gap :: a1) (char_at seq2 j' :: a2))
        as (al & Hal & Ht & Hb); [lia|lia|assumption|].
      exists (al ++ [Ins (char_at seq2 j')]).
      rewrite row1_snoc, row2_snoc, top_snoc_Ins, bottom_snoc_Ins.
      split; [exact Hal|]. split; [exact Ht|].
      rewrite Hb, firstn_S_snoc by lia. reflexivity.
    + destruct (IH i' (S j') (char_at seq1 i' :: a1) (gap :: a2))
        as (al & Hal & Ht & Hb); [lia|lia|assumption|].
      exists (al ++ [Del (char_at seq1 i')]).
      rewrite row1_snoc, row2_snoc, top_snoc_Del, bottom_snoc_Del.
      split; [exact Hal|]. split; [|exact Hb].
      rewrite Ht, firstn_S_snoc by lia. reflexivity.
    + destruct (IH i' j' (char_at seq1 i' :: a1) (char_at seq2 j' :: a2))
        as (al & Hal & Ht & Hb); [lia|lia|assumption|].
      exists (al ++ [Pair (char_at seq1 i') (char_at seq2 j')]).
      rewrite row1_snoc, row2_snoc, top_snoc_Pair, bottom_snoc_Pair.
      split; [exact Hal|]. split.
      * rewrite Ht, firstn_S_snoc by lia. reflexivity.
      * rewrite Hb, firstn_S_snoc by lia. reflexivity.
Qed.

End TracebackUnrestricted.

(** * Aligning a sequence with itself *)

Lemma diff_ge a b : -3 <= diff a b.
Proof. unfold diff, MATCH, SUB. destruct (Ascii.eqb a b); lia. Qed.

Lemma diff_same a : diff a a = -3.
Proof. unfold diff. now rewrite Ascii.eqb_refl. Qed.

(** Every alignment of [i] characters with [j] has at most [min i j] paired
    columns and at least [|i - j|] gaps. *)
Lemma E_spec_ge seq1 seq2 : forall i j,
  -3 * Z.min (Z.of_nat i) (Z.of_nat j) + 5 * Z.abs (Z.of_nat i - Z.of_nat j)
  <= E_spec seq1 seq2 i j.
Proof.
  induction i as [|i IHi].
  - intros j. rewrite E_spec_0. lia.
  - induction j as [|j IHj].
    + rewrite E_spec_col0. lia.
    + rewrite E_spec_step.
      pose proof (IHi j). pose proof (IHi (S j)).
      pose proof (diff_ge (char_at seq1 i) (char_at seq2 j)). lia.
Qed.

Lemma E_spec_identical (A : str) : forall i,
  E_spec A A i i = -3 * Z.of_nat i.
Proof.
  induction i as [|i IH].
  - now rewrite E_spec_0.
  - rewrite E_spec_step, diff_same, IH.
    pose proof (E_spec_ge A A (S i) i). pose proof (E_spec_ge A A i (S i)). lia.
Qed.

Lemma P_unrestricted_identical (A : str) i :
  P_unrestricted A A (S i) (S i) = 0.
Proof.
  unfold P_unrestricted. rewrite E_spec_identical.
  pose proof (E_spec_ge A A (S i) i). pose proof (E_spec_ge A A i (S i)).
  destruct (Z.eqb_spec (-3 * Z.of_nat (S i)) (5 + E_spec A A (S i) i)); [lia|].
  destruct (Z.eqb_spec (-3 * Z.of_nat (S i)) (5 + E_spec A A i (S i))); [lia|].
  reflexivity.
Qed.

Section Identical.

Variable A : str.
Variable L : Z.
Hypothesis HL : len A <= L.

Lemma cut_identical : cut A L = List.length A.
Proof. unfold cut, len in *. lia. Qed.

Lemma alignedUnrestricted_loop_identical : forall fuel i a1 a2,
  (i <= List.length A)%nat -> (i <= fuel)%nat ->
  alignedUnrestricted_loop fuel A A (P_full A A L)
    (Z.of_nat i) (Z.of_nat i) a1 a2 =
  Ok (firstn i A ++ a1, firstn i A ++ a2).
Proof.
  assert (HL0 : 0 <= L) by (unfold len in HL; lia).
  induction fuel as [|fuel IH]; intros i a1 a2 Hi Hf;
    rewrite alignedUnrestricted_loop_eq.
  - assert (i = 0%nat) by lia. subst. reflexivity.
  - destruct i as [|i]; [reflexivity|].
    zgtb_true (Z.of_nat (S i)). cbn [orb].
    rewrite get2_P_full by (try assumption; rewrite cut_identical; lia).
    rewrite P_unrestricted_identical. cbn [bind neqb Z.eqb].
    replace (Z.of_nat (S i) - 1) with (Z.of_nat i) by lia.
    rewrite (getitem_nth_default A i Ascii.zero) by lia. cbn [bind].
    rewrite IH by lia. fold (char_at A i).
    rewrite firstn_S_snoc by lia. rewrite <- !app_assoc. reflexivity.
Qed.

End Identical.

(** * Gap markers and prefixes *)

Lemma remove_gaps_row1 al : gap_free (top al) -> remove_gaps (row1 al) = top al.
Proof.
  unfold gap_free, remove_gaps.
  induction al as [|c al IH]; [reflexivity|].
  destruct c as [a b|a|b]; simpl; intros H.
  - apply andb_true_iff in H. destruct H as [Ha H]. rewrite Ha.
    f_equal. now apply IH.
  - apply andb_true_iff in H. destruct H as [Ha H]. rewrite Ha.
    f_equal. now apply IH.
  - now apply IH.
Qed.

Lemma remove_gaps_row2 al : gap_free (bottom al) -> remove_gaps (row2 al) = bottom al.
Proof.
  unfold gap_free, remove_gaps.
  induction al as [|c al IH]; [reflexivity|].
  destruct c as [a b|a|b]; simpl; intros H.
  - apply andb_true_iff in H. destruct H as [Hb H]. rewrite Hb.
    f_equal. now apply IH.
  - now apply IH.
  - apply andb_true_iff in H. destruct H as [Hb H]. rewrite Hb.
    f_equal. now apply IH.
Qed.

Lemma length_row1_row2 al : List.length (row1 al) = List.length (row2 al).
Proof. unfold row1, row2. now rewrite !length_map. Qed.

(** The dynamic program reads only the prefixes it is asked about. *)
Lemma E_spec_firstn seq1 seq2 n m : forall i j,
  (i <= n)%nat -> (j <= m)%nat ->
  E_spec (firstn n seq1) (firstn m seq2) i j = E_spec seq1 seq2 i j.
Proof.
  induction i as [|i IHi].
  - intros j _ _. now rewrite !E_spec_0.
  - induction j as [|j IHj]; intros Hi Hj.
    + now rewrite !E_spec_col0.
    + rewrite !E_spec_step, !char_at_firstn by lia.
      rewrite IHi, IHi, IHj by lia. reflexivity.
Qed.

Section UnrestrictedAlign.

Variables seq1 seq2 : str.
Variable L : Z.
Hypothesis HL : 0 <= L.

Local Abbreviation n := (cut seq1 L).
Local Abbreviation m := (cut seq2 L).

Lemma align_unrestricted_closed fuel :
  unrestricted_meets_column0 fuel seq1 seq2 L = false ->
  exists al,
    align fuel seq1 seq2 false L =
      Ok {| align_cost := Int (E_spec seq1 seq2 n m);
            seqi_first100 := slice_to (row1 al) 100;
            seqj_first100 := slice_to (row2 al) 100 |} /\
    aligns al (slice_to seq1 L) (slice_to seq2 L).
Proof.
  unfold unrestricted_meets_column0.
  rewrite (getEditDistanceUnrestricted_closed seq1 seq2 L HL) by reflexivity.
  rewrite len_P_full by assumption.
  destruct (getitem_P_full_last seq1 seq2 L) as (r & Hr & Hlen).
  rewrite Hr, Hlen. intros Hmeet.
  destruct (alignedUnrestricted_loop_correct seq1 seq2 L fuel n m [] [])
    as (al & Hal & Ht & Hb); [lia|lia|exact Hmeet|].
  exists al. rewrite !app_nil_r in Hal. split.
  - unfold align, getEditDistance. cbn [banded].
    rewrite (getEditDistanceUnrestricted_closed seq1 seq2 L HL) by reflexivity.
    cbn [bind fst snd].
    rewrite aligned_nonempty by apply mk_nonempty. cbn [banded].
    unfold alignedUnrestricted, alignedUnrestricted_full.
    rewrite len_P_full by assumption. rewrite Hr. cbn [bind].
    rewrite Hlen, Hal. reflexivity.
  - rewrite !slice_to_cut by assumption. split; assumption.
Qed.

End UnrestrictedAlign.

(** * The tie-break of the two builders *)

Lemma min2_Inf_r a : min2 a Inf = a.
Proof. reflexivity. Qed.

Lemma unrestricted_tie_break (seq1 seq2 : str) (i j : nat) :
  let E := E_spec seq1 seq2 in
  let dg := diff (char_at seq1 i) (char_at seq2 j) + E i j in
  Int (E (S i) (S j)) =
    min3 (nadd (Int (diff (char_at seq1 i) (char_at seq2 j))) (Int (E i j)))
         (nadd (Int INDEL) (Int (E (S i) j)))
         (nadd (Int INDEL) (Int (E i (S j)))) /\
  first_of_left_up_diagonal (Int (E (S i) (S j)))
    (nadd (Int INDEL) (Int (E (S i) j)))
    (nadd (Int INDEL) (Int (E i (S j))))
    (nadd (Int (diff (char_at seq1 i) (char_at seq2 j))) (Int (E i j))) =
  Some (Int (P_unrestricted seq1 seq2 (S i) (S j))).
Proof.
  cbv zeta. cbn [nadd]. rewrite min3_Int. unfold INDEL.
  split; [now rewrite E_spec_step|].
  unfold first_of_left_up_diagonal, P_unrestricted. cbn [neqb].
  destruct (Z.eqb_spec (E_spec seq1 seq2 (S i) (S j))
                       (5 + E_spec seq1 seq2 (S i) j)); [reflexivity|].
  destruct (Z.eqb_spec (E_spec seq1 seq2 (S i) (S j))
                       (5 + E_spec seq1 seq2 i (S j))); [reflexivity|].
  destruct (Z.eqb_spec (E_spec seq1 seq2 (S i) (S j))
                       (diff (char_at seq1 i) (char_at seq2 j)
                        + E_spec seq1 seq2 i j)); [reflexivity|].
  rewrite E_spec_step in *. lia.
Qed.

Lemma banded_tie_break (seq1 seq2 : str) (i j : nat) :
  (j < 7)%nat -> in_band seq2 (S i) j = true ->
  let E := E_banded seq1 seq2 in
  let dg := nadd (Int (band_diff seq1 seq2 i j)) (E i j) in
  let left := match j with O => Inf | S j' => nadd (Int INDEL) (E (S i) j') end in
  let up := if Nat.eqb j 6 then Inf else nadd (Int INDEL) (E i (S j)) in
  E (S i) j = min3 dg left up /\
  first_of_left_up_diagonal (E (S i) j) left up dg =
    Some (P_banded seq1 seq2 (S i) j).
Proof.
  intros Hj V. cbv zeta.
  destruct (E_banded_inside seq1 seq2 (S i) j Hj V) as [z Hz].
  unfold first_of_left_up_diagonal, P_banded. rewrite V. cbv zeta.
  destruct j as [|j].
  - change (Nat.eqb 0 6) with false. cbv iota.
    pose proof (E_banded_S0 seq1 seq2 i) as HE. rewrite V in HE.
    unfold min3. rewrite min2_Inf_r. split; [exact HE|].
    rewrite Hz in *. change (neqb (Int z) Inf) with false. cbv iota.
    destruct (neqb (Int z) (nadd (Int INDEL) (E_banded seq1 seq2 i 1))) eqn:C;
      [reflexivity|].
    symmetry in HE. apply min2_pick in HE; [|assumption].
    rewrite HE, neqb_refl. reflexivity.
  - pose proof (E_banded_SS seq1 seq2 i j) as HE. rewrite V in HE.
    destruct (Nat.eqb (S j) 6) eqn:J.
    + unfold min3. rewrite min2_Inf_r. split; [exact HE|].
      rewrite Hz in *.
      destruct (neqb (Int z) (nadd (Int INDEL) (E_banded seq1 seq2 (S i) j))) eqn:C;
        [reflexivity|].
      change (neqb (Int z) Inf) with false. cbv iota.
      symmetry in HE. apply min2_pick in HE; [|assumption].
      rewrite HE, neqb_refl. reflexivity.
    + split; [exact HE|]. rewrite Hz in *.
      destruct (neqb (Int z) (nadd (Int INDEL) (E_banded seq1 seq2 (S i) j))) eqn:C;
        [reflexivity|].
      destruct (neqb (Int z) (nadd (Int INDEL) (E_banded seq1 seq2 i (S (S j))))) eqn:C2;
        [reflexivity|].
      symmetry in HE. apply min3_pick in HE; [|assumption|assumption].
      rewrite HE, neqb_refl. reflexivity.
Qed.

(** * The claims of the specification *)

(** The code's [diff] and [INDEL] are the costs of the specification. *)
Lemma diff_is_claimed (a b : ascii) : diff a b = diff_claimed a b.
Proof.
  unfold diff, diff_claimed, MATCH, SUB.
  destruct (Ascii.eqb a b); reflexivity.
Qed.

Lemma E_claimed_0 seq1 seq2 j : E_claimed seq1 seq2 0 j = 5 * Z.of_nat j.
Proof. reflexivity. Qed.

Lemma E_claimed_col0 seq1 seq2 i :
  E_claimed seq1 seq2 (S i) 0 = 5 * Z.of_nat (S i).
Proof. reflexivity. Qed.

Lemma E_claimed_step seq1 seq2 i j :
  E_claimed seq1 seq2 (S i) (S j) =
  Z.min (Z.min (diff_claimed (char_at seq1 i) (char_at seq2 j)
                + E_claimed seq1 seq2 i j)
               (5 + E_claimed seq1 seq2 (S i) j))
        (5 + E_claimed seq1 seq2 i (S j)).
Proof. reflexivity. Qed.

(** The recurrence the builder runs is the recurrence of the
    specification. *)
Lemma E_spec_is_claimed (seq1 seq2 : str) (i j : nat) :
  E_spec seq1 seq2 i j = E_claimed seq1 seq2 i j.
Proof.
  revert j. induction i as [|i IHi]; intros j.
  - now rewrite E_spec_0, E_claimed_0.
  - induction j as [|j IHj].
    + now rewrite E_spec_col0, E_claimed_col0.
    + rewrite E_spec_step, E_claimed_step.
      now rewrite diff_is_claimed, !IHi, IHj.
Qed.

Lemma alignment_cost_is_claimed (al : list column) :
  alignment_cost al = total_cost_claimed al.
Proof.
  induction al as [|c al IH]; [reflexivity|].
  change (alignment_cost (c :: al))
    with (column_cost c + alignment_cost al).
  change (total_cost_claimed (c :: al))
    with (column_cost_claimed c + total_cost_claimed al).
  rewrite IH. destruct c as [a b|a|b].
  - change (column_cost (Pair a b)) with (diff a b).
    now rewrite diff_is_claimed.
  - reflexivity.
  - reflexivity.
Qed.

(** C1.  Given a non-negative cap, [getEditDistanceUnrestricted] returns
    the cost [E[n][m]] of the dynamic program [E[0][j] = 5*j],
    [E[i][0] = 5*i], [E[i][j] = min(diff + E[i-1][j-1], 5 + E[i][j-1],
    5 + E[i-1][j])], where [diff] is -3 for two equal characters and +1
    otherwise, run on the two sequences cut to the cap, [n] and [m] being
    their lengths after the cut; and that value is the least total cost of
    an alignment of the two cut sequences under the costs match = -3,
    substitution = +1, insertion or deletion = +5.  The dynamic program
    and the costs are those of [E_claimed] and [minimum_cost_claimed],
    which hold the numbers themselves and not the code's [diff]. *)
Theorem getEditDistanceUnrestricted_minimum
  (self : GeneSequencing) (seq1 seq2 : str) :
  0 <= MaxCharactersToAlign self ->
  exists P,
    getEditDistanceUnrestricted self seq1 seq2 =
      Ok (Int (E_claimed (slice_to seq1 (MaxCharactersToAlign self))
                 (slice_to seq2 (MaxCharactersToAlign self))
                 (List.length (slice_to seq1 (MaxCharactersToAlign self)))
                 (List.length (slice_to seq2 (MaxCharactersToAlign self)))),
          P) /\
    minimum_cost_claimed
      (slice_to seq1 (MaxCharactersToAlign self))
      (slice_to seq2 (MaxCharactersToAlign self))
      (E_claimed (slice_to seq1 (MaxCharactersToAlign self))
         (slice_to seq2 (MaxCharactersToAlign self))
         (List.length (slice_to seq1 (MaxCharactersToAlign self)))
         (List.length (slice_to seq2 (MaxCharactersToAlign self)))).
Proof.
  intros HL. set (L := MaxCharactersToAlign self) in *.
  exists (P_full seq1 seq2 L).
  rewrite (getEditDistanceUnrestricted_closed seq1 seq2 L HL) by reflexivity.
  rewrite !slice_to_cut by assumption.
  pose proof (cut_le seq1 L) as Hn. pose proof (cut_le seq2 L) as Hm.
  rewrite !length_firstn, !Nat.min_l by assumption.
  rewrite <- (E_spec_is_claimed (firstn (cut seq1 L) seq1)
                                (firstn (cut seq2 L) seq2)
                                (cut seq1 L) (cut seq2 L)).
  rewrite E_spec_firstn by lia.
  split; [reflexivity|].
  destruct (E_spec_minimum seq1 seq2 (cut seq1 L) (cut seq2 L) Hn Hm)
    as [Hlow (al & Hal & Hc)].
  split.
  - intros al' Hal'. rewrite <- alignment_cost_is_claimed. now apply Hlow.
  - exists al. split; [exact Hal|].
    now rewrite <- alignment_cost_is_claimed.
Qed.

Lemma getEditDistanceUnrestricted_minimum_witness :
  exists P,
    getEditDistanceUnrestricted
      {| banded := false; MaxCharactersToAlign := 4 |}
      (list_ascii_of_string "AATT") (list_ascii_of_string "AA") =
      Ok (Int 4, P) /\
    minimum_cost_claimed
      (list_ascii_of_string "AATT") (list_ascii_of_string "AA") 4.
Proof.
  apply (getEditDistanceUnrestricted_minimum
           {| banded := false; MaxCharactersToAlign := 4 |}
           (list_ascii_of_string "AATT") (list_ascii_of_string "AA")).
  simpl. lia.
Defined.

(** C2, as stated, fails on two inputs the code treats as designed: a
    sequence of 101 characters, whose aligned string is cut to 100 characters,
    and a sequence that contains the gap marker itself. *)
Lemma align_restores_prefixes_counterexample :
  (exists r,
     align 300 (repeat "A"%char 101) (repeat "A"%char 101) true 101 = Ok r /\
     remove_gaps (seqi_first100 r) <> slice_to (repeat "A"%char 101) 101) /\
  (exists r,
     align 10 (list_ascii_of_string "A-") (list_ascii_of_string "A-") true 2 = Ok r /\
     remove_gaps (seqi_first100 r) <> slice_to (list_ascii_of_string "A-") 2).
Proof.
  split.
  - eexists. split; [vm_compute; reflexivity|].
    intros H. apply (f_equal (@List.length ascii)) in H.
    vm_compute in H. discriminate.
  - eexists. split; [vm_compute; reflexivity|].
    intros H. apply (f_equal (@List.length ascii)) in H.
    vm_compute in H. discriminate.
Qed.

(** C2, amended.  For sequences that contain no ["-"], a positive cap and a
    non-empty second sequence: in feasible banded mode, and in unrestricted
    mode whenever the traceback never stands on a cell of column 0 in a row
    [i > 0], [align] returns the first 100 characters of two aligned strings
    of equal length which, once every ["-"] is removed, are the first
    [min(len(A), alignLength)] characters of [A] and the first
    [min(len(B), alignLength)] characters of [B]. *)
Theorem align_restores_prefixes
  (fuel : nat) (seq1 seq2 : str) (banded : bool) (L : Z) :
  0 < L -> 0 < len seq2 ->
  gap_free (slice_to seq1 L) -> gap_free (slice_to seq2 L) ->
  (if banded
   then Z.abs (len (slice_to seq1 L) - len (slice_to seq2 L)) <= MAXINDELS /\
        (2 * cut seq1 L + 6 <= fuel)%nat
   else unrestricted_meets_column0 fuel seq1 seq2 L = false) ->
  exists c a1 a2,
    align fuel seq1 seq2 banded L =
      Ok {| align_cost := c;
            seqi_first100 := slice_to a1 100;
            seqj_first100 := slice_to a2 100 |} /\
    List.length a1 = List.length a2 /\
    remove_gaps a1 = slice_to seq1 L /\
    remove_gaps a2 = slice_to seq2 L.
Proof.
  intros HL H2 G1 G2 Hmode.
  assert (HL0 : 0 <= L) by lia.
  assert (Hm0 : (0 < cut seq2 L)%nat) by (unfold cut; lia).
  destruct banded.
  - destruct Hmode as [Hfeas Hfuel].
    destruct (align_banded_closed seq1 seq2 L HL0 Hm0 Hfeas fuel Hfuel)
      as (z & al & Hal & _ & Ht & Hb).
    exists (Int z), (row1 al), (row2 al).
    split; [exact Hal|]. split; [apply length_row1_row2|].
    rewrite <- Ht in G1. rewrite <- Hb in G2.
    rewrite remove_gaps_row1, remove_gaps_row2 by assumption. auto.
  - destruct (align_unrestricted_closed seq1 seq2 L HL0 fuel Hmode)
      as (al & Hal & Ht & Hb).
    exists (Int (E_spec seq1 seq2 (cut seq1 L) (cut seq2 L))), (row1 al), (row2 al).
    split; [exact Hal|]. split; [apply length_row1_row2|].
    rewrite <- Ht in G1. rewrite <- Hb in G2.
    rewrite remove_gaps_row1, remove_gaps_row2 by assumption. auto.
Qed.

Lemma align_restores_prefixes_witness :
  (exists c a1 a2,
     align 14 (list_ascii_of_string "AATT") (list_ascii_of_string "AA") true 4 =
       Ok {| align_cost := c;
             seqi_first100 := slice_to a1 100;
             seqj_first100 := slice_to a2 100 |} /\
     List.length a1 = List.length a2 /\
     remove_gaps a1 = list_ascii_of_string "AATT" /\
     remove_gaps a2 = list_ascii_of_string "AA") /\
  (exists c a1 a2,
     align 6 (list_ascii_of_string "AATT") (list_ascii_of_string "AA") false 4 =
       Ok {| align_cost := c;
             seqi_first100 := slice_to a1 100;
             seqj_first100 := slice_to a2 100 |} /\
     List.length a1 = List.length a2 /\
     remove_gaps a1 = list_ascii_of_string "AATT" /\
     remove_gaps a2 = list_ascii_of_string "AA").
Proof.
  split.
  - apply (align_restores_prefixes 14
             (list_ascii_of_string "AATT") (list_ascii_of_string "AA") true 4).
    + reflexivity.
    + reflexivity.
    + reflexivity.
    + reflexivity.
    + split; [vm_compute; discriminate|vm_compute; lia].
  - apply (align_restores_prefixes 6
             (list_ascii_of_string "AATT") (list_ascii_of_string "AA") false 4).
    + reflexivity.
    + reflexivity.
    + reflexivity.
    + reflexivity.
    + vm_compute. reflexivity.
Defined.



(** C4, as stated, fails: the two inputs have lengths 8 and 4, which differ
    by more than 3, yet with a cap of 4 banded mode aligns them, because the
    lengths it compares are those after the cut. *)
Lemma banded_infeasible_counterexample :
  Z.abs (len (list_ascii_of_string "AAAAAAAA")
         - len (list_ascii_of_string "AAAA")) > 3 /\
  align 20 (list_ascii_of_string "AAAAAAAA") (list_ascii_of_string "AAAA")
        true 4 =
  Ok {| align_cost := Int (-12);
        seqi_first100 := list_ascii_of_string "AAAA";
        seqj_first100 := list_ascii_of_string "AAAA" |}.
Proof. split; [reflexivity|vm_compute; reflexivity]. Qed.

(** C4, amended.  Whenever the lengths of the two sequences after the cut to
    [alignLength] differ by more than 3, banded mode returns the cost
    [math.inf] with an empty back-pointer matrix, and [align] returns that
    cost with ["No Alignment Possible"] for both aligned sequences; no loop
    is entered (no fuel is needed) and nothing is raised. *)
Theorem banded_infeasible (fuel : nat) (seq1 seq2 : str) (L : Z) :
  Z.abs (len (slice_to seq1 L) - len (slice_to seq2 L)) > MAXINDELS ->
  getEditDistanceBanded fuel {| banded := true; MaxCharactersToAlign := L |}
    seq1 seq2 = Ok (Inf, []) /\
  align fuel seq1 seq2 true L =
  Ok {| align_cost := Inf;
        seqi_first100 := list_ascii_of_string "No Alignment Possible";
        seqj_first100 := list_ascii_of_string "No Alignment Possible" |}.
Proof.
  intros H.
  assert (G : getEditDistanceBanded fuel
                {| banded := true; MaxCharactersToAlign := L |} seq1 seq2 =
              Ok (Inf, [])).
  { unfold getEditDistanceBanded. cbn [MaxCharactersToAlign].
    replace (Z.abs (len (slice_to seq1 L) - len (slice_to seq2 L)) >? MAXINDELS)
      with true by (symmetry; rewrite Z.gtb_ltb; apply Z.ltb_lt; lia).
    reflexivity. }
  split; [exact G|].
  unfold align, getEditDistance. cbn [banded]. rewrite G. reflexivity.
Qed.

Lemma banded_infeasible_witness :
  getEditDistanceBanded 0 {| banded := true; MaxCharactersToAlign := 10 |}
    (list_ascii_of_string "AAAAAAAA") (list_ascii_of_string "AAAA") =
    Ok (Inf, []) /\
  align 0 (list_ascii_of_string "AAAAAAAA") (list_ascii_of_string "AAAA")
        true 10 =
  Ok {| align_cost := Inf;
        seqi_first100 := list_ascii_of_string "No Alignment Possible";
        seqj_first100 := list_ascii_of_string "No Alignment Possible" |}.
Proof.
  apply (banded_infeasible 0 (list_ascii_of_string "AAAAAAAA")
           (list_ascii_of_string "AAAA") 10).
  reflexivity.
Defined.

(** C5.  In feasible banded mode the cost returned is the entry of the last
    row of [E] in the rightmost band column that holds a finite cost, every
    column to its right up to [2d] holding [math.inf]; the last row of [P]
    is [math.inf] in exactly those columns, so the traceback starts in the
    same cell. *)
Theorem banded_cost_and_traceback_share_cell
  (fuel : nat) (seq1 seq2 : str) (L : Z) :
  0 < L -> 0 < len seq2 ->
  Z.abs (len (slice_to seq1 L) - len (slice_to seq2 L)) <= MAXINDELS ->
  (6 <= fuel)%nat ->
  exists E P ret_j ret,
    banded_tables (slice_to seq1 L) (slice_to seq2 L) = Ok (E, P) /\
    getEditDistanceBanded fuel {| banded := true; MaxCharactersToAlign := L |}
      seq1 seq2 = Ok (Int ret, P) /\
    0 <= ret_j <= 2 * MAXINDELS /\
    get2 E (len E - 1) ret_j = Ok (Int ret) /\
    (forall j, ret_j < j <= 2 * MAXINDELS -> get2 E (len E - 1) j = Ok Inf) /\
    (exists t, get2 P (len P - 1) ret_j = Ok (Int t)) /\
    (forall j, ret_j < j <= 2 * MAXINDELS -> get2 P (len P - 1) j = Ok Inf) /\
    alignedBanded_full fuel seq1 seq2 P =
      alignedBanded_loop fuel seq1 seq2 P (len P - 1) ret_j [] [].
Proof.
  intros HL H2 Hfeas Hf. assert (HL0 : 0 <= L) by lia.
  assert (Hm0 : (0 < cut seq2 L)%nat) by (unfold cut; lia).
  assert (F : (cut seq1 L <= cut seq2 L + 3)%nat /\
              (cut seq2 L <= cut seq1 L + 3)%nat)
    by (apply feasible_nat; assumption).
  pose proof (cut_le seq1 L) as Hn. pose proof (cut_le seq2 L) as Hm.
  rewrite getEditDistanceBanded_closed with (L := L)
    by (try reflexivity; try assumption; lia).
  rewrite !slice_to_cut by assumption.
  set (n := cut seq1 L) in *. set (m := cut seq2 L) in *.
  assert (B : (last_col n m <= 6)%nat) by (unfold last_col; lia).
  assert (Hfin : exists z,
            E_banded (firstn n seq1) (firstn m seq2) n (last_col n m) = Int z)
    by (apply last_col_finite; assumption).
  assert (Htag : exists t,
            P_banded (firstn n seq1) (firstn m seq2) n (last_col n m) = Int t)
    by (apply P_last_col_tag; assumption).
  destruct Hfin as [z Hz]. destruct Htag as [t Ht].
  exists (EB (firstn n seq1) (firstn m seq2) (S n) (fun _ => 7%nat)),
    (PB (firstn n seq1) (firstn m seq2) (S n) (fun _ => 7%nat)),
    (Z.of_nat (last_col n m)), z.
  rewrite len_E_last, len_P_last by assumption. unfold MAXINDELS.
  split; [apply banded_tables_xy; assumption|].
  split; [now rewrite Hz|].
  split; [lia|].
  split; [rewrite get2_EB by lia; now rewrite Hz|].
  split.
  { intros j Hj. replace j with (Z.of_nat (Z.to_nat j)) by lia.
    apply E_right_of_last_col; try assumption; lia. }
  split; [exists t; rewrite get2_PB by lia; now rewrite Ht|].
  split.
  { intros j Hj. replace j with (Z.of_nat (Z.to_nat j)) by lia.
    apply P_right_of_last_col; try assumption; lia. }
  apply alignedBanded_full_start; assumption.
Qed.

Lemma banded_cost_and_traceback_share_cell_witness :
  exists E P ret_j ret,
    banded_tables (list_ascii_of_string "AATT") (list_ascii_of_string "AA")
      = Ok (E, P) /\
    getEditDistanceBanded 6 {| banded := true; MaxCharactersToAlign := 4 |}
      (list_ascii_of_string "AATT") (list_ascii_of_string "AA")
      = Ok (Int ret, P) /\
    0 <= ret_j <= 6 /\
    get2 E (len E - 1) ret_j = Ok (Int ret) /\
    (forall j, ret_j < j <= 6 -> get2 E (len E - 1) j = Ok Inf) /\
    (exists t, get2 P (len P - 1) ret_j = Ok (Int t)) /\
    (forall j, ret_j < j <= 6 -> get2 P (len P - 1) j = Ok Inf) /\
    alignedBanded_full 6 (list_ascii_of_string "AATT")
      (list_ascii_of_string "AA") P =
      alignedBanded_loop 6 (list_ascii_of_string "AATT")
        (list_ascii_of_string "AA") P (len P - 1) ret_j [] [].
Proof.
  apply (banded_cost_and_traceback_share_cell 6
           (list_ascii_of_string "AATT") (list_ascii_of_string "AA") 4).
  - reflexivity.
  - reflexivity.
  - vm_compute. discriminate.
  - lia.
Defined.

(** C6.  For a sequence [A] no longer than [alignLength], unrestricted
    [align(A, A)] returns the cost [-3 * len(A)] and, on both sides, [A] cut
    to 100 characters, with no gap inserted; [align("AAAA", "AAAA")] with
    [alignLength = 4] returns -12 and ["AAAA"] twice. *)
Theorem align_identical_sequences (fuel : nat) (A : str) (L : Z) :
  len A <= L -> (List.length A <= fuel)%nat ->
  align fuel A A false L =
  Ok {| align_cost := Int (-3 * len A);
        seqi_first100 := slice_to A 100;
        seqj_first100 := slice_to A 100 |}.
Proof.
  intros HL Hf. assert (HL0 : 0 <= L) by (unfold len in HL; lia).
  unfold align, getEditDistance. cbn [banded].
  rewrite (getEditDistanceUnrestricted_closed A A L HL0) by reflexivity.
  cbn [bind fst snd].
  rewrite aligned_nonempty by apply mk_nonempty. cbn [banded].
  unfold alignedUnrestricted, alignedUnrestricted_full.
  rewrite len_P_full by assumption.
  destruct (getitem_P_full_last A A L) as (r & Hr & Hlen).
  rewrite Hr. cbn [bind]. rewrite Hlen, cut_identical by assumption.
  rewrite alignedUnrestricted_loop_identical by (try assumption; lia).
  cbn [bind].
  rewrite E_spec_identical, firstn_all, !app_nil_r. reflexivity.
Qed.

Lemma align_identical_sequences_witness :
  align 4 (list_ascii_of_string "AAAA") (list_ascii_of_string "AAAA") false 4 =
  Ok {| align_cost := Int (-12);
        seqi_first100 := list_ascii_of_string "AAAA";
        seqj_first100 := list_ascii_of_string "AAAA" |}.
Proof.
  apply (align_identical_sequences 4 (list_ascii_of_string "AAAA") 4).
  - vm_compute. discriminate.
  - simpl. lia.
Defined.

(** C7, as stated, fails: banded [align("AATT", "AA")] with
    [alignLength = 4] does not cost 10. *)
Lemma banded_AATT_AA_counterexample :
  exists r,
    align 20 (list_ascii_of_string "AATT") (list_ascii_of_string "AA") true 4
      = Ok r /\
    align_cost r <> Int 10.
Proof. eexists. split; [vm_compute; reflexivity|]. simpl. discriminate. Qed.

(** C7, amended.  For [A = "AATT"], [B = "AA"] and [alignLength = 4] the
    banded alignment is feasible, its cost is 4 (two matches at -3 and two
    gaps at +5), and unrestricted mode returns the same cost. *)
Theorem banded_AATT_AA_cost :
  Z.abs (len (list_ascii_of_string "AATT") - len (list_ascii_of_string "AA"))
    <= MAXINDELS /\
  (exists r,
     align 20 (list_ascii_of_string "AATT") (list_ascii_of_string "AA") true 4
       = Ok r /\ align_cost r = Int 4) /\
  (exists r,
     align 20 (list_ascii_of_string "AATT") (list_ascii_of_string "AA") false 4
       = Ok r /\ align_cost r = Int 4).
Proof.
  split; [vm_compute; discriminate|].
  split; eexists; (split; [vm_compute; reflexivity|reflexivity]).
Qed.

(** The borders of the unrestricted tables: the costs of row 0 and column 0
    and the tags of row 0 are those of the specification; every cell of
    column 0 holds tag 0. *)
Lemma unrestricted_borders (seq1 seq2 : str) (L : Z) :
  0 <= L ->
  exists E P,
    unrestricted_tables {| banded := false; MaxCharactersToAlign := L |}
      seq1 seq2 = Ok (E, P) /\
    (forall j, 0 <= j <= Z.min (len seq2) L -> get2 E 0 j = Ok (Int (5 * j))) /\
    (forall i, 0 <= i <= Z.min (len seq1) L -> get2 E i 0 = Ok (Int (5 * i))) /\
    (forall j, 1 <= j <= Z.min (len seq2) L -> get2 P 0 j = Ok (Int 1)) /\
    (forall i, 0 <= i <= Z.min (len seq1) L -> get2 P i 0 = Ok (Int 0)).
Proof.
  intros HL. exists (E_full seq1 seq2 L), (P_full seq1 seq2 L).
  split; [now apply unrestricted_tables_closed|].
  rewrite <- !cut_Z by assumption.
  repeat split.
  - intros j Hj. replace j with (Z.of_nat (Z.to_nat j)) at 1 by lia.
    change 0 with (Z.of_nat 0). rewrite get2_E_full by lia.
    rewrite E_spec_0. do 2 f_equal. lia.
  - intros i Hi. replace i with (Z.of_nat (Z.to_nat i)) at 1 by lia.
    change 0 with (Z.of_nat 0). rewrite get2_E_full by lia.
    rewrite E_spec_col0. do 2 f_equal. lia.
  - intros j Hj. replace j with (Z.of_nat (S (Z.to_nat (j - 1)))) by lia.
    change 0 with (Z.of_nat 0). rewrite get2_P_full by lia. reflexivity.
  - intros i Hi. replace i with (Z.of_nat (Z.to_nat i)) by lia.
    change 0 with (Z.of_nat 0). rewrite get2_P_full by lia.
    destruct (Z.to_nat i); reflexivity.
Qed.

(** C8 on the code: with ["TA"] and ["A"] the unrestricted builder stores tag
    0, the diagonal tag, in column 0 of rows 1 and 2, where the claim has the
    "up" tag 2; the traceback follows it and returns ["AA"] for the second
    sequence. *)
Theorem unrestricted_column0_tag_TA_A :
  exists E P,
    unrestricted_tables {| banded := false; MaxCharactersToAlign := 2 |}
      (list_ascii_of_string "TA") (list_ascii_of_string "A") = Ok (E, P) /\
    get2 P 1 0 = Ok (Int 0) /\
    get2 P 2 0 = Ok (Int 0) /\
    align 10 (list_ascii_of_string "TA") (list_ascii_of_string "A") false 2 =
    Ok {| align_cost := Int 2;
          seqi_first100 := list_ascii_of_string "TA";
          seqj_first100 := list_ascii_of_string "AA" |}.
Proof.
  do 2 eexists. split; [vm_compute; reflexivity|].
  repeat split; vm_compute; reflexivity.
Qed.

(** C9 on the code: unrestricted [align("TTA", "A")] with [alignLength = 3]
    never returns; with fuel for three steps of the traceback it raises
    [IndexError]. *)
Theorem align_TTA_A_raises :
  (forall fuel r,
     align fuel (list_ascii_of_string "TTA") (list_ascii_of_string "A") false 3
       <> Ok r) /\
  (forall fuel,
     align (3 + fuel) (list_ascii_of_string "TTA") (list_ascii_of_string "A")
       false 3 = IndexError).
Proof.
  split.
  - intros fuel r. destruct fuel as [|[|[|fuel]]]; vm_compute; discriminate.
  - intros fuel. vm_compute. reflexivity.
Qed.

(** The banded half of C10 holds: in feasible banded mode [align] depends
    on the first [alignLength] characters of its two sequences only. *)
Lemma align_banded_depends_on_prefixes
  (fuel : nat) (seq1 seq2 seq1' seq2' : str) (L : Z) :
  0 < L -> 0 < len seq2 ->
  slice_to seq1 L = slice_to seq1' L ->
  slice_to seq2 L = slice_to seq2' L ->
  Z.abs (len (slice_to seq1 L) - len (slice_to seq2 L)) <= MAXINDELS ->
  (6 <= fuel)%nat ->
  align fuel seq1 seq2 true L = align fuel seq1' seq2' true L.
Proof.
  intros HL H2 E1 E2 Hfeas Hf. assert (HL0 : 0 <= L) by lia.
  assert (Hm0 : (0 < cut seq2 L)%nat) by (unfold cut; lia).
  assert (Hm0' : (0 < cut seq2' L)%nat).
  { apply Nat2Z.inj_lt. rewrite <- !len_slice_cut by assumption.
    rewrite <- E2, len_slice_cut by assumption. lia. }
  rewrite (align_banded_normal seq1 seq2 L HL0 Hm0 Hfeas fuel Hf).
  rewrite E1, E2 in Hfeas.
  rewrite (align_banded_normal seq1' seq2' L HL0 Hm0' Hfeas fuel Hf).
  now rewrite E1, E2.
Qed.

(** C10 on the code: the two second sequences agree on their first 4
    characters, yet unrestricted [align] with [alignLength = 4] returns
    different aligned strings, because the traceback reads [seq2[-1]]. *)
Theorem align_reads_beyond_cap :
  slice_to (list_ascii_of_string "ACGTX") 4 =
    slice_to (list_ascii_of_string "ACGTY") 4 /\
  align 20 (list_ascii_of_string "TACG") (list_ascii_of_string "ACGTX") false 4 =
    Ok {| align_cost := Int 1;
          seqi_first100 := list_ascii_of_string "TACG-";
          seqj_first100 := list_ascii_of_string "XACGT" |} /\
  align 20 (list_ascii_of_string "TACG") (list_ascii_of_string "ACGTY") false 4 =
    Ok {| align_cost := Int 1;
          seqi_first100 := list_ascii_of_string "TACG-";
          seqj_first100 := list_ascii_of_string "YACGT" |}.
Proof. repeat split; vm_compute; reflexivity. Qed.

(** * Further properties of the code *)

(** ** The unrestricted cost: symmetry and range *)

Lemma diff_sym a b : diff a b = diff b a.
Proof. unfold diff. now rewrite Ascii.eqb_sym. Qed.

Lemma diff_le a b : diff a b <= 1.
Proof. unfold diff, MATCH, SUB. destruct (Ascii.eqb a b); lia. Qed.

Lemma E_spec_sym seq1 seq2 : forall i j,
  E_spec seq1 seq2 i j = E_spec seq2 seq1 j i.
Proof.
  induction i as [|i IHi].
  - intros j. now rewrite E_spec_0, E_spec_col0.
  - induction j as [|j IHj].
    + now rewrite E_spec_0, E_spec_col0.
    + rewrite !E_spec_step, <- IHj, !IHi, diff_sym. lia.
Qed.

Lemma E_spec_le seq1 seq2 : forall i j,
  E_spec seq1 seq2 i j <=
  Z.min (Z.of_nat i) (Z.of_nat j) + 5 * Z.abs (Z.of_nat i - Z.of_nat j).
Proof.
  induction i as [|i IHi].
  - intros j. rewrite E_spec_0. lia.
  - induction j as [|j IHj].
    + rewrite E_spec_col0. lia.
    + rewrite E_spec_step. pose proof (IHi j).
      pose proof (diff_le (char_at seq1 i) (char_at seq2 j)). lia.
Qed.

(** X1.  The unrestricted cost does not depend on the order of the two
    sequences: [getEditDistanceUnrestricted] returns the same cost for
    [(seq1, seq2)] and for [(seq2, seq1)]. *)
Theorem unrestricted_cost_symmetric (self : GeneSequencing) (seq1 seq2 : str) :
  0 <= MaxCharactersToAlign self ->
  exists c P P',
    getEditDistanceUnrestricted self seq1 seq2 = Ok (c, P) /\
    getEditDistanceUnrestricted self seq2 seq1 = Ok (c, P').
Proof.
  intros HL. set (L := MaxCharactersToAlign self) in *.
  exists (Int (E_spec seq1 seq2 (cut seq1 L) (cut seq2 L))),
    (P_full seq1 seq2 L), (P_full seq2 seq1 L).
  rewrite (getEditDistanceUnrestricted_closed seq1 seq2 L HL) by reflexivity.
  rewrite (getEditDistanceUnrestricted_closed seq2 seq1 L HL) by reflexivity.
  now rewrite (E_spec_sym seq2 seq1).
Qed.

Lemma unrestricted_cost_symmetric_witness :
  exists c P P',
    getEditDistanceUnrestricted {| banded := false; MaxCharactersToAlign := 3 |}
      (list_ascii_of_string "GATTACA") (list_ascii_of_string "TA") = Ok (c, P) /\
    getEditDistanceUnrestricted {| banded := false; MaxCharactersToAlign := 3 |}
      (list_ascii_of_string "TA") (list_ascii_of_string "GATTACA") = Ok (c, P').
Proof.
  apply (unrestricted_cost_symmetric
           {| banded := false; MaxCharactersToAlign := 3 |}
           (list_ascii_of_string "GATTACA") (list_ascii_of_string "TA")).
  simpl. lia.
Defined.

(** X2.  With [n] and [m] the numbers of characters that take part, the
    unrestricted cost lies between [-3 * min(n, m) + 5 * |n - m|] (every
    pair a match) and [min(n, m) + 5 * |n - m|] (every pair a
    substitution). *)
Theorem unrestricted_cost_range (self : GeneSequencing) (seq1 seq2 : str) :
  0 <= MaxCharactersToAlign self ->
  exists c P,
    getEditDistanceUnrestricted self seq1 seq2 = Ok (Int c, P) /\
    -3 * Z.min (len (slice_to seq1 (MaxCharactersToAlign self)))
               (len (slice_to seq2 (MaxCharactersToAlign self)))
    + 5 * Z.abs (len (slice_to seq1 (MaxCharactersToAlign self))
                 - len (slice_to seq2 (MaxCharactersToAlign self)))
    <= c <=
    Z.min (len (slice_to seq1 (MaxCharactersToAlign self)))
          (len (slice_to seq2 (MaxCharactersToAlign self)))
    + 5 * Z.abs (len (slice_to seq1 (MaxCharactersToAlign self))
                 - len (slice_to seq2 (MaxCharactersToAlign self))).
Proof.
  intros HL. set (L := MaxCharactersToAlign self) in *.
  exists (E_spec seq1 seq2 (cut seq1 L) (cut seq2 L)), (P_full seq1 seq2 L).
  rewrite (getEditDistanceUnrestricted_closed seq1 seq2 L HL) by reflexivity.
  rewrite !len_slice_cut by assumption.
  split; [reflexivity|].
  split; [apply E_spec_ge|apply E_spec_le].
Qed.

Lemma unrestricted_cost_range_witness :
  exists c P,
    getEditDistanceUnrestricted {| banded := false; MaxCharactersToAlign := 4 |}
      (list_ascii_of_string "AATT") (list_ascii_of_string "AA") = Ok (Int c, P) /\
    -3 * 2 + 5 * 2 <= c <= 2 + 5 * 2.
Proof.
  apply (unrestricted_cost_range
           {| banded := false; MaxCharactersToAlign := 4 |}
           (list_ascii_of_string "AATT") (list_ascii_of_string "AA")).
  simpl. lia.
Defined.

(** ** The two aligned strings have one length *)

Lemma alignedUnrestricted_loop_lengths : forall fuel seq1 seq2 P i j a1 a2 r,
  alignedUnrestricted_loop fuel seq1 seq2 P i j a1 a2 = Ok r ->
  List.length a1 = List.length a2 ->
  List.length (fst r) = List.length (snd r).
Proof.
  induction fuel as [|fuel IH]; intros seq1 seq2 P i j a1 a2 r;
    rewrite alignedUnrestricted_loop_eq;
    destruct ((i >? 0) || (j >? 0)); intros H Hlen;
    try discriminate; try (injection H as <-; exact Hlen).
  destruct (get2 P i j) as [t| |]; try discriminate. cbn [bind] in H.
  destruct (neqb t (Int 2)); [|destruct (neqb t (Int 0))].
  - destruct (getitem seq1 (i - 1)); try discriminate. cbn [bind] in H.
    eapply IH; [exact H|]. simpl. now rewrite Hlen.
  - destruct (getitem seq1 (i - 1)); try discriminate. cbn [bind] in H.
    destruct (getitem seq2 (j - 1)); try discriminate. cbn [bind] in H.
    eapply IH; [exact H|]. simpl. now rewrite Hlen.
  - destruct (getitem seq2 (j - 1)); try discriminate. cbn [bind] in H.
    eapply IH; [exact H|]. simpl. now rewrite Hlen.
Qed.

Lemma alignedBanded_loop_lengths : forall fuel seq1 seq2 P i j a1 a2 r,
  alignedBanded_loop fuel seq1 seq2 P i j a1 a2 = Ok r ->
  List.length a1 = List.length a2 ->
  List.length (fst r) = List.length (snd r).
Proof.
  induction fuel as [|fuel IH]; intros seq1 seq2 P i j a1 a2 r;
    rewrite alignedBanded_loop_eq;
    destruct (negb ((i =? 0) && (j =? MAXINDELS))); intros H Hlen;
    try discriminate; try (injection H as <-; exact Hlen).
  destruct (get2 P i j) as [t| |]; try discriminate. cbn [bind] in H.
  destruct (neqb t (Int 2)); [|destruct (neqb t (Int 0))].
  - destruct (getitem seq1 (i - 1)); try discriminate. cbn [bind] in H.
    eapply IH; [exact H|]. simpl. now rewrite Hlen.
  - destruct (getitem seq1 (i - 1)); try discriminate. cbn [bind] in H.
    destruct (getitem seq2 (i + j - MAXINDELS - 1)); try discriminate.
    cbn [bind] in H.
    eapply IH; [exact H|]. simpl. now rewrite Hlen.
  - destruct (getitem seq2 (i + j - MAXINDELS - 1)); try discriminate.
    cbn [bind] in H.
    eapply IH; [exact H|]. simpl. now rewrite Hlen.
Qed.

Lemma first100_lengths (xy : str * str) :
  List.length (fst xy) = List.length (snd xy) ->
  List.length (fst (first100 xy)) = List.length (snd (first100 xy)) /\
  (List.length (fst (first100 xy)) <= 100)%nat.
Proof.
  intros H. unfold first100. cbn [fst snd].
  rewrite !slice_to_firstn by lia. rewrite !length_firstn, H.
  change (Z.to_nat 100) with 100%nat. lia.
Qed.

(** X3.  Whatever the inputs and the mode, when [align] returns, the two
    strings it returns have the same length, and that length is at most
    100. *)
Theorem align_strings_same_length
  (fuel : nat) (seq1 seq2 : str) (b : bool) (L : Z) (r : alignment) :
  align fuel seq1 seq2 b L = Ok r ->
  List.length (seqi_first100 r) = List.length (seqj_first100 r) /\
  (List.length (seqi_first100 r) <= 100)%nat.
Proof.
  unfold align.
  destruct (getEditDistance fuel _ seq1 seq2) as [[c P]| |];
    try discriminate. cbn [bind fst snd].
  destruct (aligned fuel _ seq1 seq2 P) as [xy| |] eqn:A; try discriminate.
  cbn [bind]. intros H. injection H as <-. cbn [seqi_first100 seqj_first100].
  unfold aligned in A. destruct P as [|r0 P'].
  - injection A as <-. split; [reflexivity|]. simpl. lia.
  - cbn [banded] in A. destruct b.
    + unfold alignedBanded in A.
      destruct (alignedBanded_full fuel seq1 seq2 (r0 :: P')) as [xy0| |] eqn:F;
        try discriminate.
      cbn [bind] in A. injection A as <-. apply first100_lengths.
      unfold alignedBanded_full in F.
      destruct (getitem (r0 :: P') (len (r0 :: P') - 1)); try discriminate.
      cbn [bind] in F.
      destruct (alignedBanded_start fuel (r0 :: P') _ _); try discriminate.
      cbn [bind] in F.
      eapply alignedBanded_loop_lengths; [exact F|reflexivity].
    + unfold alignedUnrestricted in A.
      destruct (alignedUnrestricted_full fuel seq1 seq2 (r0 :: P'))
        as [xy0| |] eqn:F; try discriminate.
      cbn [bind] in A. injection A as <-. apply first100_lengths.
      unfold alignedUnrestricted_full in F.
      destruct (getitem (r0 :: P') (len (r0 :: P') - 1)); try discriminate.
      cbn [bind] in F.
      eapply alignedUnrestricted_loop_lengths; [exact F|reflexivity].
Qed.

Lemma align_strings_same_length_witness :
  align 14 (list_ascii_of_string "AATT") (list_ascii_of_string "AA") true 4 =
    Ok {| align_cost := Int 4;
          seqi_first100 := list_ascii_of_string "AATT";
          seqj_first100 := list_ascii_of_string "AA--" |} /\
  List.length (list_ascii_of_string "AATT") =
    List.length (list_ascii_of_string "AA--") /\
  (List.length (list_ascii_of_string "AATT") <= 100)%nat.
Proof.
  split; [vm_compute; reflexivity|].
  apply (align_strings_same_length 14
           (list_ascii_of_string "AATT") (list_ascii_of_string "AA") true 4
           {| align_cost := Int 4;
              seqi_first100 := list_ascii_of_string "AATT";
              seqj_first100 := list_ascii_of_string "AA--" |}).
  vm_compute. reflexivity.
Defined.

(** ** The alignment printed has the cost returned *)

Lemma alignment_cost_snoc al c :
  alignment_cost (al ++ [c]) = alignment_cost al + column_cost c.
Proof. rewrite alignment_cost_app. simpl. lia. Qed.

Section UnrestrictedOptimalTraceback.

Variables seq1 seq2 : str.
Variable L : Z.
Hypothesis HL : 0 <= L.

Lemma alignedUnrestricted_loop_optimal : forall fuel i j a1 a2,
  (i <= cut seq1 L)%nat -> (j <= cut seq2 L)%nat ->
  meets_column0 fuel (P_full seq1 seq2 L) (Z.of_nat i) (Z.of_nat j) = false ->
  exists al,
    alignedUnrestricted_loop fuel seq1 seq2 (P_full seq1 seq2 L)
      (Z.of_nat i) (Z.of_nat j) a1 a2 =
      Ok (row1 al ++ a1, row2 al ++ a2) /\
    top al = firstn i seq1 /\
    bottom al = firstn j seq2 /\
    alignment_cost al = E_spec seq1 seq2 i j.
Proof.
  pose proof (cut_le seq1 L) as Hn. pose proof (cut_le seq2 L) as Hm.
  induction fuel as [|fuel IH]; intros i j a1 a2 Hi Hj;
    rewrite alignedUnrestricted_loop_eq, meets_column0_eq;
    (destruct j as [|j'];
     [ destruct i as [|i'];
       [ intros _; exists []; repeat split
       | zgtb_true (Z.of_nat (S i')); cbn [orb]; discriminate ]
     | zgtb_true (Z.of_nat (S j')); rewrite orb_true_r;
       zeqb_false (Z.of_nat (S j')) 0 ]); [discriminate|].
  rewrite get2_P_full by lia. cbn [bind].
  replace (Z.of_nat (S j') - 1) with (Z.of_nat j') by lia.
  rewrite (getitem_nth_default seq2 j' Ascii.zero) by lia.
  fold (char_at seq2 j').
  destruct i as [|i'].
  - change (P_unrestricted seq1 seq2 0 (S j')) with 1.
    cbn [neqb Z.eqb bind]. intros Hmeet.
    destruct (IH 0%nat j' (gap :: a1) (char_at seq2 j' :: a2))
      as (al & Hal & Ht & Hb & Hc); [lia|lia|assumption|].
    exists (al ++ [Ins (char_at seq2 j')]).
    rewrite row1_snoc, row2_snoc, top_snoc_Ins, bottom_snoc_Ins,
      alignment_cost_snoc.
    split; [exact Hal|]. split; [exact Ht|]. split.
    + rewrite Hb, firstn_S_snoc by lia. reflexivity.
    + rewrite Hc, !E_spec_0. unfold column_cost, INDEL. lia.
  - replace (Z.of_nat (S i') - 1) with (Z.of_nat i') by lia.
    rewrite (getitem_nth_default seq1 i' Ascii.zero) by lia.
    fold (char_at seq1 i').
    change (P_unrestricted seq1 seq2 (S i') (S j')) with
      (if E_spec seq1 seq2 (S i') (S j') =? 5 + E_spec seq1 seq2 (S i') j' then 1
       else if E_spec seq1 seq2 (S i') (S j') =? 5 + E_spec seq1 seq2 i' (S j')
            then 2 else 0).
    destruct (Z.eqb_spec (E_spec seq1 seq2 (S i') (S j'))
                         (5 + E_spec seq1 seq2 (S i') j')) as [C1|C1];
      [|destruct (Z.eqb_spec (E_spec seq1 seq2 (S i') (S j'))
                             (5 + E_spec seq1 seq2 i' (S j'))) as [C2|C2]];
      cbn [neqb Z.eqb bind]; intros Hmeet.
    + destruct (IH (S i') j' (gap :: a1) (char_at seq2 j' :: a2))
        as (al & Hal & Ht & Hb & Hc); [lia|lia|assumption|].
      exists (al ++ [Ins (char_at seq2 j')]).
      rewrite row1_snoc, row2_snoc, top_snoc_Ins, bottom_snoc_Ins,
        alignment_cost_snoc.
      split; [exact Hal|]. split; [exact Ht|]. split.
      * rewrite Hb, firstn_S_snoc by lia. reflexivity.
      * rewrite Hc. unfold column_cost, INDEL. lia.
    + destruct (IH i' (S j') (char_at seq1 i' :: a1) (gap :: a2))
        as (al & Hal & Ht & Hb & Hc); [lia|lia|assumption|].
      exists (al ++ [Del (char_at seq1 i')]).
      rewrite row1_snoc, row2_snoc, top_snoc_Del, bottom_snoc_Del,
        alignment_cost_snoc.
      split; [exact Hal|]. split; [|split; [exact Hb|]].
      * rewrite Ht, firstn_S_snoc by lia. reflexivity.
      * rewrite Hc. unfold column_cost, INDEL. lia.
    + destruct (IH i' j' (char_at seq1 i' :: a1) (char_at seq2 j' :: a2))
        as (al & Hal & Ht & Hb & Hc); [lia|lia|assumption|].
      exists (al ++ [Pair (char_at seq1 i') (char_at seq2 j')]).
      rewrite row1_snoc, row2_snoc, top_snoc_Pair, bottom_snoc_Pair,
        alignment_cost_snoc.
      split; [exact Hal|]. split; [|split].
      * rewrite Ht, firstn_S_snoc by lia. reflexivity.
      * rewrite Hb, firstn_S_snoc by lia. reflexivity.
      * rewrite Hc. unfold column_cost. rewrite E_spec_step in *. lia.
Qed.

End UnrestrictedOptimalTraceback.

(** X4.  In unrestricted mode, when the traceback never stands on a cell
    of column 0 in a row [i > 0], the two strings [align] returns are the
    first 100 characters of the two rows of an alignment of the cut
    sequences whose cost is the cost returned, and no alignment of the cut
    sequences costs less. *)
Theorem align_unrestricted_prints_optimal
  (fuel : nat) (seq1 seq2 : str) (L : Z) :
  0 <= L ->
  unrestricted_meets_column0 fuel seq1 seq2 L = false ->
  exists al,
    align fuel seq1 seq2 false L =
      Ok {| align_cost := Int (alignment_cost al);
            seqi_first100 := slice_to (row1 al) 100;
            seqj_first100 := slice_to (row2 al) 100 |} /\
    aligns al (slice_to seq1 L) (slice_to seq2 L) /\
    minimum_cost (slice_to seq1 L) (slice_to seq2 L) (alignment_cost al).
Proof.
  intros HL. unfold unrestricted_meets_column0.
  rewrite (getEditDistanceUnrestricted_closed seq1 seq2 L HL) by reflexivity.
  rewrite len_P_full by assumption.
  destruct (getitem_P_full_last seq1 seq2 L) as (r & Hr & Hlen).
  rewrite Hr, Hlen. intros Hmeet.
  destruct (alignedUnrestricted_loop_optimal seq1 seq2 L fuel
              (cut seq1 L) (cut seq2 L) [] [])
    as (al & Hal & Ht & Hb & Hc); [lia|lia|exact Hmeet|].
  exists al. rewrite !app_nil_r in Hal. rewrite Hc. split; [|split].
  - unfold align, getEditDistance. cbn [banded].
    rewrite (getEditDistanceUnrestricted_closed seq1 seq2 L HL) by reflexivity.
    cbn [bind fst snd].
    rewrite aligned_nonempty by apply mk_nonempty. cbn [banded].
    unfold alignedUnrestricted, alignedUnrestricted_full.
    rewrite len_P_full by assumption. rewrite Hr. cbn [bind].
    rewrite Hlen, Hal. reflexivity.
  - rewrite !slice_to_cut by assumption. split; assumption.
  - rewrite !slice_to_cut by assumption.
    apply E_spec_minimum; apply cut_le.
Qed.

Lemma align_unrestricted_prints_optimal_witness :
  exists al,
    align 6 (list_ascii_of_string "AATT") (list_ascii_of_string "AA") false 4 =
      Ok {| align_cost := Int (alignment_cost al);
            seqi_first100 := slice_to (row1 al) 100;
            seqj_first100 := slice_to (row2 al) 100 |} /\
    aligns al (list_ascii_of_string "AATT") (list_ascii_of_string "AA") /\
    minimum_cost (list_ascii_of_string "AATT") (list_ascii_of_string "AA")
      (alignment_cost al).
Proof.
  apply (align_unrestricted_prints_optimal 6
           (list_ascii_of_string "AATT") (list_ascii_of_string "AA") 4).
  - lia.
  - vm_compute. reflexivity.
Defined.

Lemma Int_inj a b : Int a = Int b -> a = b.
Proof. congruence. Qed.

Lemma nadd_Int_eq a x z :
  nadd (Int a) x = Int z -> exists z', x = Int z' /\ z = a + z'.
Proof.
  destruct x as [y|]; simpl; intros H; [|discriminate].
  injection H as <-. eauto.
Qed.

Lemma item_or_nat {A : Type} (d : A) (l : list A) (k : nat) :
  (k < List.length l)%nat -> item_or d l (Z.of_nat k) = nth k l d.
Proof.
  intros H. unfold item_or. now rewrite (getitem_nth_default l k d).
Qed.

(** What the back-pointer of a band cell says about its cost. *)
Lemma P_banded_tag_cost (seq1 seq2 : str) (i j : nat) :
  (j < 7)%nat -> in_band seq2 (S i) j = true ->
  exists z,
    E_banded seq1 seq2 (S i) j = Int z /\
    ((P_banded seq1 seq2 (S i) j = Int 1 /\
      exists j' z', j = S j' /\ in_band seq2 (S i) j' = true /\
                    E_banded seq1 seq2 (S i) j' = Int z' /\ z = 5 + z') \/
     (P_banded seq1 seq2 (S i) j = Int 2 /\ (j < 6)%nat /\
      exists z', in_band seq2 i (S j) = true /\
                 E_banded seq1 seq2 i (S j) = Int z' /\ z = 5 + z') \/
     (P_banded seq1 seq2 (S i) j = Int 0 /\
      exists z', in_band seq2 i j = true /\
                 E_banded seq1 seq2 i j = Int z' /\
                 z = band_diff seq1 seq2 i j + z')).
Proof.
  intros Hj V. destruct (E_banded_inside seq1 seq2 (S i) j Hj V) as [z Hz].
  exists z. split; [exact Hz|].
  unfold P_banded. rewrite V. cbv zeta. rewrite Hz.
  destruct j as [|j].
  - rewrite E_banded_S0, V in Hz.
    destruct (neqb (Int z) (nadd (Int INDEL) (E_banded seq1 seq2 i 1))) eqn:C.
    + right; left. apply neqb_Int_true in C. apply nadd_Int_eq in C.
      destruct C as (z' & Hz' & ->). split; [reflexivity|]. split; [lia|].
      exists z'. split; [eapply in_band_of_finite; eauto|]. now split.
    + right; right. apply min2_pick in Hz; [|assumption].
      apply nadd_Int_eq in Hz. destruct Hz as (z' & Hz' & ->).
      split; [reflexivity|]. exists z'.
      split; [eapply in_band_of_finite; eauto|]. now split.
  - rewrite E_banded_SS, V in Hz.
    destruct (Nat.eqb (S j) 6) eqn:J.
    + destruct (neqb (Int z) (nadd (Int INDEL) (E_banded seq1 seq2 (S i) j))) eqn:C.
      * left. apply neqb_Int_true in C. apply nadd_Int_eq in C.
        destruct C as (z' & Hz' & ->). split; [reflexivity|]. exists j, z'.
        split; [reflexivity|]. split; [eapply in_band_of_finite; eauto|].
        now split.
      * right; right. apply min2_pick in Hz; [|assumption].
        apply nadd_Int_eq in Hz. destruct Hz as (z' & Hz' & ->).
        split; [reflexivity|]. exists z'.
        split; [eapply in_band_of_finite; eauto|]. now split.
    + apply Nat.eqb_neq in J.
      destruct (neqb (Int z) (nadd (Int INDEL) (E_banded seq1 seq2 (S i) j))) eqn:C.
      * left. apply neqb_Int_true in C. apply nadd_Int_eq in C.
        destruct C as (z' & Hz' & ->). split; [reflexivity|]. exists j, z'.
        split; [reflexivity|]. split; [eapply in_band_of_finite; eauto|].
        now split.
      * destruct (neqb (Int z) (nadd (Int INDEL) (E_banded seq1 seq2 i (S (S j)))))
          eqn:C2.
        -- right; left. apply neqb_Int_true in C2. apply nadd_Int_eq in C2.
           destruct C2 as (z' & Hz' & ->). split; [reflexivity|]. split; [lia|].
           exists z'. split; [eapply in_band_of_finite; eauto|]. now split.
        -- right; right. apply min3_pick in Hz; [|assumption|assumption].
           apply nadd_Int_eq in Hz. destruct Hz as (z' & Hz' & ->).
           split; [reflexivity|]. exists z'.
           split; [eapply in_band_of_finite; eauto|]. now split.
Qed.

Section BandedTracebackCost.

Variables seq1 seq2 : str.
Variables n m : nat.
Hypothesis Hn : (n <= List.length seq1)%nat.
Hypothesis Hm : (m <= List.length seq2)%nat.
Hypothesis Hm0 : (0 < m)%nat.

Local Abbreviation x := (firstn n seq1).
Local Abbreviation y := (firstn m seq2).
Local Abbreviation P := (PB x y (S n) (fun _ => 7%nat)).

Lemma band_diff_prefixes i' j :
  (i' < n)%nat -> (3 <= i' + j)%nat -> (i' + j - 3 < m)%nat ->
  band_diff x y i' j = diff (char_at seq1 i') (char_at seq2 (i' + j - 3)).
Proof.
  intros Hi Hc Hc'. unfold band_diff, MAXINDELS.
  replace (Z.of_nat (S i') + Z.of_nat j - 3 - 1)
    with (Z.of_nat (i' + j - 3)) by lia.
  rewrite item_or_nat by (rewrite length_firstn; lia).
  fold (char_at y (i' + j - 3)). now rewrite !char_at_firstn by lia.
Qed.

Lemma alignedBanded_loop_cost : forall fuel i j a1 a2,
  (i <= n)%nat -> (j < 7)%nat -> in_band y i j = true ->
  (2 * i + j <= fuel + 3)%nat ->
  exists al,
    alignedBanded_loop fuel seq1 seq2 P (Z.of_nat i) (Z.of_nat j) a1 a2 =
      Ok (row1 al ++ a1, row2 al ++ a2) /\
    top al = firstn i seq1 /\
    bottom al = firstn (i + j - 3) seq2 /\
    E_banded x y i j = Int (alignment_cost al).
Proof.
  induction fuel as [|fuel IH]; intros i j a1 a2 Hi Hj V Hf;
    pose proof (proj1 (in_band_y seq2 m Hm i j) V) as Vr;
    rewrite alignedBanded_loop_eq; unfold MAXINDELS.
  - assert (i = 0%nat) by lia. assert (j = 3%nat) by lia. subst.
    exists []. repeat split. now rewrite E_banded_0, V.
  - destruct (Nat.eq_dec i 0) as [I0|I0];
      [destruct (Nat.eq_dec j 3) as [J3|J3]|].
    + subst. exists []. repeat split. now rewrite E_banded_0, V.
    + subst i. zeqb_false (Z.of_nat j) 3. cbn [andb negb].
      change (Z.of_nat 0 =? 0) with true. cbn [andb negb].
      rewrite get2_PB by lia. cbn [bind].
      rewrite (P_banded_row0 x y j V). cbn [neqb Z.eqb].
      destruct j as [|j']; [lia|].
      replace (Z.of_nat 0 + Z.of_nat (S j') - 3 - 1)
        with (Z.of_nat (j' - 3)) by lia.
      rewrite (getitem_nth_default seq2 (j' - 3) Ascii.zero) by lia.
      cbn [bind]. fold (char_at seq2 (j' - 3)).
      replace (Z.of_nat (S j') - 1) with (Z.of_nat j') by lia.
      assert (V' : in_band y 0 j' = true)
        by (apply (in_band_y seq2 m Hm); lia).
      destruct (IH 0%nat j' (gap :: a1) (char_at seq2 (j' - 3) :: a2))
        as (al & Hal & Ht & Hb & Hc); [lia|lia|assumption|lia|].
      exists (al ++ [Ins (char_at seq2 (j' - 3))]).
      rewrite row1_snoc, row2_snoc, top_snoc_Ins, bottom_snoc_Ins,
        alignment_cost_snoc.
      split; [exact Hal|]. split; [exact Ht|]. split.
      * rewrite Hb. replace (0 + S j' - 3)%nat with (S (j' - 3)) by lia.
        replace (0 + j' - 3)%nat with (j' - 3)%nat by lia.
        rewrite firstn_S_snoc by lia. reflexivity.
      * rewrite E_banded_0, V' in Hc. rewrite E_banded_0, V.
        apply Int_inj in Hc. rewrite <- Hc.
        unfold column_cost, INDEL, MAXINDELS. f_equal. lia.
    + destruct i as [|i']; [contradiction|].
      zeqb_false (Z.of_nat (S i')) 0. cbn [andb negb].
      rewrite get2_PB by lia. cbn [bind].
      replace (Z.of_nat (S i') - 1) with (Z.of_nat i') by lia.
      rewrite (getitem_nth_default seq1 i' Ascii.zero) by lia.
      fold (char_at seq1 i').
      destruct (P_banded_tag_cost x y i' j Hj V) as (z & Hz & Hcases).
      rewrite Hz.
      destruct Hcases
        as [(Tg & j' & z' & -> & V' & Hz' & ->)
           |[(Tg & J & z' & V' & Hz' & ->)|(Tg & z' & V' & Hz' & ->)]];
        rewrite Tg; cbn [neqb Z.eqb bind];
        pose proof (proj1 (in_band_y seq2 m Hm _ _) V') as Vr'.
      * replace (Z.of_nat (S i') + Z.of_nat (S j') - 3 - 1)
          with (Z.of_nat (S i' + j' - 3)) by lia.
        rewrite (getitem_nth_default seq2 (S i' + j' - 3) Ascii.zero) by lia.
        cbn [bind]. fold (char_at seq2 (S i' + j' - 3)).
        replace (Z.of_nat (S j') - 1) with (Z.of_nat j') by lia.
        destruct (IH (S i') j' (gap :: a1) (char_at seq2 (S i' + j' - 3) :: a2))
          as (al & Hal & Ht & Hb & Hc); [lia|lia|assumption|lia|].
        exists (al ++ [Ins (char_at seq2 (S i' + j' - 3))]).
        rewrite row1_snoc, row2_snoc, top_snoc_Ins, bottom_snoc_Ins,
          alignment_cost_snoc.
        split; [exact Hal|]. split; [exact Ht|]. split.
        -- rewrite Hb.
           replace (S i' + S j' - 3)%nat with (S (S i' + j' - 3)) by lia.
           rewrite firstn_S_snoc by lia. reflexivity.
        -- rewrite Hz' in Hc. apply Int_inj in Hc. rewrite <- Hc.
           unfold column_cost, INDEL. f_equal. lia.
      * replace (Z.of_nat j + 1) with (Z.of_nat (S j)) by lia.
        destruct (IH i' (S j) (char_at seq1 i' :: a1) (gap :: a2))
          as (al & Hal & Ht & Hb & Hc); [lia|lia|assumption|lia|].
        exists (al ++ [Del (char_at seq1 i')]).
        rewrite row1_snoc, row2_snoc, top_snoc_Del, bottom_snoc_Del,
          alignment_cost_snoc.
        split; [exact Hal|]. split; [|split].
        -- rewrite Ht, firstn_S_snoc by lia. reflexivity.
        -- rewrite Hb. f_equal. lia.
        -- rewrite Hz' in Hc. apply Int_inj in Hc. rewrite <- Hc.
           unfold column_cost, INDEL. f_equal. lia.
      * replace (Z.of_nat (S i') + Z.of_nat j - 3 - 1)
          with (Z.of_nat (i' + j - 3)) by lia.
        rewrite (getitem_nth_default seq2 (i' + j - 3) Ascii.zero) by lia.
        cbn [bind]. fold (char_at seq2 (i' + j - 3)).
        destruct (IH i' j (char_at seq1 i' :: a1) (char_at seq2 (i' + j - 3) :: a2))
          as (al & Hal & Ht & Hb & Hc); [lia|lia|assumption|lia|].
        exists (al ++ [Pair (char_at seq1 i') (char_at seq2 (i' + j - 3))]).
        rewrite row1_snoc, row2_snoc, top_snoc_Pair, bottom_snoc_Pair,
          alignment_cost_snoc.
        split; [exact Hal|]. split; [|split].
        -- rewrite Ht, firstn_S_snoc by lia. reflexivity.
        -- rewrite Hb. replace (S i' + j - 3)%nat with (S (i' + j - 3)) by lia.
           rewrite firstn_S_snoc by lia. reflexivity.
        -- rewrite Hz' in Hc. apply Int_inj in Hc. rewrite <- Hc.
           rewrite band_diff_prefixes by lia.
           unfold column_cost. f_equal. lia.
Qed.

End BandedTracebackCost.

Section BandedCost.

Variables seq1 seq2 : str.
Variable L : Z.
Hypothesis HL : 0 < L.
Hypothesis H2 : 0 < len seq2.
Hypothesis Hfeasible :
  Z.abs (len (slice_to seq1 L) - len (slice_to seq2 L)) <= MAXINDELS.

Local Abbreviation n := (cut seq1 L).
Local Abbreviation m := (cut seq2 L).
Local Abbreviation x := (firstn n seq1).
Local Abbreviation y := (firstn m seq2).

Lemma banded_terminal_alignment fuel :
  (2 * n + 6 <= fuel)%nat ->
  exists al,
    alignedBanded_loop fuel seq1 seq2 (PB x y (S n) (fun _ => 7%nat))
      (Z.of_nat n) (Z.of_nat (last_col n m)) [] [] = Ok (row1 al, row2 al) /\
    aligns al x y /\
    E_banded x y n (last_col n m) = Int (alignment_cost al).
Proof.
  intros Hf. assert (HL0 : 0 <= L) by lia.
  assert (Hm0 : (0 < m)%nat) by (unfold cut; lia).
  assert (F : (n <= m + 3)%nat /\ (m <= n + 3)%nat)
    by (apply feasible_nat; assumption).
  pose proof (cut_le seq1 L) as Hn. pose proof (cut_le seq2 L) as Hm.
  destruct (alignedBanded_loop_cost seq1 seq2 n m Hn Hm Hm0
              fuel n (last_col n m) [] [])
    as (al & Hal & Ht & Hb & Hc);
    [ lia | unfold last_col; lia
    | apply last_col_in_band with (seq1 := seq1); assumption
    | unfold last_col; lia | ].
  exists al. rewrite !app_nil_r in Hal. split; [exact Hal|].
  split; [|exact Hc]. split; [exact Ht|].
  rewrite Hb. f_equal. unfold last_col. lia.
Qed.

End BandedCost.

(** X5.  In feasible banded mode the two strings [align] returns are the
    first 100 characters of the two rows of an alignment of the cut
    sequences, and the cost returned is the cost of that alignment. *)
Theorem align_banded_prints_its_cost (fuel : nat) (seq1 seq2 : str) (L : Z) :
  0 < L -> 0 < len seq2 ->
  Z.abs (len (slice_to seq1 L) - len (slice_to seq2 L)) <= MAXINDELS ->
  (2 * cut seq1 L + 6 <= fuel)%nat ->
  exists al,
    align fuel seq1 seq2 true L =
      Ok {| align_cost := Int (alignment_cost al);
            seqi_first100 := slice_to (row1 al) 100;
            seqj_first100 := slice_to (row2 al) 100 |} /\
    aligns al (slice_to seq1 L) (slice_to seq2 L).
Proof.
  intros HL H2 Hfeas Hf. assert (HL0 : 0 <= L) by lia.
  assert (Hm0 : (0 < cut seq2 L)%nat) by (unfold cut; lia).
  assert (F : (cut seq1 L <= cut seq2 L + 3)%nat /\
              (cut seq2 L <= cut seq1 L + 3)%nat)
    by (apply feasible_nat; assumption).
  destruct (banded_terminal_alignment seq1 seq2 L HL H2 Hfeas fuel Hf)
    as (al & Hal & Halg & Hc).
  exists al. unfold align, getEditDistance. cbn [banded].
  rewrite getEditDistanceBanded_closed with (L := L)
    by (try reflexivity; try assumption; lia).
  cbn [bind fst snd]. rewrite !slice_to_cut by assumption.
  split; [|exact Halg].
  rewrite aligned_nonempty by apply mk_nonempty. cbn [banded].
  unfold alignedBanded.
  rewrite alignedBanded_full_start
    by (try assumption; try apply cut_le; lia).
  rewrite Hal, Hc. reflexivity.
Qed.

Lemma align_banded_prints_its_cost_witness :
  exists al,
    align 14 (list_ascii_of_string "AATT") (list_ascii_of_string "AA") true 4 =
      Ok {| align_cost := Int (alignment_cost al);
            seqi_first100 := slice_to (row1 al) 100;
            seqj_first100 := slice_to (row2 al) 100 |} /\
    aligns al (list_ascii_of_string "AATT") (list_ascii_of_string "AA").
Proof.
  apply (align_banded_prints_its_cost 14
           (list_ascii_of_string "AATT") (list_ascii_of_string "AA") 4).
  - reflexivity.
  - reflexivity.
  - vm_compute. discriminate.
  - vm_compute. lia.
Defined.

(** X6.  In feasible banded mode the banded cost is finite and never below
    the unrestricted cost of the same call: the band can only lose
    alignments. *)
Theorem banded_cost_at_least_unrestricted
  (fuel : nat) (self : GeneSequencing) (seq1 seq2 : str) :
  0 < MaxCharactersToAlign self -> 0 < len seq2 ->
  Z.abs (len (slice_to seq1 (MaxCharactersToAlign self))
         - len (slice_to seq2 (MaxCharactersToAlign self))) <= MAXINDELS ->
  (6 <= fuel)%nat ->
  exists cb cu Pb Pu,
    getEditDistanceBanded fuel self seq1 seq2 = Ok (Int cb, Pb) /\
    getEditDistanceUnrestricted self seq1 seq2 = Ok (Int cu, Pu) /\
    cu <= cb.
Proof.
  intros HL H2 Hfeas Hf. set (L := MaxCharactersToAlign self) in *.
  assert (HL0 : 0 <= L) by lia.
  assert (Hm0 : (0 < cut seq2 L)%nat) by (unfold cut; lia).
  destruct (banded_terminal_alignment seq1 seq2 L HL H2 Hfeas
              (2 * cut seq1 L + 6) (Nat.le_refl _))
    as (al & _ & (Ht & Hb) & Hc).
  exists (alignment_cost al), (E_spec seq1 seq2 (cut seq1 L) (cut seq2 L)).
  do 2 eexists.
  rewrite getEditDistanceBanded_closed with (L := L)
    by (try reflexivity; try assumption; lia).
  rewrite (getEditDistanceUnrestricted_closed seq1 seq2 L HL0) by reflexivity.
  rewrite !slice_to_cut by assumption. rewrite Hc.
  split; [reflexivity|]. split; [reflexivity|].
  apply E_spec_lower_bound; try assumption; apply cut_le.
Qed.

Lemma banded_cost_at_least_unrestricted_witness :
  exists cb cu Pb Pu,
    getEditDistanceBanded 6 {| banded := true; MaxCharactersToAlign := 8 |}
      (list_ascii_of_string "ACGTTTTT") (list_ascii_of_string "TTTTTACG")
      = Ok (Int cb, Pb) /\
    getEditDistanceUnrestricted {| banded := true; MaxCharactersToAlign := 8 |}
      (list_ascii_of_string "ACGTTTTT") (list_ascii_of_string "TTTTTACG")
      = Ok (Int cu, Pu) /\
    cu <= cb.
Proof.
  apply (banded_cost_at_least_unrestricted 6
           {| banded := true; MaxCharactersToAlign := 8 |}
           (list_ascii_of_string "ACGTTTTT") (list_ascii_of_string "TTTTTACG")).
  - reflexivity.
  - reflexivity.
  - vm_compute. discriminate.
  - lia.
Defined.

(** ** Banded mode on a sequence and itself *)

(** A finite band cell is the cost of an alignment of the two prefixes it
    stands for, hence at least the cost of the dynamic program there. *)
Lemma E_banded_lower_bound (seq1 seq2 : str) (i j : nat) (z : Z) :
  (0 < List.length seq2)%nat -> (i <= List.length seq1)%nat -> (j < 7)%nat ->
  in_band seq2 i j = true ->
  E_banded seq1 seq2 i j = Int z ->
  E_spec seq1 seq2 i (i + j - 3) <= z.
Proof.
  intros H0 Hi Hj V Hz.
  pose proof (proj1 (in_band_iff seq2 i j) V) as Vr. unfold len in Vr.
  destruct (alignedBanded_loop_cost seq1 seq2
              (List.length seq1) (List.length seq2)
              (Nat.le_refl _) (Nat.le_refl _) H0 (2 * i + j) i j [] [])
    as (al & _ & Ht & Hb & Hc);
    [lia|lia|now rewrite firstn_all|lia|].
  rewrite !firstn_all in Hc. rewrite Hz in Hc. apply Int_inj in Hc.
  rewrite Hc. apply E_spec_lower_bound; try assumption; lia.
Qed.

Section BandedIdentical.

Variable A : str.
Hypothesis HA : (0 < List.length A)%nat.

Lemma E_banded_identical_pair : forall i,
  (i <= List.length A)%nat ->
  E_banded A A i 3 = Int (-3 * Z.of_nat i) /\
  (forall i', i = S i' -> P_banded A A i 3 = Int 0).
Proof.
  induction i as [|i IH]; intros Hi.
  - split; [|discriminate].
    rewrite E_banded_0.
    replace (in_band A 0 3) with true
      by (symmetry; apply in_band_iff; unfold len; lia).
    reflexivity.
  - destruct (IH ltac:(lia)) as [IHe _].
    assert (V : in_band A (S i) 3 = true)
      by (apply in_band_iff; unfold len; lia).
    assert (V1 : in_band A (S i) 2 = true)
      by (apply in_band_iff; unfold len; lia).
    assert (V2 : in_band A i 4 = true)
      by (apply in_band_iff; unfold len; lia).
    destruct (E_banded_inside A A (S i) 2 ltac:(lia) V1) as [z1 Hz1].
    destruct (E_banded_inside A A i 4 ltac:(lia) V2) as [z2 Hz2].
    pose proof (E_banded_lower_bound A A (S i) 2 z1 HA Hi ltac:(lia) V1 Hz1) as B1.
    pose proof (E_banded_lower_bound A A i 4 z2 HA ltac:(lia) ltac:(lia) V2 Hz2)
      as B2.
    replace (S i + 2 - 3)%nat with i in B1 by lia.
    replace (i + 4 - 3)%nat with (S i) in B2 by lia.
    pose proof (E_spec_ge A A (S i) i) as G1.
    pose proof (E_spec_ge A A i (S i)) as G2.
    assert (D : band_diff A A i 3 = -3).
    { unfold band_diff, MAXINDELS.
      replace (Z.of_nat (S i) + Z.of_nat 3 - 3 - 1) with (Z.of_nat i) by lia.
      rewrite item_or_nat by lia. fold (char_at A i). apply diff_same. }
    assert (He : E_banded A A (S i) 3 = Int (-3 * Z.of_nat (S i))).
    { rewrite (E_banded_SS A A i 2), V. change (Nat.eqb 3 6) with false.
      cbv iota. rewrite D, IHe, Hz1, Hz2. cbn [nadd]. rewrite min3_Int.
      unfold INDEL. f_equal. lia. }
    split; [exact He|]. intros i' _.
    unfold P_banded. rewrite V. cbv zeta. rewrite He.
    change (Nat.eqb 3 6) with false. cbv iota.
    rewrite Hz1, Hz2. cbn [nadd neqb]. unfold INDEL.
    destruct (Z.eqb_spec (-3 * Z.of_nat (S i)) (5 + z1)); [lia|].
    destruct (Z.eqb_spec (-3 * Z.of_nat (S i)) (5 + z2)); [lia|].
    reflexivity.
Qed.

Lemma alignedBanded_loop_identical : forall fuel i a1 a2,
  (i <= List.length A)%nat -> (i <= fuel)%nat ->
  alignedBanded_loop fuel A A (PB A A (S (List.length A)) (fun _ => 7%nat))
    (Z.of_nat i) (Z.of_nat 3) a1 a2 =
  Ok (firstn i A ++ a1, firstn i A ++ a2).
Proof.
  induction fuel as [|fuel IH]; intros i a1 a2 Hi Hf;
    rewrite alignedBanded_loop_eq.
  - assert (i = 0%nat) by lia. subst. reflexivity.
  - destruct i as [|i]; [reflexivity|].
    zeqb_false (Z.of_nat (S i)) 0. cbn [andb negb].
    rewrite get2_PB by lia.
    destruct (E_banded_identical_pair (S i) Hi) as [_ Htag].
    rewrite (Htag i eq_refl). cbn [bind neqb Z.eqb]. unfold MAXINDELS.
    replace (Z.of_nat (S i) - 1) with (Z.of_nat i) by lia.
    replace (Z.of_nat (S i) + Z.of_nat 3 - 3 - 1) with (Z.of_nat i) by lia.
    rewrite (getitem_nth_default A i Ascii.zero) by lia. cbn [bind].
    rewrite IH by lia. fold (char_at A i).
    rewrite firstn_S_snoc by lia. rewrite <- !app_assoc. reflexivity.
Qed.

End BandedIdentical.

(** X7.  For a non-empty sequence [A] no longer than [alignLength], banded
    [align(A, A)] returns the cost [-3 * len(A)] and, on both sides, [A] cut
    to 100 characters. *)
Theorem align_banded_identical_sequences (fuel : nat) (A : str) (L : Z) :
  0 < len A -> len A <= L -> (List.length A + 6 <= fuel)%nat ->
  align fuel A A true L =
  Ok {| align_cost := Int (-3 * len A);
        seqi_first100 := slice_to A 100;
        seqj_first100 := slice_to A 100 |}.
Proof.
  intros HA HL Hf. assert (HL0 : 0 <= L) by lia.
  assert (HA' : (0 < List.length A)%nat) by (unfold len in HA; lia).
  assert (Hcut : cut A L = List.length A) by (now apply cut_identical).
  assert (Hx : slice_to A L = A)
    by (rewrite slice_to_cut, Hcut by assumption; apply firstn_all).
  rewrite align_banded_normal;
    [ | first [ lia | rewrite Hcut; lia
              | rewrite Hx; unfold MAXINDELS; lia ] .. ].
  rewrite Hx. unfold last_col.
  replace (List.length A + 3 - List.length A)%nat with 3%nat by lia.
  rewrite alignedBanded_loop_identical by lia. cbn [bind fst snd].
  destruct (E_banded_identical_pair A HA' (List.length A) (Nat.le_refl _))
    as [He _].
  rewrite He, firstn_all, !app_nil_r. reflexivity.
Qed.

Lemma align_banded_identical_sequences_witness :
  align 10 (list_ascii_of_string "AAAA") (list_ascii_of_string "AAAA") true 4 =
  Ok {| align_cost := Int (-12);
        seqi_first100 := list_ascii_of_string "AAAA";
        seqj_first100 := list_ascii_of_string "AAAA" |}.
Proof.
  apply (align_banded_identical_sequences 10 (list_ascii_of_string "AAAA") 4).
  - reflexivity.
  - vm_compute. discriminate.
  - simpl. lia.
Defined.

(** ** Edge cases of the unrestricted mode *)

(** X8.  With a negative [align_length] the unrestricted builder builds
    empty tables and its final read [E[len1 - 1][len2 - 1]] raises
    [IndexError], whatever the sequences. *)
Theorem unrestricted_negative_length_raises
  (fuel : nat) (seq1 seq2 : str) (L : Z) :
  L < 0 ->
  getEditDistanceUnrestricted {| banded := false; MaxCharactersToAlign := L |}
    seq1 seq2 = IndexError /\
  align fuel seq1 seq2 false L = IndexError.
Proof.
  intros HL.
  assert (G : getEditDistanceUnrestricted
                {| banded := false; MaxCharactersToAlign := L |} seq1 seq2 =
              IndexError).
  { unfold getEditDistanceUnrestricted, unrestricted_tables, unrestricted_init,
      range. cbn [MaxCharactersToAlign].
    assert (H1 : 0 <= len seq1) by (unfold len; lia).
    assert (H2 : 0 <= len seq2) by (unfold len; lia).
    replace (Z.to_nat (Z.min (len seq1) L + 1 - 0)) with 0%nat by lia.
    replace (Z.to_nat (Z.min (len seq1) L + 1 - 1)) with 0%nat by lia.
    replace (Z.to_nat (Z.min (len seq2) L + 1 - 1)) with 0%nat by lia.
    cbn [seq map fold_left for_loop bind fst snd].
    unfold get2. rewrite getitem_out; [reflexivity|]. left. simpl. lia. }
  split; [exact G|].
  unfold align, getEditDistance. cbn [banded]. now rewrite G.
Qed.

Lemma unrestricted_negative_length_raises_witness :
  getEditDistanceUnrestricted {| banded := false; MaxCharactersToAlign := -1 |}
    (list_ascii_of_string "ACGT") (list_ascii_of_string "AC") = IndexError /\
  align 10 (list_ascii_of_string "ACGT") (list_ascii_of_string "AC") false (-1)
    = IndexError.
Proof.
  apply (unrestricted_negative_length_raises 10
           (list_ascii_of_string "ACGT") (list_ascii_of_string "AC") (-1)).
  reflexivity.
Defined.

(** X9.  Unrestricted mode with an empty second sequence and a non-empty
    first one raises [IndexError]: the tables are built, but the first step
    of the traceback, in column 0, reads [seq2[-1]]. *)
Theorem unrestricted_empty_second_raises (fuel : nat) (seq1 : str) (L : Z) :
  0 < L -> 0 < len seq1 ->
  (exists c P,
     getEditDistanceUnrestricted {| banded := false; MaxCharactersToAlign := L |}
       seq1 [] = Ok (Int c, P)) /\
  align (S fuel) seq1 [] false L = IndexError.
Proof.
  intros HL H1. assert (HL0 : 0 <= L) by lia.
  pose proof (getEditDistanceUnrestricted_closed seq1 [] L HL0
                {| banded := false; MaxCharactersToAlign := L |} eq_refl) as G.
  split; [eauto|].
  unfold align, getEditDistance. cbn [banded]. rewrite G.
  cbn [bind fst snd].
  rewrite aligned_nonempty by apply mk_nonempty. cbn [banded].
  unfold alignedUnrestricted, alignedUnrestricted_full.
  rewrite len_P_full by assumption.
  destruct (getitem_P_full_last seq1 [] L) as (r & Hr & Hlen).
  rewrite Hr. cbn [bind]. rewrite Hlen.
  assert (Hn : (0 < cut seq1 L)%nat) by (unfold cut; lia).
  pose proof (cut_le seq1 L) as Hn'.
  change (cut [] L) with (Z.to_nat (Z.min 0 L)).
  replace (Z.to_nat (Z.min 0 L)) with 0%nat by lia.
  rewrite alignedUnrestricted_loop_eq.
  zgtb_true (Z.of_nat (cut seq1 L)). cbn [orb].
  rewrite get2_P_full by (try assumption; lia).
  replace (P_unrestricted seq1 [] (cut seq1 L) 0) with 0
    by (destruct (cut seq1 L); reflexivity).
  cbn [bind neqb Z.eqb].
  replace (Z.of_nat (cut seq1 L) - 1)
    with (Z.of_nat (cut seq1 L - 1)) by lia.
  rewrite (getitem_nth_default seq1 (cut seq1 L - 1) Ascii.zero) by lia.
  reflexivity.
Qed.

Lemma unrestricted_empty_second_raises_witness :
  (exists c P,
     getEditDistanceUnrestricted {| banded := false; MaxCharactersToAlign := 4 |}
       (list_ascii_of_string "AC") [] = Ok (Int c, P)) /\
  align 1 (list_ascii_of_string "AC") [] false 4 = IndexError.
Proof.
  apply (unrestricted_empty_second_raises 0 (list_ascii_of_string "AC") 4);
    reflexivity.
Defined.

Lemma alignedUnrestricted_loop_empty_first (seq2 : str) (L : Z) :
  0 <= L ->
  forall fuel j a1 a2,
  (j <= cut seq2 L)%nat -> (j <= fuel)%nat ->
  alignedUnrestricted_loop fuel [] seq2 (P_full [] seq2 L)
    (Z.of_nat 0) (Z.of_nat j) a1 a2 =
  Ok (repeat gap j ++ a1, firstn j seq2 ++ a2).
Proof.
  intros HL. pose proof (cut_le seq2 L) as Hm.
  induction fuel as [|fuel IH]; intros j a1 a2 Hj Hf;
    rewrite alignedUnrestricted_loop_eq.
  - assert (j = 0%nat) by lia. subst. reflexivity.
  - destruct j as [|j]; [reflexivity|].
    zgtb_true (Z.of_nat (S j)). rewrite orb_true_r.
    rewrite get2_P_full by (try assumption; cbn; lia).
    change (P_unrestricted [] seq2 0 (S j)) with 1.
    cbn [bind neqb Z.eqb].
    replace (Z.of_nat (S j) - 1) with (Z.of_nat j) by lia.
    rewrite (getitem_nth_default seq2 j Ascii.zero) by lia. cbn [bind].
    rewrite IH by lia. fold (char_at seq2 j).
    rewrite firstn_S_snoc by lia. rewrite <- !app_assoc.
    change (repeat gap (S j)) with (gap :: repeat gap j).
    rewrite repeat_cons, <- app_assoc. reflexivity.
Qed.

(** X10.  Unrestricted mode with an empty first sequence returns the cost
    of inserting the [m] characters of the second sequence that take part,
    [5 * m], a string of [m] gaps and those [m] characters, both cut to
    100. *)
Theorem unrestricted_empty_first (fuel : nat) (seq2 : str) (L : Z) :
  0 <= L -> (cut seq2 L <= fuel)%nat ->
  align fuel [] seq2 false L =
  Ok {| align_cost := Int (5 * Z.min (len seq2) L);
        seqi_first100 := slice_to (repeat gap (cut seq2 L)) 100;
        seqj_first100 := slice_to (slice_to seq2 L) 100 |}.
Proof.
  intros HL Hf.
  unfold align, getEditDistance. cbn [banded].
  rewrite (getEditDistanceUnrestricted_closed [] seq2 L HL) by reflexivity.
  cbn [bind fst snd].
  rewrite aligned_nonempty by apply mk_nonempty. cbn [banded].
  unfold alignedUnrestricted, alignedUnrestricted_full.
  rewrite len_P_full by assumption.
  destruct (getitem_P_full_last [] seq2 L) as (r & Hr & Hlen).
  rewrite Hr. cbn [bind]. rewrite Hlen.
  change (cut [] L) with (Z.to_nat (Z.min 0 L)).
  replace (Z.to_nat (Z.min 0 L)) with 0%nat by lia.
  rewrite alignedUnrestricted_loop_empty_first by (try assumption; lia).
  cbn [bind]. rewrite E_spec_0, !app_nil_r.
  rewrite cut_Z by assumption.
  rewrite (slice_to_cut seq2 L) by assumption. reflexivity.
Qed.

Lemma unrestricted_empty_first_witness :
  align 3 [] (list_ascii_of_string "ACGT") false 3 =
  Ok {| align_cost := Int 15;
        seqi_first100 := list_ascii_of_string "---";
        seqj_first100 := list_ascii_of_string "ACG" |}.
Proof.
  apply (unrestricted_empty_first 3 (list_ascii_of_string "ACGT") 3).
  - lia.
  - vm_compute. lia.
Defined.

(** ** Edge cases of both modes *)

(** X11.  With [align_length = 0] no character takes part: in both modes
    [align] returns cost 0 and two empty strings, whatever the sequences. *)
Theorem align_length_zero (fuel : nat) (seq1 seq2 : str) (b : bool) :
  align (3 + fuel) seq1 seq2 b 0 =
  Ok {| align_cost := Int 0; seqi_first100 := []; seqj_first100 := [] |}.
Proof.
  destruct b.
  - unfold align, getEditDistance, getEditDistanceBanded.
    cbn [banded MaxCharactersToAlign].
    change (slice_to seq1 0) with (@nil ascii).
    change (slice_to seq2 0) with (@nil ascii).
    destruct fuel; vm_compute; reflexivity.
  - unfold align, getEditDistance, getEditDistanceUnrestricted,
      unrestricted_tables.
    cbn [banded MaxCharactersToAlign].
    assert (H1 : 0 <= len seq1) by (unfold len; lia).
    assert (H2 : 0 <= len seq2) by (unfold len; lia).
    replace (Z.min (len seq1) 0) with 0 by lia.
    replace (Z.min (len seq2) 0) with 0 by lia.
    vm_compute. reflexivity.
Qed.

Lemma getEditDistanceBanded_empty_second fuel self (seq1 seq2 : str) :
  slice_to seq2 (MaxCharactersToAlign self) = [] ->
  1 <= len (slice_to seq1 (MaxCharactersToAlign self)) <= 3 ->
  getEditDistanceBanded fuel self seq1 seq2 = IndexError.
Proof.
  intros H2 H1. unfold getEditDistanceBanded. rewrite H2.
  destruct (slice_to seq1 (MaxCharactersToAlign self))
    as [|a [|b [|c [|d r]]]];
    unfold len in H1; simpl List.length in H1; try lia;
    vm_compute; reflexivity.
Qed.

(** X12.  Banded mode with an empty second sequence and one to three
    characters in the first (after the cut) raises [IndexError]: the
    lengths are within the band, and the builder reads [seq2[-1]] in the
    first cell of row 1. *)
Theorem banded_empty_second_raises (fuel : nat) (seq1 seq2 : str) (L : Z) :
  slice_to seq2 L = [] ->
  1 <= len (slice_to seq1 L) <= 3 ->
  getEditDistanceBanded fuel {| banded := true; MaxCharactersToAlign := L |}
    seq1 seq2 = IndexError /\
  align fuel seq1 seq2 true L = IndexError.
Proof.
  intros H2 H1.
  assert (G : getEditDistanceBanded fuel
                {| banded := true; MaxCharactersToAlign := L |} seq1 seq2 =
              IndexError)
    by (now apply getEditDistanceBanded_empty_second).
  split; [exact G|].
  unfold align, getEditDistance. cbn [banded]. now rewrite G.
Qed.

Lemma banded_empty_second_raises_witness :
  getEditDistanceBanded 10 {| banded := true; MaxCharactersToAlign := 2 |}
    (list_ascii_of_string "ACGT") [] = IndexError /\
  align 10 (list_ascii_of_string "ACGT") [] true 2 = IndexError.
Proof.
  apply (banded_empty_second_raises 10 (list_ascii_of_string "ACGT") [] 2).
  - reflexivity.
  - vm_compute. split; discriminate.
Defined.

(** ** The shape of the tables *)

Lemma P_banded_tag_range (seq1 seq2 : str) (i j : nat) :
  (j < 7)%nat -> in_band seq2 i j = true ->
  exists t, P_banded seq1 seq2 i j = Int t /\ 0 <= t <= 2.
Proof.
  intros Hj V. destruct i as [|i].
  - exists 1. split; [now apply P_banded_row0|lia].
  - destruct (P_banded_tag seq1 seq2 i j Hj V)
      as [(Tg & _)|[(Tg & _)|(Tg & _)]]; rewrite Tg; eexists;
      (split; [reflexivity|lia]).
Qed.

Lemma P_unrestricted_range (seq1 seq2 : str) (i j : nat) :
  0 <= P_unrestricted seq1 seq2 i j <= 2.
Proof.
  unfold P_unrestricted. destruct i, j; try lia.
  destruct (_ =? _); [lia|]. destruct (_ =? _); lia.
Qed.

(** X13.  The banded builder, run on two sequences the second of which is
    not empty, returns two tables of [len(seq1) + 1] rows of 7 entries; a
    cell [(i, j)] whose column [i + j - 3] lies in [0 .. len(seq2)] holds a
    finite cost in [E] and a tag 0, 1 or 2 in [P], and every other cell
    holds [math.inf] in both. *)
Theorem banded_tables_shape (seq1 seq2 : str) :
  0 < len seq2 ->
  exists E P,
    banded_tables seq1 seq2 = Ok (E, P) /\
    len E = len seq1 + 1 /\ len P = len seq1 + 1 /\
    forall i, 0 <= i <= len seq1 ->
      (exists rE rP, getitem E i = Ok rE /\ getitem P i = Ok rP /\
                     len rE = 7 /\ len rP = 7) /\
      forall j, 0 <= j <= 6 ->
        if (0 <=? i + j - 3) && (i + j - 3 <=? len seq2)
        then exists z t, get2 E i j = Ok (Int z) /\
                         get2 P i j = Ok (Int t) /\ 0 <= t <= 2
        else get2 E i j = Ok Inf /\ get2 P i j = Ok Inf.
Proof.
  intros H2. assert (H2' : (0 < List.length seq2)%nat) by (unfold len in H2; lia).
  exists (EB seq1 seq2 (S (List.length seq1)) (fun _ => 7%nat)),
    (PB seq1 seq2 (S (List.length seq1)) (fun _ => 7%nat)).
  split; [now apply banded_tables_closed|].
  unfold EB at 1, PB at 1. unfold len at 1 3. rewrite !length_mk.
  split; [unfold len; lia|]. split; [unfold len; lia|].
  intros i Hi. unfold len in Hi.
  replace i with (Z.of_nat (Z.to_nat i)) by lia.
  set (i' := Z.to_nat i). assert (Hi' : (i' <= List.length seq1)%nat) by lia.
  split.
  - unfold EB, PB. rewrite !getitem_mk by lia. do 2 eexists.
    split; [reflexivity|]. split; [reflexivity|].
    unfold len. rewrite !length_map, !length_seq. split; reflexivity.
  - intros j Hj. replace j with (Z.of_nat (Z.to_nat j)) by lia.
    set (j' := Z.to_nat j). assert (Hj' : (j' < 7)%nat) by lia.
    rewrite get2_EB, get2_PB by lia.
    destruct (in_band seq2 i' j') eqn:V.
    + pose proof (proj1 (in_band_iff seq2 i' j') V) as Vr.
      replace ((0 <=? Z.of_nat i' + Z.of_nat j' - 3)
               && (Z.of_nat i' + Z.of_nat j' - 3 <=? len seq2)) with true
        by (symmetry; apply andb_true_iff; split; apply Z.leb_le; lia).
      destruct (E_banded_inside seq1 seq2 i' j' Hj' V) as [z Hz].
      destruct (P_banded_tag_range seq1 seq2 i' j' Hj' V) as (t & Ht & Hr).
      exists z, t. rewrite Hz, Ht. auto.
    + assert (Vr : ~ (0 <= Z.of_nat i' + Z.of_nat j' - 3 <= len seq2)).
      { intros C. apply in_band_iff in C. congruence. }
      replace ((0 <=? Z.of_nat i' + Z.of_nat j' - 3)
               && (Z.of_nat i' + Z.of_nat j' - 3 <=? len seq2)) with false.
      * rewrite E_banded_outside, P_banded_outside by assumption. auto.
      * symmetry. apply andb_false_iff.
        destruct (Z.leb_spec 0 (Z.of_nat i' + Z.of_nat j' - 3));
          [right; apply Z.leb_gt; lia|left; reflexivity].
Qed.

Lemma banded_tables_shape_witness :
  exists E P,
    banded_tables (list_ascii_of_string "AATT") (list_ascii_of_string "AA")
      = Ok (E, P) /\
    len E = 5 /\ len P = 5 /\
    get2 E 4 1 = Ok (Int 4) /\ get2 E 4 2 = Ok Inf /\ get2 P 4 2 = Ok Inf.
Proof.
  destruct (banded_tables_shape
              (list_ascii_of_string "AATT") (list_ascii_of_string "AA"))
    as (E & P & Htab & HE & HP & _); [reflexivity|].
  exists E, P. split; [exact Htab|]. split; [exact HE|]. split; [exact HP|].
  vm_compute in Htab. injection Htab as <- <-.
  repeat split; reflexivity.
Defined.

(** X14.  The unrestricted builder returns two tables of [n + 1] rows of
    [m + 1] entries, [n] and [m] being the numbers of characters that take
    part; every cost is finite and every back-pointer is 0, 1 or 2. *)
Theorem unrestricted_tables_shape (seq1 seq2 : str) (L : Z) :
  0 <= L ->
  exists E P,
    unrestricted_tables {| banded := false; MaxCharactersToAlign := L |}
      seq1 seq2 = Ok (E, P) /\
    len E = Z.min (len seq1) L + 1 /\ len P = Z.min (len seq1) L + 1 /\
    forall i, 0 <= i <= Z.min (len seq1) L ->
      (exists rE rP, getitem E i = Ok rE /\ getitem P i = Ok rP /\
                     len rE = Z.min (len seq2) L + 1 /\
                     len rP = Z.min (len seq2) L + 1) /\
      forall j, 0 <= j <= Z.min (len seq2) L ->
        exists z t, get2 E i j = Ok (Int z) /\
                    get2 P i j = Ok (Int t) /\ 0 <= t <= 2.
Proof.
  intros HL. exists (E_full seq1 seq2 L), (P_full seq1 seq2 L).
  split; [now apply unrestricted_tables_closed|].
  rewrite <- !cut_Z by assumption.
  unfold E_full at 1, P_full at 1, EU, PU. unfold len at 1 2.
  rewrite !length_mk.
  split; [lia|]. split; [lia|].
  intros i Hi. replace i with (Z.of_nat (Z.to_nat i)) by lia.
  set (i' := Z.to_nat i). assert (Hi' : (i' <= cut seq1 L)%nat) by lia.
  split.
  - unfold E_full, P_full, EU, PU. rewrite !getitem_mk by lia.
    do 2 eexists. split; [reflexivity|]. split; [reflexivity|].
    unfold len. rewrite !length_map, !length_seq. split; lia.
  - intros j Hj. replace j with (Z.of_nat (Z.to_nat j)) by lia.
    rewrite get2_E_full, get2_P_full by lia.
    do 2 eexists. split; [reflexivity|]. split; [reflexivity|].
    apply P_unrestricted_range.
Qed.

Lemma unrestricted_tables_shape_witness :
  exists E P,
    unrestricted_tables {| banded := false; MaxCharactersToAlign := 4 |}
      (list_ascii_of_string "AATT") (list_ascii_of_string "AA") = Ok (E, P) /\
    len E = 5 /\ len P = 5 /\ get2 E 4 2 = Ok (Int 4).
Proof.
  destruct (unrestricted_tables_shape
              (list_ascii_of_string "AATT") (list_ascii_of_string "AA") 4)
    as (E & P & Htab & HE & HP & _); [lia|].
  exists E, P. split; [exact Htab|]. split; [exact HE|]. split; [exact HP|].
  vm_compute in Htab. injection Htab as <- <-. reflexivity.
Defined.

(** ** Banded mode reads the prefixes only *)

Lemma getEditDistanceBanded_infeasible fuel self (seq1 seq2 : str) :
  Z.abs (len (slice_to seq1 (MaxCharactersToAlign self))
         - len (slice_to seq2 (MaxCharactersToAlign self))) > MAXINDELS ->
  getEditDistanceBanded fuel self seq1 seq2 = Ok (Inf, []).
Proof.
  intros H. unfold getEditDistanceBanded.
  replace (Z.abs (len (slice_to seq1 (MaxCharactersToAlign self))
                  - len (slice_to seq2 (MaxCharactersToAlign self)))
           >? MAXINDELS)
    with true by (symmetry; rewrite Z.gtb_ltb; apply Z.ltb_lt; lia).
  reflexivity.
Qed.

(** X15.  In banded mode [align] depends on the first [align_length]
    characters of each sequence only: two calls whose sequences agree on
    those prefixes return the same result, be it an alignment, the "no
    alignment" answer or an [IndexError]. *)
Theorem align_banded_reads_prefixes_only
  (fuel : nat) (seq1 seq2 seq1' seq2' : str) (L : Z) :
  0 <= L -> (6 <= fuel)%nat ->
  slice_to seq1 L = slice_to seq1' L ->
  slice_to seq2 L = slice_to seq2' L ->
  align fuel seq1 seq2 true L = align fuel seq1' seq2' true L.
Proof.
  intros HL Hf E1 E2.
  destruct (Z_le_gt_dec (Z.abs (len (slice_to seq1 L) - len (slice_to seq2 L)))
                        MAXINDELS) as [Hfeas|Hinf].
  - destruct (Z_lt_le_dec 0 (len (slice_to seq2 L))) as [Hy|Hy].
    + assert (HL' : 0 < L) by (rewrite len_slice_to in Hy by assumption; lia).
      assert (H2 : 0 < len seq2)
        by (rewrite len_slice_to in Hy by assumption; lia).
      now apply align_banded_depends_on_prefixes.
    + assert (Hy0 : slice_to seq2 L = []).
      { destruct (slice_to seq2 L); [reflexivity|].
        unfold len in Hy. simpl in Hy. lia. }
      destruct (Z_lt_le_dec 0 (len (slice_to seq1 L))) as [Hx|Hx].
      * assert (B : 1 <= len (slice_to seq1 L) <= 3)
          by (rewrite Hy0 in Hfeas; unfold MAXINDELS in Hfeas;
              change (len (@nil ascii)) with 0 in Hfeas; lia).
        unfold align, getEditDistance. cbn [banded].
        rewrite !getEditDistanceBanded_empty_second; cbn [MaxCharactersToAlign];
          try reflexivity; congruence.
      * assert (Hx0 : slice_to seq1 L = []).
        { destruct (slice_to seq1 L); [reflexivity|].
          unfold len in Hx. simpl in Hx. lia. }
        unfold align, getEditDistance, getEditDistanceBanded.
        cbn [banded MaxCharactersToAlign].
        rewrite <- E1, <- E2, Hx0, Hy0.
        replace fuel with (6 + (fuel - 6))%nat by lia.
        vm_compute. reflexivity.
  - unfold align, getEditDistance. cbn [banded].
    rewrite !getEditDistanceBanded_infeasible; cbn [MaxCharactersToAlign];
      try reflexivity; try assumption.
    now rewrite <- E1, <- E2.
Qed.

Lemma align_banded_reads_prefixes_only_witness :
  align 20 (list_ascii_of_string "TACG") (list_ascii_of_string "ACGTX") true 4 =
  align 20 (list_ascii_of_string "TACG") (list_ascii_of_string "ACGTY") true 4.
Proof.
  apply (align_banded_reads_prefixes_only 20
           (list_ascii_of_string "TACG") (list_ascii_of_string "ACGTX")
           (list_ascii_of_string "TACG") (list_ascii_of_string "ACGTY") 4).
  - lia.
  - lia.
  - reflexivity.
  - reflexivity.
Defined.

(** ** The banded cost does not depend on the order of the sequences *)

Lemma min3_swap a b c : min3 a b c = min3 a c b.
Proof.
  destruct a as [a|], b as [b|], c as [c|]; unfold min3, min2, nltb;
    repeat match goal with
           | |- context [?u <? ?v] => destruct (Z.ltb_spec u v)
           end;
    try reflexivity; try (f_equal; lia).
Qed.

Lemma in_band_true (seq2 : str) (i j : nat) :
  0 <= Z.of_nat i + Z.of_nat j - 3 <= len seq2 -> in_band seq2 i j = true.
Proof. intros H. now apply in_band_iff. Qed.

Lemma in_band_left_false (seq2 : str) (i j : nat) :
  Z.of_nat i + Z.of_nat j - 3 < 0 -> in_band seq2 i j = false.
Proof.
  intros H. destruct (in_band seq2 i j) eqn:V; [|reflexivity].
  apply in_band_iff in V. lia.
Qed.

(** Column 0 of the full matrix, as the band holds it. *)
Lemma E_banded_column0 (seq1 seq2 : str) (i j : nat) :
  (i + j = 3)%nat -> E_banded seq1 seq2 i j = Int (5 * Z.of_nat i).
Proof.
  revert j. induction i as [|i IH]; intros j H.
  - rewrite E_banded_0, in_band_true by (unfold len; lia).
    unfold MAXINDELS. f_equal. lia.
  - destruct j as [|j].
    + rewrite E_banded_S0, in_band_true by (unfold len; lia).
      rewrite (E_banded_outside seq1 seq2 i 0)
        by (apply in_band_left_false; lia).
      rewrite (IH 1%nat) by lia.
      cbn [nadd]. unfold min2, nltb, INDEL. f_equal. lia.
    + rewrite E_banded_SS, in_band_true by (unfold len; lia).
      replace (Nat.eqb (S j) 6) with false
        by (symmetry; apply Nat.eqb_neq; lia).
      rewrite (E_banded_outside seq1 seq2 i (S j))
        by (apply in_band_left_false; lia).
      rewrite (E_banded_outside seq1 seq2 (S i) j)
        by (apply in_band_left_false; lia).
      rewrite (IH (S (S j))) by lia.
      cbn [nadd]. unfold min3, min2, nltb, INDEL. f_equal. lia.
Qed.

Lemma band_diff_sym (seq1 seq2 : str) (i j c k : nat) :
  (i < List.length seq1)%nat -> (c < List.length seq2)%nat ->
  (S i + j = S c + 3)%nat -> (j + k = 6)%nat ->
  band_diff seq1 seq2 i j = band_diff seq2 seq1 c k.
Proof.
  intros Hi Hc E1 E2. unfold band_diff, MAXINDELS.
  replace (Z.of_nat (S i) + Z.of_nat j - 3 - 1) with (Z.of_nat c) by lia.
  replace (Z.of_nat (S c) + Z.of_nat k - 3 - 1) with (Z.of_nat i) by lia.
  rewrite !item_or_nat by assumption.
  unfold char_at. apply diff_sym.
Qed.

(** Band cell [(i, j)] of the pair [(seq1, seq2)] and band cell
    [(c, 6 - j)] of the pair [(seq2, seq1)], [c = i + j - 3], stand for the
    same cell of the full matrix and its transpose, and hold the same
    cost. *)
Lemma E_banded_transpose (seq1 seq2 : str) : forall N i j c k,
  (2 * i + j <= N)%nat ->
  (i <= List.length seq1)%nat -> (c <= List.length seq2)%nat ->
  (i + j = c + 3)%nat -> (j + k = 6)%nat ->
  E_banded seq1 seq2 i j = E_banded seq2 seq1 c k.
Proof.
  induction N as [|N IH]; intros i j c k HN Hi Hc E1 E2.
  - assert (i = 0 /\ j = 0)%nat as [-> ->] by lia. lia.
  - destruct i as [|i].
    { rewrite E_banded_0, in_band_true by (unfold len; lia).
      rewrite (E_banded_column0 seq2 seq1 c k) by lia.
      unfold MAXINDELS. f_equal. lia. }
    destruct c as [|c].
    { rewrite (E_banded_column0 seq1 seq2 (S i) j) by lia.
      rewrite E_banded_0, in_band_true by (unfold len; lia).
      unfold MAXINDELS. f_equal. lia. }
    destruct j as [|j].
    + assert (k = 6)%nat by lia. subst k.
      rewrite E_banded_S0, E_banded_SS.
      rewrite !in_band_true by (unfold len; lia).
      change (Nat.eqb 6 6) with true. cbv iota.
      rewrite (band_diff_sym seq1 seq2 i 0 c 6) by lia.
      rewrite (IH i 0%nat c 6%nat) by lia.
      rewrite (IH i 1%nat (S c) 5%nat) by lia.
      reflexivity.
    + destruct k as [|k].
      * assert (j = 5)%nat by lia. subst j.
        rewrite E_banded_S0, E_banded_SS.
        rewrite !in_band_true by (unfold len; lia).
        change (Nat.eqb 6 6) with true. cbv iota.
        rewrite (band_diff_sym seq1 seq2 i 6 c 0) by lia.
        rewrite (IH i 6%nat c 0%nat) by lia.
        rewrite (IH (S i) 5%nat c 1%nat) by lia.
        reflexivity.
      * rewrite !E_banded_SS.
        rewrite !in_band_true by (unfold len; lia).
        replace (Nat.eqb (S j) 6) with false
          by (symmetry; apply Nat.eqb_neq; lia).
        replace (Nat.eqb (S k) 6) with false
          by (symmetry; apply Nat.eqb_neq; lia).
        rewrite (band_diff_sym seq1 seq2 i (S j) c (S k)) by lia.
        rewrite (IH i (S j) c (S k)) by lia.
        rewrite (IH (S i) j c (S (S k))) by lia.
        rewrite (IH i (S (S j)) (S c) k) by lia.
        apply min3_swap.
Qed.

(** X16.  The banded cost does not depend on the order of the two
    sequences: for non-empty sequences and a positive [MaxCharactersToAlign],
    [getEditDistanceBanded] returns the same cost for [(seq1, seq2)] and for
    [(seq2, seq1)]. *)
Theorem banded_cost_symmetric
  (fuel : nat) (self : GeneSequencing) (seq1 seq2 : str) :
  0 < MaxCharactersToAlign self -> 0 < len seq1 -> 0 < len seq2 ->
  (6 <= fuel)%nat ->
  exists c P P',
    getEditDistanceBanded fuel self seq1 seq2 = Ok (c, P) /\
    getEditDistanceBanded fuel self seq2 seq1 = Ok (c, P').
Proof.
  intros HL H1 H2 Hf. set (L := MaxCharactersToAlign self) in *.
  assert (HL0 : 0 <= L) by lia.
  assert (Hn0 : (0 < cut seq1 L)%nat) by (unfold cut; lia).
  assert (Hm0 : (0 < cut seq2 L)%nat) by (unfold cut; lia).
  destruct (Z_le_gt_dec (Z.abs (len (slice_to seq1 L) - len (slice_to seq2 L)))
                        MAXINDELS) as [Hfeas|Hinf].
  - assert (Hfeas' : Z.abs (len (slice_to seq2 L) - len (slice_to seq1 L))
                     <= MAXINDELS) by lia.
    assert (F : (cut seq1 L <= cut seq2 L + 3)%nat /\
                (cut seq2 L <= cut seq1 L + 3)%nat).
    { rewrite !len_slice_cut in Hfeas by assumption.
      unfold MAXINDELS in Hfeas. lia. }
    do 3 eexists.
    rewrite (getEditDistanceBanded_closed seq1 seq2 L) 
      by (try reflexivity; try assumption; lia).
    rewrite (getEditDistanceBanded_closed seq2 seq1 L)
      by (try reflexivity; try assumption; lia).
    split; [reflexivity|].
    apply (f_equal Ok). f_equal.
    rewrite !slice_to_cut by assumption.
    pose proof (cut_le seq1 L). pose proof (cut_le seq2 L).
    symmetry.
    apply (E_banded_transpose _ _ (2 * cut seq1 L + last_col (cut seq1 L) (cut seq2 L)));
      rewrite ?length_firstn; unfold last_col; lia.
  - exists Inf, [], [].
    rewrite !getEditDistanceBanded_infeasible; [split; reflexivity| |];
      fold L; lia.
Qed.

Lemma banded_cost_symmetric_witness :
  exists c P P',
    getEditDistanceBanded 6 {| banded := true; MaxCharactersToAlign := 5 |}
      (list_ascii_of_string "GATTACA") (list_ascii_of_string "TAC") = Ok (c, P) /\
    getEditDistanceBanded 6 {| banded := true; MaxCharactersToAlign := 5 |}
      (list_ascii_of_string "TAC") (list_ascii_of_string "GATTACA") = Ok (c, P').
Proof.
  apply (banded_cost_symmetric 6
           {| banded := true; MaxCharactersToAlign := 5 |}
           (list_ascii_of_string "GATTACA") (list_ascii_of_string "TAC")).
  - reflexivity.
  - reflexivity.
  - reflexivity.
  - lia.
Defined.

(** ** A cap that cuts nothing *)

Lemma slice_to_whole {A : Type} (l : list A) (k : Z) :
  len l <= k -> slice_to l k = l.
Proof.
  intros H. unfold len in H. rewrite slice_to_firstn by lia.
  apply firstn_all2. lia.
Qed.

(** X17.  An [align_length] that is at least the length of both sequences
    plays no part: [align] returns the same result, or fails the same way,
    for every such value, in either mode. *)
Theorem align_cap_beyond_lengths
  (fuel : nat) (seq1 seq2 : str) (b : bool) (L L' : Z) :
  len seq1 <= L -> len seq2 <= L -> len seq1 <= L' -> len seq2 <= L' ->
  align fuel seq1 seq2 b L = align fuel seq1 seq2 b L'.
Proof.
  intros H1 H2 H1' H2'.
  assert (G : getEditDistance fuel {| banded := b; MaxCharactersToAlign := L |}
                seq1 seq2 =
              getEditDistance fuel {| banded := b; MaxCharactersToAlign := L' |}
                seq1 seq2).
  { unfold getEditDistance. cbn [banded]. destruct b.
    - unfold getEditDistanceBanded. cbn [MaxCharactersToAlign].
      now rewrite !slice_to_whole by assumption.
    - unfold getEditDistanceUnrestricted, unrestricted_tables.
      cbn [MaxCharactersToAlign].
      now rewrite !Z.min_l by assumption. }
  unfold align. rewrite G.
  destruct (getEditDistance fuel {| banded := b; MaxCharactersToAlign := L' |}
              seq1 seq2) as [[c P]| |]; reflexivity.
Qed.

Lemma align_cap_beyond_lengths_witness :
  align 20 (list_ascii_of_string "GATTACA") (list_ascii_of_string "TACT") true 7 =
  align 20 (list_ascii_of_string "GATTACA") (list_ascii_of_string "TACT") true 1000.
Proof.
  apply (align_cap_beyond_lengths 20
           (list_ascii_of_string "GATTACA") (list_ascii_of_string "TACT")
           true 7 1000).
  - vm_compute. discriminate.
  - vm_compute. discriminate.
  - vm_compute. discriminate.
  - vm_compute. discriminate.
Defined.
